(** * Coordination core of the autonomous-development control plane

    A shallow embedding of the Python modules

    - [flaky_detector.py]    (module [FlakyDetector])
    - [agent_protocol.py]    (modules [Heapq], [AgentProtocol])
    - [parallel_executor.py] (module [ParallelExecutor])
    - [self_optimizer.py]    (module [SelfOptimizer])
    - [loop_control.py]      (module [LoopControl])
    - [dependency_graph.py]  (module [DependencyGraph])

    together with the properties of the specification that concern them.

    Conventions.  Python [float]s (timestamps, scores, parameter values) are
    finite here and only compared, copied or divided once; they are rendered
    as exact rationals [Q].  Python [int]s used as list indices and counters
    are [nat]; priorities are the [IntEnum] values in [Z].  A [dict] keeps
    its insertion order and is an association list; a [list] used as an
    array is a [list] read with [!!] and written with [<[i:=x]>]. *)

From Stdlib Require Import QArith Qminmax DecimalString DecimalZ DecimalPos.
From stdpp Require Import base list strings sorting gmap.

Close Scope Q_scope.
Open Scope nat_scope.

(** Boolean comparisons of rationals, as Python's [<] and [<=] on floats. *)
Definition Qltb (a b : Q) : bool := negb (Qle_bool b a).

(** Python's [l[start:]] and [l[:stop]]: a negative index counts from the
    end, and an index beyond either end is brought back to it. *)
Definition slice_from {A} (l : list A) (start : Z) : list A :=
  let n := Z.of_nat (length l) in
  let s := if (start <? 0)%Z then Z.max 0 (start + n) else Z.min start n in
  drop (Z.to_nat s) l.

Definition slice_to {A} (l : list A) (stop : Z) : list A :=
  let n := Z.of_nat (length l) in
  let s := if (stop <? 0)%Z then Z.max 0 (stop + n) else Z.min stop n in
  take (Z.to_nat s) l.

(** [list.sort(key=...)]: a stable insertion sort on the keys. *)
Fixpoint insert_key {A} (key : A -> Z) (x : A) (sorted : list A) : list A :=
  match sorted with
  | [] => [x]
  | y :: rest =>
      if (key x <? key y)%Z then x :: y :: rest else y :: insert_key key x rest
  end.

Definition sort_key {A} (key : A -> Z) (l : list A) : list A :=
  foldl (fun acc x => insert_key key x acc) [] l.

(** The order of a list sorted by [key]. *)
Definition key_le {A} (key : A -> Z) : relation A :=
  fun a b => (key a <= key b)%Z.

(* ===================================================================== *)
(** * flaky_detector.py *)
(* ===================================================================== *)

Module FlakyDetector.

Record TestRun := mkTestRun {
  test_name : string;
  passed : bool;
  timestamp : Q;
  duration_ms : option Q;
  error_message : option string
}.

Record TestHistory := mkTestHistory {
  h_test_name : string;
  runs : list TestRun
}.

(** [TestHistory.add_run]: [self.runs.append(run)]. *)
Definition add_run (h : TestHistory) (run : TestRun) : TestHistory :=
  {| h_test_name := h_test_name h; runs := runs h ++ [run] |}.

(** [sum(1 for r in self.runs if r.passed)]. *)
Definition passed_count (rs : list TestRun) : nat :=
  foldl (fun acc r => if passed r then S acc else acc) 0 rs.

(** [TestHistory.pass_rate]. *)
Definition pass_rate (h : TestHistory) : Q :=
  match runs h with
  | [] => 1%Q
  | _ => (inject_Z (Z.of_nat (passed_count (runs h)))
          / inject_Z (Z.of_nat (length (runs h))))%Q
  end.

(** The body of the [for i in range(1, len(self.runs))] loop. *)
Definition transition_step (rs : list TestRun) (acc i : nat) : nat :=
  match rs !! i, rs !! (i - 1) with
  | Some a, Some b => if negb (eqb (passed a) (passed b)) then S acc else acc
  | _, _ => acc
  end.

Definition count_transitions (rs : list TestRun) : nat :=
  foldl (transition_step rs) 0 (seq 1 (length rs - 1)).

(** [TestHistory.flakiness_score]. *)
Definition flakiness_score (h : TestHistory) : Q :=
  if length (runs h) <? 2 then 0%Q
  else
    let transitions := count_transitions (runs h) in
    let max_transitions := length (runs h) - 1 in
    if 0 <? max_transitions
    then (inject_Z (Z.of_nat transitions) / inject_Z (Z.of_nat max_transitions))%Q
    else 0%Q.

(** The specification's wording: the number of indices [i] in [1..n-1]
    with [runs[i].passed ≠ runs[i-1].passed]. *)
Definition is_transition (rs : list TestRun) (i : nat) : bool :=
  match rs !! i, rs !! (i - 1) with
  | Some a, Some b => negb (eqb (passed a) (passed b))
  | _, _ => false
  end.

Definition spec_transitions (rs : list TestRun) : nat :=
  length (List.filter (is_transition rs) (seq 1 (length rs - 1))).

Definition spec_score (rs : list TestRun) : Q :=
  (inject_Z (Z.of_nat (spec_transitions rs))
   / inject_Z (Z.max 1 (Z.of_nat (length rs) - 1)))%Q.

Definition constant_passed (rs : list TestRun) : Prop :=
  Forall (fun r => Forall (fun r' => passed r = passed r') rs) rs.

Definition sample_history : TestHistory :=
  mkTestHistory "test_a"
    [mkTestRun "test_a" true 1 None None; mkTestRun "test_a" true 2 None None;
     mkTestRun "test_a" true 3 None None].

End FlakyDetector.

(* ===================================================================== *)
(** * A [dict] as an insertion-ordered association list *)
(* ===================================================================== *)

Module Dict.
Section Dict.
Context {V : Type}.

(** [d.get(k)]. *)
Fixpoint get (d : list (string * V)) (k : string) : option V :=
  match d with
  | [] => None
  | (k', v) :: d' => if String.eqb k' k then Some v else get d' k
  end.

(** [d[k] = v]: an existing key keeps its position. *)
Fixpoint set (d : list (string * V)) (k : string) (v : V) : list (string * V) :=
  match d with
  | [] => [(k, v)]
  | (k', v') :: d' =>
      if String.eqb k' k then (k, v) :: d' else (k', v') :: set d' k v
  end.

(** [del d[k]] for a key that is present. *)
Fixpoint del (d : list (string * V)) (k : string) : list (string * V) :=
  match d with
  | [] => []
  | (k', v') :: d' => if String.eqb k' k then d' else (k', v') :: del d' k
  end.

(** [k in d]. *)
Definition mem (d : list (string * V)) (k : string) : bool :=
  match get d k with Some _ => true | None => false end.

Definition keys (d : list (string * V)) : list string := map fst d.
Definition values (d : list (string * V)) : list V := map snd d.
End Dict.
End Dict.

(* ===================================================================== *)
(** * flaky_detector.py: the class FlakyDetector *)
(* ===================================================================== *)

Module Detector.
Import FlakyDetector.

(** [TestHistory.recent_runs]. *)
Definition recent_runs (h : TestHistory) (count : Z) : list TestRun :=
  match runs h with
  | [] => []
  | _ :: _ => slice_from (runs h) (- count)
  end.

Inductive QuarantineStatus := ACTIVE | QUARANTINED | PROBATION | RETIRED.

Definition is_quarantined_status (s : QuarantineStatus) : bool :=
  match s with QUARANTINED => true | _ => false end.

Record QuarantineEntry := mkEntry {
  q_test_name : string;
  q_status : QuarantineStatus;
  q_reason : string;
  quarantined_at : Q;
  probation_started : option Q
}.

Record FlakyTestCandidate := mkCandidate {
  c_test_name : string;
  c_flakiness_score : Q;
  c_pass_rate : Q;
  c_run_count : nat;
  c_recent_failures : nat
}.

Record Detector := mkDetector {
  flakiness_threshold : Q;
  min_runs : Z;
  auto_quarantine : bool;
  retention_days : Z;
  histories : list (string * TestHistory);
  quarantine : list (string * QuarantineEntry)
}.

(** [FlakyDetector.__init__]. *)
Definition new_detector (threshold : Q) (runs_needed : Z) (auto : bool)
    (days : Z) : Detector :=
  mkDetector threshold runs_needed auto days [] [].

Definition set_histories (d : Detector) (hs : list (string * TestHistory))
    : Detector :=
  mkDetector (flakiness_threshold d) (min_runs d) (auto_quarantine d)
             (retention_days d) hs (quarantine d).

Definition set_quarantine (d : Detector) (qs : list (string * QuarantineEntry))
    : Detector :=
  mkDetector (flakiness_threshold d) (min_runs d) (auto_quarantine d)
             (retention_days d) (histories d) qs.

(** [FlakyDetector.get_history]: the history is created when missing. *)
Definition get_history (d : Detector) (name : string) : TestHistory * Detector :=
  match Dict.get (histories d) name with
  | Some h => (h, d)
  | None =>
      let h := mkTestHistory name [] in
      (h, set_histories d (Dict.set (histories d) name h))
  end.

(** [FlakyDetector.is_quarantined]. *)
Definition is_quarantined (d : Detector) (name : string) : bool :=
  match Dict.get (quarantine d) name with
  | None => false
  | Some e => is_quarantined_status (q_status e)
  end.

(** [FlakyDetector.quarantine_test]; [now] is the clock reading that
    becomes [quarantined_at]. *)
Definition quarantine_test (d : Detector) (name reason : string) (now : Q)
    : Detector :=
  set_quarantine d
    (Dict.set (quarantine d) name (mkEntry name QUARANTINED reason now None)).

(** [FlakyDetector.unquarantine_test]. *)
Definition unquarantine_test (d : Detector) (name : string) : Detector :=
  if Dict.mem (quarantine d) name
  then set_quarantine d (Dict.del (quarantine d) name)
  else d.

(** [FlakyDetector.get_quarantined_tests]. *)
Definition get_quarantined_tests (d : Detector) : list string :=
  omap (fun kv => if is_quarantined_status (q_status kv.2) then Some kv.1 else None)
       (quarantine d).

(** [FlakyDetector.set_probation]; [now] is the reading that becomes
    [probation_started], [stamp] the later one a new entry takes as
    [quarantined_at]. *)
Definition set_probation (d : Detector) (name : string) (now stamp : Q)
    : Detector :=
  match Dict.get (quarantine d) name with
  | Some e =>
      set_quarantine d
        (Dict.set (quarantine d) name
           (mkEntry (q_test_name e) PROBATION (q_reason e) (quarantined_at e)
                    (Some now)))
  | None =>
      set_quarantine d
        (Dict.set (quarantine d) name
           (mkEntry name PROBATION "Placed on probation" stamp (Some now)))
  end.

(** [FlakyDetector.get_status]. *)
Definition get_status (d : Detector) (name : string) : QuarantineStatus :=
  match Dict.get (quarantine d) name with
  | None => ACTIVE
  | Some e => q_status e
  end.

(** [FlakyDetector._check_auto_quarantine]. *)
Definition check_auto_quarantine (d : Detector) (name : string) (stamp : Q)
    : Detector :=
  let '(history, d) := get_history d name in
  if (Z.of_nat (length (runs history)) <? min_runs d)%Z then d
  else
    let score := flakiness_score history in
    if Qle_bool (flakiness_threshold d) score && negb (is_quarantined d name)
    then quarantine_test d name
           "Auto-quarantined: flakiness score exceeded threshold" stamp
    else d.

(** [FlakyDetector.record_run]; [now] is the timestamp of the run and
    [stamp] the reading a quarantine made by this call takes. *)
Definition record_run (d : Detector) (name : string) (passed : bool)
    (duration_ms : option Q) (error_message : option string) (now stamp : Q)
    : Detector :=
  let run := mkTestRun name passed now duration_ms error_message in
  let '(history, d) := get_history d name in
  let d := set_histories d (Dict.set (histories d) name (add_run history run)) in
  if auto_quarantine d then check_auto_quarantine d name stamp else d.

(** [sum(1 for r in recent if not r.passed)]. *)
Definition failures (rs : list TestRun) : nat :=
  length (List.filter (fun r => negb (passed r)) rs).

Definition candidate (name : string) (h : TestHistory) : FlakyTestCandidate :=
  mkCandidate name (flakiness_score h) (pass_rate h) (length (runs h))
              (failures (recent_runs h 5)).

(** [candidates.sort(key=lambda c: c.flakiness_score, reverse=True)]: a
    stable sort, largest score first. *)
Fixpoint insert_candidate (c : FlakyTestCandidate)
    (sorted : list FlakyTestCandidate) : list FlakyTestCandidate :=
  match sorted with
  | [] => [c]
  | y :: rest =>
      if Qltb (c_flakiness_score y) (c_flakiness_score c)
      then c :: y :: rest
      else y :: insert_candidate c rest
  end.

Definition sort_candidates (l : list FlakyTestCandidate) : list FlakyTestCandidate :=
  foldl (fun acc c => insert_candidate c acc) [] l.

(** [FlakyDetector.get_most_flaky]. *)
Definition get_most_flaky (d : Detector) (limit : Z) : list FlakyTestCandidate :=
  let candidates :=
    omap (fun kv =>
            if (Z.of_nat (length (runs kv.2)) <? min_runs d)%Z then None
            else if Qltb 0 (flakiness_score kv.2)
                 then Some (candidate kv.1 kv.2)
                 else None) (histories d) in
  slice_to (sort_candidates candidates) limit.

(** [FlakyDetector.cleanup_old_runs]; [now] is the clock reading. *)
Definition cleanup_old_runs (d : Detector) (now : Q) : Detector :=
  let cutoff := (now - inject_Z (retention_days d * 24 * 60 * 60))%Q in
  set_histories d
    (map (fun kv => (kv.1, mkTestHistory (h_test_name kv.2)
                             (List.filter (fun r => Qle_bool cutoff (timestamp r))
                                          (runs kv.2))))
         (histories d)).

(** The history of a test, empty when the test was never seen. *)
Definition history_of (d : Detector) (name : string) : TestHistory :=
  default (mkTestHistory name []) (Dict.get (histories d) name).

(** Largest score first. *)
Definition score_ge : relation FlakyTestCandidate :=
  fun a b => (c_flakiness_score b <= c_flakiness_score a)%Q.

(** A test that passes and fails in turn, recorded five times. *)
Definition sample_detector : Detector :=
  foldl (fun d p => record_run d "test_a" p None None 1 2)
        (new_detector (3 # 10) 5 true 30)
        [true; false; true; false; true].

End Detector.

(* ===================================================================== *)
(** * heapq (the standard-library binary heap both queues are built on) *)
(* ===================================================================== *)

Module Heapq.
Section Heapq.
Context {A : Type} (lt : A -> A -> bool).

(** The [while pos > startpos] loop of [_siftdown]; [pos] bounds the
    number of iterations since [parentpos < pos]. *)
Fixpoint siftdown_loop (fuel : nat) (heap : list A) (newitem : A)
    (startpos pos : nat) : list A * nat :=
  match fuel with
  | 0 => (heap, pos)
  | S fuel' =>
      if startpos <? pos then
        let parentpos := (pos - 1) / 2 in
        match heap !! parentpos with
        | Some parent =>
            if lt newitem parent
            then siftdown_loop fuel' (<[pos:=parent]> heap) newitem startpos parentpos
            else (heap, pos)
        | None => (heap, pos)
        end
      else (heap, pos)
  end.

(** [_siftdown(heap, startpos, pos)]. *)
Definition siftdown (heap : list A) (startpos pos : nat) : list A :=
  match heap !! pos with
  | Some newitem =>
      let '(heap', pos') := siftdown_loop pos heap newitem startpos pos in
      <[pos':=newitem]> heap'
  | None => heap
  end.

(** [rightpos < endpos and not heap[childpos] < heap[rightpos]]. *)
Definition prefer_right (heap : list A) (endpos childpos : nat) : bool :=
  (childpos + 1 <? endpos) &&
  match heap !! childpos, heap !! (childpos + 1) with
  | Some l, Some r => negb (lt l r)
  | _, _ => false
  end.

(** The [while childpos < endpos] loop of [_siftup]: the smaller child
    bubbles up until the hole reaches a leaf. *)
Fixpoint siftup_loop (fuel : nat) (heap : list A) (endpos pos : nat)
    : list A * nat :=
  match fuel with
  | 0 => (heap, pos)
  | S fuel' =>
      let childpos := 2 * pos + 1 in
      if childpos <? endpos then
        let childpos :=
          if prefer_right heap endpos childpos then childpos + 1 else childpos in
        match heap !! childpos with
        | Some child => siftup_loop fuel' (<[pos:=child]> heap) endpos childpos
        | None => (heap, pos)
        end
      else (heap, pos)
  end.

(** [_siftup(heap, pos)]. *)
Definition siftup (heap : list A) (pos : nat) : list A :=
  match heap !! pos with
  | Some newitem =>
      let endpos := length heap in
      let '(heap', pos') := siftup_loop endpos heap endpos pos in
      siftdown (<[pos':=newitem]> heap') pos pos'
  | None => heap
  end.

(** [heappush(heap, item)]. *)
Definition heappush (heap : list A) (item : A) : list A :=
  let heap := heap ++ [item] in
  siftdown heap 0 (length heap - 1).

(** [heappop(heap)]; [None] is the [IndexError] of popping an empty list. *)
Definition heappop (heap : list A) : option (A * list A) :=
  match last heap with
  | None => None
  | Some lastelt =>
      match take (length heap - 1) heap with
      | [] => Some (lastelt, [])
      | returnitem :: rest =>
          Some (returnitem, siftup (<[0:=lastelt]> (returnitem :: rest)) 0)
      end
  end.

(** The heap invariant of the array: no item is smaller than its parent. *)
Definition heap_ok (heap : list A) : Prop :=
  forall i x p, 0 < i -> heap !! i = Some x -> heap !! ((i - 1) / 2) = Some p ->
                lt x p = false.

(** The invariant of both sifting loops, for an array whose slot [pos] is
    a hole: the edges that do not touch the hole are in order, and the
    children of the hole are not smaller than its parent. *)
Definition hole_ok (heap : list A) (pos : nat) : Prop :=
  (forall i x p, 0 < i -> i <> pos -> (i - 1) / 2 <> pos ->
                 heap !! i = Some x -> heap !! ((i - 1) / 2) = Some p ->
                 lt x p = false)
  /\ (forall c x g, 0 < pos -> 0 < c -> (c - 1) / 2 = pos ->
                    heap !! c = Some x -> heap !! ((pos - 1) / 2) = Some g ->
                    lt x g = false).

(** No child of the hole is smaller than [item]. *)
Definition children_ge (heap : list A) (pos : nat) (item : A) : Prop :=
  forall c x, 0 < c -> (c - 1) / 2 = pos -> heap !! c = Some x ->
              lt x item = false.

(** What [__lt__] has to satisfy for the heap to order its items: it is
    asymmetric and its complement is transitive. *)
Definition lt_asym : Prop := forall a b, lt a b = true -> lt b a = false.
Definition lt_cotrans : Prop :=
  forall a b c, lt b a = false -> lt c b = false -> lt c a = false.
End Heapq.
End Heapq.

(* ===================================================================== *)
(** * agent_protocol.py *)
(* ===================================================================== *)

Module AgentProtocol.

Inductive MessageType :=
  | TASK_ASSIGNMENT | TASK_COMPLETION | STATUS_UPDATE | ERROR_REPORT
  | WORK_STEAL_REQUEST | WORK_STEAL_RESPONSE | HEARTBEAT | SHUTDOWN.

Inductive MessagePriority := CRITICAL | HIGH | NORMAL | LOW.

(** The [IntEnum] values. *)
Definition priority_value (p : MessagePriority) : Z :=
  match p with CRITICAL => 1 | HIGH => 2 | NORMAL => 3 | LOW => 4 end.

Record Message := mkMessage {
  msg_type : MessageType;
  sender : string;
  recipient : string;
  payload : list (string * string);
  priority : MessagePriority;
  msg_id : string;
  timestamp : Q;
  reply_to : option string
}.

(** [Message.__lt__]: by priority, then by timestamp. *)
Definition Message_lt (self other : Message) : bool :=
  if negb (priority_value (priority self) =? priority_value (priority other))%Z
  then (priority_value (priority self) <? priority_value (priority other))%Z
  else Qltb (timestamp self) (timestamp other).


Definition max_history : nat := 1000.

Section Bus.
(** [W] is the state outside the bus that the handlers read and write.  A
    handler is called with a message; what it does to the bus is
    [publish], so it is a function returning the new outside state and
    the messages it published, in order. *)
Context {W : Type}.

Definition Handler : Type := Message -> W -> W * list Message.

Record MessageBus := mkBus {
  queue : list Message;
  subscribers : list (string * Handler);
  history : list Message
}.

(** [MessageBus.__init__]. *)
Definition new_bus : MessageBus := mkBus [] [] [].

(** [MessageBus.publish]. *)
Definition publish (bus : MessageBus) (message : Message) : MessageBus :=
  mkBus (Heapq.heappush Message_lt (queue bus) message)
        (subscribers bus) (history bus).

(** [MessageBus.subscribe]. *)
Definition subscribe (bus : MessageBus) (agent_id : string) (handler : Handler)
    : MessageBus :=
  mkBus (queue bus) (Dict.set (subscribers bus) agent_id handler) (history bus).

(** [MessageBus.unsubscribe]. *)
Definition unsubscribe (bus : MessageBus) (agent_id : string) : MessageBus :=
  if Dict.mem (subscribers bus) agent_id
  then mkBus (queue bus) (Dict.del (subscribers bus) agent_id) (history bus)
  else bus.

(** [MessageBus.pending_count]. *)
Definition pending_count (bus : MessageBus) : nat := length (queue bus).

(** [self._history.append(message)] followed by the truncation to the
    last [max_history] entries. *)
Definition record_history (hist : list Message) (message : Message)
    : list Message :=
  let hist := hist ++ [message] in
  if max_history <? length hist
  then drop (length hist - max_history) hist
  else hist.

(** The running state of one [deliver()] call: the bus, the outside
    state and the counter [delivered], followed by the trace of the call
    (oldest first): the handler calls made (subscriber, message), the
    messages popped, and the messages the handlers published. *)
Record DeliverState := mkDeliver {
  d_bus : MessageBus;
  d_world : W;
  d_delivered : nat;
  d_calls : list (string * Message);
  d_popped : list Message;
  d_published : list Message
}.

(** [handler(message); delivered += 1]. *)
Definition call_handler (message : Message) (st : DeliverState)
    (sub : string * Handler) : DeliverState :=
  let '(w, published) := snd sub message (d_world st) in
  mkDeliver (foldl publish (d_bus st) published) w
            (S (d_delivered st)) (d_calls st ++ [(fst sub, message)])
            (d_popped st) (d_published st ++ published).

(** The handlers a popped message is handed to. *)
Definition targets (bus : MessageBus) (message : Message)
    : list (string * Handler) :=
  if String.eqb (recipient message) "*" then subscribers bus
  else
    match Dict.get (subscribers bus) (recipient message) with
    | Some handler => [(recipient message, handler)]
    | None => []
    end.

(** The handler calls one popped message gives rise to. *)
Definition calls_of (bus : MessageBus) (message : Message)
    : list (string * Message) :=
  map (fun sub => (fst sub, message)) (targets bus message).

(** The body of the [while self._queue] loop, after the pop. *)
Definition deliver_message (st : DeliverState) (message : Message)
    (rest : list Message) : DeliverState :=
  let bus := d_bus st in
  let bus := mkBus rest (subscribers bus) (record_history (history bus) message) in
  let st := mkDeliver bus (d_world st) (d_delivered st) (d_calls st)
                      (d_popped st ++ [message]) (d_published st) in
  foldl (call_handler message) st (targets bus message).

(** The [while self._queue] loop.  A handler may publish again for ever,
    so the loop is bounded by [fuel]; [None] means the bound was hit. *)
Fixpoint deliver_loop (fuel : nat) (st : DeliverState) : option DeliverState :=
  match fuel with
  | 0 => None
  | S fuel' =>
      match queue (d_bus st) with
      | [] => Some st
      | _ :: _ =>
          match Heapq.heappop Message_lt (queue (d_bus st)) with
          | Some (message, rest) =>
              deliver_loop fuel' (deliver_message st message rest)
          | None => None
          end
      end
  end.

(** [MessageBus.deliver]. *)
Definition deliver (fuel : nat) (bus : MessageBus) (w : W) : option DeliverState :=
  deliver_loop fuel (mkDeliver bus w 0 [] [] []).

(** A handler that never publishes, and a bus with only such handlers. *)
Definition quiet (h : Handler) : Prop := forall m w, snd (h m w) = [].


(** What holds of the running state throughout a [deliver()] call that
    started on the bus [bus0]: the subscribers stay, the counter is the
    number of handler calls, the calls are those of the popped messages,
    the queue is a heap, and the messages popped or still queued are the
    ones queued at the start and the ones published since. *)
Definition trace_inv (bus0 : MessageBus) (st : DeliverState) : Prop :=
  subscribers (d_bus st) = subscribers bus0
  /\ d_delivered st = length (d_calls st)
  /\ d_calls st = flat_map (calls_of bus0) (d_popped st)
  /\ Heapq.heap_ok Message_lt (queue (d_bus st))
  /\ d_popped st ++ queue (d_bus st) ≡ₚ queue bus0 ++ d_published st.

End Bus.

Arguments MessageBus : clear implicits.
Arguments DeliverState : clear implicits.
Arguments Handler : clear implicits.

(** The handler of the ordering test: [lambda m: delivered.append(m)]. *)
Definition collect : Handler (list Message) := fun m w => (w ++ [m], []).

(** A handler that answers every [LOW] message by publishing an urgent
    [ERROR_REPORT] to the same recipient, and records what it saw. *)
Definition escalation (m : Message) : Message :=
  mkMessage ERROR_REPORT (recipient m) (recipient m) (payload m) CRITICAL
            (msg_id m +:+ "-escalated") (timestamp m) (Some (msg_id m)).

Definition escalate : Handler (list Message) :=
  fun m w =>
    (w ++ [m], match priority m with LOW => [escalation m] | _ => [] end).

(** Sample messages and buses. *)
Definition sample_message (to : string) (p : MessagePriority) (id : string)
    (t : Q) : Message :=
  mkMessage STATUS_UPDATE "orchestrator" to [] p id t None.


Definition escalating_bus : MessageBus (list Message) :=
  publish (publish (subscribe new_bus "agent-1" escalate)
                   (sample_message "agent-1" LOW "m-low" 1))
          (sample_message "agent-1" NORMAL "m-normal" 2).

Definition broadcast_bus : MessageBus (list Message) :=
  publish (publish (subscribe (subscribe new_bus "agent-1" collect)
                              "agent-2" collect)
                   (sample_message "*" NORMAL "m-all" 1))
          (sample_message "nobody" HIGH "m-lost" 2).

(** ** The history: the newest messages, and the file *)

(** [MessageBus.get_history]: [self._history[-limit:]]. *)
Definition get_history {W} (bus : MessageBus W) (limit : Z) : list Message :=
  slice_from (history bus) (- limit).

(** The [k] newest entries of a list. *)
Definition newest {A} (k : nat) (l : list A) : list A := drop (length l - k) l.

(** ** The history file *)



Definition priority_of_value (v : Z) : option MessagePriority :=
  if (v =? 1)%Z then Some CRITICAL else if (v =? 2)%Z then Some HIGH
  else if (v =? 3)%Z then Some NORMAL else if (v =? 4)%Z then Some LOW
  else None.








End AgentProtocol.

(* ===================================================================== *)
(** * parallel_executor.py *)
(* ===================================================================== *)

Module ParallelExecutor.

Inductive TaskPriority := CRITICAL | HIGH | NORMAL | LOW.

Definition priority_value (p : TaskPriority) : Z :=
  match p with CRITICAL => 1 | HIGH => 2 | NORMAL => 3 | LOW => 4 end.

Inductive TaskStatus :=
  | PENDING | QUEUED | IN_PROGRESS | COMPLETED | FAILED | BLOCKED.

Inductive AgentStatus := IDLE | BUSY | STEALING | STOPPED.

Record Task := mkTask {
  task_id : string;
  name : string;
  priority : TaskPriority;
  status : TaskStatus;
  dependencies : list string;
  metadata : list (string * string);
  created_at : Q
}.

(** [task.status = s] on the task object. *)
Definition set_status (t : Task) (s : TaskStatus) : Task :=
  mkTask (task_id t) (name t) (priority t) s (dependencies t) (metadata t)
         (created_at t).

(** [Task.is_ready]. *)
Definition is_ready (t : Task) (completed_tasks : gset string) : bool :=
  match dependencies t with
  | [] => true
  | deps => forallb (fun dep => bool_decide (dep ∈ completed_tasks)) deps
  end.

(** [Task.__lt__]: by priority value, then by creation time. *)
Definition Task_lt (self other : Task) : bool :=
  if negb (priority_value (priority self) =? priority_value (priority other))%Z
  then (priority_value (priority self) <? priority_value (priority other))%Z
  else Qltb (created_at self) (created_at other).

Record WorkResult := mkWorkResult {
  r_task_id : string;
  r_success : bool;
  r_output : option string;
  r_error : option string;
  r_duration_ms : option Q;
  r_timestamp : Q
}.

Record Agent := mkAgent {
  agent_id : string;
  a_status : AgentStatus;
  current_task : option Task;
  completed_count : nat;
  task_start_time : option Q
}.

(** [Agent.__init__]. *)
Definition new_agent (id : string) : Agent := mkAgent id IDLE None 0 None.

(** [Agent.assign_task]; [now] is the reading of [time.time()]. *)
Definition assign_task (a : Agent) (task : Task) (now : Q) : Agent :=
  mkAgent (agent_id a) BUSY (Some (set_status task IN_PROGRESS))
          (completed_count a) (Some now).

(** [Agent.complete_task]; [now] and [stamp] are the two clock readings
    (the duration and the default [WorkResult.timestamp]).  A start time
    of [0.0] is falsy, like [None]. *)
Definition agent_complete_task (a : Agent) (success : bool)
    (output error : option string) (now stamp : Q) : WorkResult * Agent :=
  let tid := match current_task a with
             | Some t => task_id t
             | None => "unknown"
             end in
  let duration :=
    match task_start_time a with
    | Some start =>
        if Qeq_bool start 0 then None else Some ((now - start) * 1000)%Q
    | None => None
    end in
  (mkWorkResult tid success output error duration stamp,
   mkAgent (agent_id a) IDLE None (S (completed_count a)) None).

(** The task object after [Agent.complete_task] set its final status. *)
Definition finished (t : Task) (success : bool) : Task :=
  set_status t (if success then COMPLETED else FAILED).

(** [Agent.start_stealing]. *)
Definition start_stealing (a : Agent) : Agent :=
  mkAgent (agent_id a) STEALING (current_task a) (completed_count a)
          (task_start_time a).

(** [Agent.stop_stealing]. *)
Definition stop_stealing (a : Agent) : Agent :=
  match a_status a with
  | STEALING =>
      mkAgent (agent_id a) IDLE (current_task a) (completed_count a)
              (task_start_time a)
  | _ => a
  end.

(** [Agent.stop]. *)
Definition stop (a : Agent) : Agent :=
  mkAgent (agent_id a) STOPPED (current_task a) (completed_count a)
          (task_start_time a).

(** ** WorkQueue *)

Inductive exn := KeyError (key : string) | ValueError | IndexError.

Inductive result (A : Type) := Ok (a : A) | Raise (e : exn).
Arguments Ok {A} a.
Arguments Raise {A} e.

Record WorkQueue := mkQueue {
  heap : list Task;
  task_map : list (string * Task)
}.

Definition new_queue : WorkQueue := mkQueue [] [].

Definition size (q : WorkQueue) : nat := length (heap q).

Definition is_empty (q : WorkQueue) : bool := length (heap q) =? 0.

(** [WorkQueue.enqueue]. *)
Definition enqueue (q : WorkQueue) (task : Task) : WorkQueue :=
  let task := set_status task QUEUED in
  mkQueue (Heapq.heappush Task_lt (heap q) task)
          (Dict.set (task_map q) (task_id task) task).

(** [WorkQueue.dequeue]: [del self._task_map[...]] raises [KeyError] when
    the id is no longer in the map, after the heap was popped. *)
Definition dequeue (q : WorkQueue) : result (option Task) * WorkQueue :=
  match heap q with
  | [] => (Ok None, q)
  | _ :: _ =>
      match Heapq.heappop Task_lt (heap q) with
      | Some (task, rest) =>
          if Dict.mem (task_map q) (task_id task)
          then (Ok (Some task),
                mkQueue rest (Dict.del (task_map q) (task_id task)))
          else (Raise (KeyError (task_id task)), mkQueue rest (task_map q))
      | None => (Raise IndexError, q)
      end
  end.

(** [WorkQueue.peek]. *)
Definition peek (q : WorkQueue) : option Task := head (heap q).

(** [list.sort()] with [__lt__]: a stable insertion sort. *)
Fixpoint insert_sorted (t : Task) (sorted : list Task) : list Task :=
  match sorted with
  | [] => [t]
  | u :: rest =>
      if Task_lt t u then t :: u :: rest else u :: insert_sorted t rest
  end.

Definition sort_tasks (l : list Task) : list Task :=
  foldl (fun acc t => insert_sorted t acc) [] l.

(** [WorkQueue.steal]. *)
Definition steal (q : WorkQueue) (count : nat) : list Task * WorkQueue :=
  match heap q with
  | [] => ([], q)
  | _ :: _ =>
      let count := count `min` length (heap q) in
      let tasks := sort_tasks (heap q) in
      let n := length tasks in
      (* tasks[-count:], which is the whole list when count is 0 *)
      let stolen := if 0 <? count then drop (n - count) tasks else tasks in
      let remaining := if 0 <? count then take (n - count) tasks else tasks in
      (stolen, foldl enqueue new_queue remaining)
  end.

(** ** ParallelExecutor *)

Record Executor := mkExecutor {
  agents : list Agent;
  queue : WorkQueue;
  completed : list Task;
  completed_ids : gset string;
  blocked_tasks : list Task
}.

(** [f"agent-{i}"]. *)
Definition agent_name (i : nat) : string :=
  "agent-" +:+ NilZero.string_of_uint (Nat.to_uint i).

(** [ParallelExecutor.__init__]. *)
Definition new_executor (num_agents : nat) : Executor :=
  mkExecutor (map (fun i => new_agent (agent_name i)) (seq 0 num_agents))
             new_queue [] ∅ [].

Definition set_agents (ex : Executor) (l : list Agent) : Executor :=
  mkExecutor l (queue ex) (completed ex) (completed_ids ex) (blocked_tasks ex).

Definition set_queue (ex : Executor) (q : WorkQueue) : Executor :=
  mkExecutor (agents ex) q (completed ex) (completed_ids ex) (blocked_tasks ex).

(** [ParallelExecutor.submit]. *)
Definition submit (ex : Executor) (task : Task) : Executor :=
  if is_ready task (completed_ids ex)
  then set_queue ex (enqueue (queue ex) task)
  else mkExecutor (agents ex) (queue ex) (completed ex) (completed_ids ex)
                  (blocked_tasks ex ++ [set_status task BLOCKED]).

Definition pending_count (ex : Executor) : nat :=
  size (queue ex) + length (blocked_tasks ex).

Definition completed_tasks_count (ex : Executor) : nat := length (completed ex).

(** The [for agent in self.agents] loop of [assign_tasks], over the
    positions of the agent list. *)
Fixpoint assign_loop (positions : list nat) (ex : Executor) (assigned : nat)
    (now : Q) : result nat * Executor :=
  match positions with
  | [] => (Ok assigned, ex)
  | i :: positions' =>
      match agents ex !! i with
      | Some agent =>
          match a_status agent with
          | IDLE =>
              if negb (is_empty (queue ex)) then
                match dequeue (queue ex) with
                | (Ok (Some task), q) =>
                    let ex := set_queue ex q in
                    let ex :=
                      set_agents ex (<[i:=assign_task agent task now]> (agents ex)) in
                    assign_loop positions' ex (S assigned) now
                | (Ok None, q) => assign_loop positions' (set_queue ex q) assigned now
                | (Raise e, q) => (Raise e, set_queue ex q)
                end
              else assign_loop positions' ex assigned now
          | _ => assign_loop positions' ex assigned now
          end
      | None => assign_loop positions' ex assigned now
      end
  end.

(** [ParallelExecutor.assign_tasks]. *)
Definition assign_tasks (ex : Executor) (now : Q) : result nat * Executor :=
  assign_loop (seq 0 (length (agents ex))) ex 0 now.

(** [ParallelExecutor._find_agent], as the position of the first match. *)
Fixpoint find_agent_from (l : list Agent) (id : string) (i : nat) : option nat :=
  match l with
  | [] => None
  | a :: l' => if String.eqb (agent_id a) id then Some i
               else find_agent_from l' id (S i)
  end.

Definition find_agent (ex : Executor) (id : string) : option nat :=
  find_agent_from (agents ex) id 0.

(** [ParallelExecutor._unblock_tasks]. *)
Definition unblock_step (ids : gset string) (acc : WorkQueue * list Task)
    (task : Task) : WorkQueue * list Task :=
  if is_ready task ids
  then (enqueue (fst acc) (set_status task PENDING), snd acc)
  else (fst acc, snd acc ++ [task]).

Definition unblock_tasks (ex : Executor) : Executor :=
  let '(q, still_blocked) :=
    foldl (unblock_step (completed_ids ex)) (queue ex, []) (blocked_tasks ex) in
  mkExecutor (agents ex) q (completed ex) (completed_ids ex) still_blocked.

(** [ParallelExecutor.complete_task]. *)
Definition complete_task (ex : Executor) (id : string) (success : bool)
    (output error : option string) (now stamp : Q)
    : option WorkResult * Executor :=
  match find_agent ex id with
  | None => (None, ex)
  | Some i =>
      match agents ex !! i with
      | None => (None, ex)
      | Some agent =>
          match current_task agent with
          | None => (None, ex)
          | Some task =>
              let '(res, agent') :=
                agent_complete_task agent success output error now stamp in
              let ex := set_agents ex (<[i:=agent']> (agents ex)) in
              if success then
                let ex :=
                  mkExecutor (agents ex) (queue ex)
                             (completed ex ++ [finished task success])
                             ({[task_id task]} ∪ completed_ids ex)
                             (blocked_tasks ex) in
                (Some res, unblock_tasks ex)
              else (Some res, ex)
          end
      end
  end.

(** [ParallelExecutor.steal_work_for]. *)
Definition steal_work_for (ex : Executor) (id : string) (now : Q)
    : nat * Executor :=
  match find_agent ex id with
  | None => (0, ex)
  | Some i =>
      match agents ex !! i with
      | None => (0, ex)
      | Some agent =>
          match a_status agent with
          | IDLE =>
              let agent := start_stealing agent in
              let '(stolen, q) := steal (queue ex) 1 in
              let ex := set_queue ex q in
              match stolen, a_status agent with
              | task :: _, STEALING =>
                  let agent := assign_task (stop_stealing agent) task now in
                  (1, set_agents ex (<[i:=agent]> (agents ex)))
              | _, _ =>
                  (0, set_agents ex (<[i:=stop_stealing agent]> (agents ex)))
              end
          | _ => (0, ex)
          end
      end
  end.

(** [ParallelExecutor.shutdown]. *)
Definition shutdown (ex : Executor) : Executor :=
  set_agents ex (map stop (agents ex)).

(** ** Persistence: the JSON document of [save] and [load] *)

Definition status_value (s : TaskStatus) : string :=
  match s with
  | PENDING => "pending" | QUEUED => "queued" | IN_PROGRESS => "in_progress"
  | COMPLETED => "completed" | FAILED => "failed" | BLOCKED => "blocked"
  end.

Definition agent_status_value (s : AgentStatus) : string :=
  match s with
  | IDLE => "idle" | BUSY => "busy" | STEALING => "stealing"
  | STOPPED => "stopped"
  end.

(** [TaskPriority(v)] and [TaskStatus(v)]; [None] is the [ValueError]. *)
Definition priority_of_value (v : Z) : option TaskPriority :=
  if (v =? 1)%Z then Some CRITICAL else if (v =? 2)%Z then Some HIGH
  else if (v =? 3)%Z then Some NORMAL else if (v =? 4)%Z then Some LOW
  else None.

Definition status_of_value (v : string) : option TaskStatus :=
  if String.eqb v "pending" then Some PENDING
  else if String.eqb v "queued" then Some QUEUED
  else if String.eqb v "in_progress" then Some IN_PROGRESS
  else if String.eqb v "completed" then Some COMPLETED
  else if String.eqb v "failed" then Some FAILED
  else if String.eqb v "blocked" then Some BLOCKED
  else None.

Record TaskData := mkTaskData {
  td_task_id : string;
  td_name : string;
  td_priority : Z;
  td_status : string;
  td_dependencies : list string;
  td_metadata : list (string * string)
}.

Record AgentData := mkAgentData {
  ad_agent_id : string;
  ad_status : string;
  ad_completed_count : nat
}.

Record Snapshot := mkSnapshot {
  s_num_agents : nat;
  s_agents : list AgentData;
  s_queue : list TaskData;
  s_blocked : list TaskData;
  s_completed_ids : list string
}.

Definition task_data (t : Task) : TaskData :=
  mkTaskData (task_id t) (name t) (priority_value (priority t))
             (status_value (status t)) (dependencies t) (metadata t).

(** [ParallelExecutor.save]. *)
Definition save (ex : Executor) : Snapshot :=
  mkSnapshot (length (agents ex))
    (map (fun a => mkAgentData (agent_id a) (agent_status_value (a_status a))
                               (completed_count a)) (agents ex))
    (map task_data (heap (queue ex)))
    (map task_data (blocked_tasks ex))
    (elements (completed_ids ex)).

(** [Task(...)] in [load]: [created_at] defaults to the clock reading. *)
Definition task_of_data (d : TaskData) (now : Q) : result Task :=
  match priority_of_value (td_priority d), status_of_value (td_status d) with
  | Some p, Some s =>
      Ok (mkTask (td_task_id d) (td_name d) p s (td_dependencies d)
                 (td_metadata d) now)
  | _, _ => Raise ValueError
  end.

(** The two restore loops of [load]; [clock k] is the [k]-th reading of
    [time.time()] made while loading. *)
Fixpoint load_queue (ds : list TaskData) (clock : nat -> Q) (k : nat)
    (q : WorkQueue) : result (WorkQueue * nat) :=
  match ds with
  | [] => Ok (q, k)
  | d :: ds' =>
      match task_of_data d (clock k) with
      | Ok t => load_queue ds' clock (S k) (enqueue q t)
      | Raise e => Raise e
      end
  end.

Fixpoint load_blocked (ds : list TaskData) (clock : nat -> Q) (k : nat)
    (acc : list Task) : result (list Task) :=
  match ds with
  | [] => Ok acc
  | d :: ds' =>
      match task_of_data d (clock k) with
      | Ok t => load_blocked ds' clock (S k) (acc ++ [t])
      | Raise e => Raise e
      end
  end.

(** [ParallelExecutor.load]. *)
Definition load (data : Snapshot) (clock : nat -> Q) : result Executor :=
  let ex := new_executor (s_num_agents data) in
  let ids : gset string := list_to_set (s_completed_ids data) in
  match load_queue (s_queue data) clock 0 (queue ex) with
  | Ok (q, k) =>
      match load_blocked (s_blocked data) clock k [] with
      | Ok blocked => Ok (mkExecutor (agents ex) q (completed ex) ids blocked)
      | Raise e => Raise e
      end
  | Raise e => Raise e
  end.

(** ** Histories of calls *)

(** The methods of one [Agent]. *)
Inductive agent_call :=
  | AssignTask (task : Task) (now : Q)
  | CompleteTask (success : bool) (output error : option string) (now stamp : Q)
  | StartStealing
  | StopStealing
  | Stop.

Definition agent_step (a : Agent) (c : agent_call) : Agent :=
  match c with
  | AssignTask task now => assign_task a task now
  | CompleteTask success output error now stamp =>
      snd (agent_complete_task a success output error now stamp)
  | StartStealing => start_stealing a
  | StopStealing => stop_stealing a
  | Stop => stop a
  end.

(** The operations of the executor that touch its agents. *)
Inductive executor_call :=
  | Submit (task : Task)
  | AssignTasks (now : Q)
  | ExCompleteTask (id : string) (success : bool) (output error : option string)
                   (now stamp : Q)
  | StealWorkFor (id : string) (now : Q)
  | Shutdown.

Definition executor_step (ex : Executor) (c : executor_call) : Executor :=
  match c with
  | Submit task => submit ex task
  | AssignTasks now => snd (assign_tasks ex now)
  | ExCompleteTask id success output error now stamp =>
      snd (complete_task ex id success output error now stamp)
  | StealWorkFor id now => snd (steal_work_for ex id now)
  | Shutdown => shutdown ex
  end.

Definition is_shutdown (c : executor_call) : bool :=
  match c with Shutdown => true | _ => false end.

(** ** The dependency-gated dispatch scenario *)

(** Two agents; [t2] (which depends on [t1]) is submitted before [t1]; then
    [assign_tasks()], the successful completion of [t1] by the agent that
    holds it, and [assign_tasks()] again. *)
Definition submitted (t1 t2 : Task) : Executor :=
  submit (submit (new_executor 2) t2) t1.

Definition first_assignment (t1 t2 : Task) (now : Q) : Executor :=
  snd (assign_tasks (submitted t1 t2) now).

Definition t1_completed (t1 t2 : Task) (now : Q) : Executor :=
  snd (complete_task (first_assignment t1 t2 now) "agent-0" true None None
                     now now).

Definition second_assignment (t1 t2 : Task) (now : Q) : Executor :=
  snd (assign_tasks (t1_completed t1 t2 now) now).

Definition sample_t1 : Task := mkTask "t1" "Task 1" NORMAL PENDING [] [] 1.
Definition sample_t2 : Task := mkTask "t2" "Task 2" NORMAL PENDING ["t1"] [] 2.

(** The agent at position [i] is BUSY with the task [id]. *)
Definition busy_with (ex : Executor) (i : nat) (id : string) : Prop :=
  exists a t, agents ex !! i = Some a /\ a_status a = BUSY
              /\ current_task a = Some t /\ task_id t = id.




(** The invariant of the data model and its one-directional half. *)
Definition busy_iff_task (a : Agent) : Prop :=
  a_status a = BUSY <-> is_Some (current_task a).

Definition busy_has_task (a : Agent) : Prop :=
  a_status a = BUSY -> is_Some (current_task a).

(** ** Well-formed queues and what the scheduler keeps *)

(** The queues [enqueue] builds from tasks with distinct ids: the array is
    a heap, and the map indexes the queued tasks by id. *)
Definition queue_ok (q : WorkQueue) : Prop :=
  Heapq.heap_ok Task_lt (heap q)
  /\ NoDup (map task_id (heap q))
  /\ Forall (fun t => status t = QUEUED
                      /\ Dict.get (task_map q) (task_id t) = Some t) (heap q).

(** [t] is served no later than [u]: a smaller priority value first, the
    older task first among equals. *)
Definition served_before (t u : Task) : Prop :=
  (priority_value (priority t) <= priority_value (priority u))%Z
  /\ (priority t = priority u -> (created_at t <= created_at u)%Q).

(** The order [tasks.sort()] leaves: no task is smaller than an earlier one. *)
Definition not_after : relation Task := fun a b => Task_lt b a = false.

(** Every dependency of the task has completed. *)
Definition deps_met (ids : gset string) (t : Task) : Prop :=
  Forall (fun d => d ∈ ids) (dependencies t).

(** No task reaches the queue or an agent before its dependencies have
    completed, and no task stays blocked once they have. *)
Definition dispatch_safe (ex : Executor) : Prop :=
  Forall (deps_met (completed_ids ex)) (heap (queue ex))
  /\ Forall (fun a => forall t, current_task a = Some t ->
                                deps_met (completed_ids ex) t) (agents ex)
  /\ Forall (fun t => ~ deps_met (completed_ids ex) t) (blocked_tasks ex).

(** The ids of the completed set are those of the completed list. *)
Definition ledger_ok (ex : Executor) : Prop :=
  completed_ids ex = list_to_set (map task_id (completed ex)).

(** [sum(1 for a in agents if a.status == IDLE)]. *)
Definition is_idle (a : Agent) : bool :=
  match a_status a with IDLE => true | _ => false end.

Definition idle_count (l : list Agent) : nat := length (List.filter is_idle l).

Definition dispatch_inv (ex : Executor) : Prop :=
  Heapq.heap_ok Task_lt (heap (queue ex)) /\ dispatch_safe ex.

(** What [assign_tasks] did to the agent at position [i]: nothing, or it
    was idle and now holds a task that no task left in the queue precedes. *)
Definition assigned_at (ex ex' : Executor) (now : Q) (i : nat) : Prop :=
  forall a a', agents ex !! i = Some a -> agents ex' !! i = Some a' ->
    a' = a
    \/ (a_status a = IDLE
        /\ exists t, t ∈ heap (queue ex) /\ a' = assign_task a t now
                     /\ forall r, r ∈ heap (queue ex') -> served_before t r).

(** Sample tasks in a queue and in an executor. *)
Definition sample_urgent : Task := mkTask "t0" "Hotfix" CRITICAL PENDING [] [] 5.

Definition sample_queue : WorkQueue :=
  enqueue (enqueue new_queue sample_t1) sample_urgent.

Definition sample_executor : Executor :=
  submit (submit (submit (new_executor 2) sample_t2) sample_t1) sample_urgent.

End ParallelExecutor.

(* ===================================================================== *)
(** * self_optimizer.py *)
(* ===================================================================== *)

Module SelfOptimizer.

Inductive OutcomeType := SUCCESS | FAILURE | PARTIAL | TIMEOUT.

Inductive OptimizationStrategy :=
  | HILL_CLIMBING | SIMULATED_ANNEALING | RANDOM_SEARCH | GRADIENT_DESCENT.

Definition outcome_type_eqb (a b : OutcomeType) : bool :=
  match a, b with
  | SUCCESS, SUCCESS | FAILURE, FAILURE | PARTIAL, PARTIAL
  | TIMEOUT, TIMEOUT => true
  | _, _ => false
  end.

Record Outcome := mkOutcome {
  outcome_type : OutcomeType;
  metric_name : string;
  o_value : Q;
  context : list (string * string);
  o_timestamp : Q
}.

Record ParameterRange := mkRange {
  min_value : Q;
  max_value : Q;
  step : Q
}.

(** Python's two-argument [max] and [min]: the first argument stays unless
    the second is strictly beyond it. *)
Definition py_max (a b : Q) : Q := if Qltb a b then b else a.
Definition py_min (a b : Q) : Q := if Qltb b a then b else a.

(** [ParameterRange.is_valid]. *)
Definition is_valid (r : ParameterRange) (value : Q) : bool :=
  Qle_bool (min_value r) value && Qle_bool value (max_value r).

(** [ParameterRange.clamp]. *)
Definition clamp (r : ParameterRange) (value : Q) : Q :=
  py_max (min_value r) (py_min (max_value r) value).

Record ParameterHistoryEntry := mkEntry {
  h_value : Q;
  h_timestamp : Q
}.

Record TuningParameter := mkParameter {
  p_name : string;
  current_value : Q;
  range : ParameterRange;
  history : list ParameterHistoryEntry
}.

(** [TuningParameter(...)] with [__post_init__]: the initial value is the
    first history entry. *)
Definition new_parameter (name : string) (value : Q) (r : ParameterRange)
    (now : Q) : TuningParameter :=
  mkParameter name value r [mkEntry value now].

(** [TuningParameter.adjust]. *)
Definition adjust (p : TuningParameter) (new_value now : Q) : TuningParameter :=
  let v := clamp (range p) new_value in
  mkParameter (p_name p) v (range p) (history p ++ [mkEntry v now]).

(** The invariant of a parameter. *)
Definition in_range (p : TuningParameter) : Prop :=
  (min_value (range p) <= current_value p)%Q
  /\ (current_value p <= max_value (range p))%Q.

Record Optimizer := mkOptimizer {
  learning_rate : Q;
  strategy : OptimizationStrategy;
  parameters : list (string * TuningParameter);
  outcomes : list Outcome;
  optimization_steps : nat
}.

(** [SelfOptimizer.__init__]. *)
Definition new_optimizer (rate : Q) (s : OptimizationStrategy) : Optimizer :=
  mkOptimizer rate s [] [] 0.

Definition set_parameters (opt : Optimizer) (ps : list (string * TuningParameter))
    : Optimizer :=
  mkOptimizer (learning_rate opt) (strategy opt) ps (outcomes opt)
              (optimization_steps opt).

(** [SelfOptimizer.register_parameter]. *)
Definition register_parameter (opt : Optimizer) (name : string)
    (initial_value min max stp now : Q) : Optimizer :=
  set_parameters opt
    (Dict.set (parameters opt) name
              (new_parameter name initial_value (mkRange min max stp) now)).

(** [SelfOptimizer.get_parameter]. *)
Definition get_parameter (opt : Optimizer) (name : string)
    : option TuningParameter :=
  Dict.get (parameters opt) name.

(** [get_parameter(name).adjust(v)]: the parameter object lives in the
    dictionary, so adjusting it changes the optimizer. *)
Definition adjust_parameter (opt : Optimizer) (name : string) (v now : Q)
    : Optimizer :=
  match get_parameter opt name with
  | Some p => set_parameters opt (Dict.set (parameters opt) name (adjust p v now))
  | None => opt
  end.

(** [SelfOptimizer.record_outcome]. *)
Definition record_outcome (opt : Optimizer) (t : OutcomeType) (metric : string)
    (v : Q) (ctx : list (string * string)) (now : Q) : Optimizer :=
  mkOptimizer (learning_rate opt) (strategy opt) (parameters opt)
              (outcomes opt ++ [mkOutcome t metric v ctx now])
              (optimization_steps opt).

Definition count_type (t : OutcomeType) (l : list Outcome) : nat :=
  length (List.filter (fun o => outcome_type_eqb (outcome_type o) t) l).

Definition Qnat (n : nat) : Q := inject_Z (Z.of_nat n).

(** [SelfOptimizer.success_rate]. *)
Definition success_rate (opt : Optimizer) : Q :=
  match outcomes opt with
  | [] => 1
  | _ => (Qnat (count_type SUCCESS (outcomes opt)) / Qnat (length (outcomes opt)))%Q
  end.

(** [str.lower] on ASCII letters, and [sub in s]. *)
Definition lower_ascii (c : Ascii.ascii) : Ascii.ascii :=
  let n := Ascii.nat_of_ascii c in
  if (65 <=? n) && (n <=? 90) then Ascii.ascii_of_nat (n + 32) else c.

Fixpoint lower (s : string) : string :=
  match s with
  | EmptyString => EmptyString
  | String c s' => String (lower_ascii c) (lower s')
  end.

Fixpoint contains (sub s : string) : bool :=
  String.prefix sub s ||
  match s with
  | EmptyString => false
  | String _ s' => contains sub s'
  end.

Record Recommendation := mkRecommendation {
  action : string;
  reason : string;
  suggested_value : Q
}.

(** The body of the loop of [get_recommendations] for one parameter. *)
Definition recommend (recent : list Outcome) (rate : Q) (name : string)
    (param : TuningParameter) : option Recommendation :=
  let timeout_count := count_type TIMEOUT recent in
  let failure_count := count_type FAILURE recent in
  let bar := (Qnat (length recent) * (3 # 10))%Q in
  if contains "timeout" (lower name) && Qltb bar (Qnat timeout_count) then
    Some (mkRecommendation "increase" "High timeout rate"
            (py_min (current_value param * (3 # 2)) (max_value (range param))))
  else if contains "retry" (lower name) && Qltb bar (Qnat failure_count) then
    Some (mkRecommendation "increase" "High failure rate"
            (py_min (current_value param + step (range param))
                    (max_value (range param))))
  else if Qltb (9 # 10) rate && contains "iteration" (lower name) then
    Some (mkRecommendation "decrease" "High success rate, can be more efficient"
            (py_max (current_value param * (9 # 10)) (min_value (range param))))
  else None.

(** [SelfOptimizer.get_recommendations]. *)
Definition get_recommendations (opt : Optimizer)
    : list (string * Recommendation) :=
  let n := length (outcomes opt) in
  let recent := if 20 <? n then drop (n - 20) (outcomes opt) else outcomes opt in
  let rate :=
    match recent with
    | [] => 1%Q
    | _ => (Qnat (count_type SUCCESS recent) / Qnat (length recent))%Q
    end in
  omap (fun kv => match recommend recent rate (fst kv) (snd kv) with
                  | Some r => Some (fst kv, r)
                  | None => None
                  end) (parameters opt).

(** What [optimize_step] reads from outside: the clock and the random
    generator, each as the sequence of its successive results. *)
Record Oracle := mkOracle {
  clock : nat -> Q;
  random : nat -> Q;
  choice : nat -> bool;
  ticks : nat;
  draws : nat;
  picks : nat
}.

Definition tick (w : Oracle) : Q * Oracle :=
  (clock w (ticks w),
   mkOracle (clock w) (random w) (choice w) (S (ticks w)) (draws w) (picks w)).

Definition draw (w : Oracle) : Q * Oracle :=
  (random w (draws w),
   mkOracle (clock w) (random w) (choice w) (ticks w) (S (draws w)) (picks w)).

(** [random.choice([-1, 1])]. *)
Definition pick (w : Oracle) : Q * Oracle :=
  ((if choice w (picks w) then 1 else -1)%Q,
   mkOracle (clock w) (random w) (choice w) (ticks w) (draws w) (S (picks w))).

(** [param.adjust(v)] on the parameter stored under [name]. *)
Definition adjust_at (ps : list (string * TuningParameter)) (name : string)
    (v : Q) (w : Oracle) : list (string * TuningParameter) * Oracle :=
  match Dict.get ps name with
  | Some p => let '(now, w) := tick w in (Dict.set ps name (adjust p v now), w)
  | None => (ps, w)
  end.

(** The loop of the HILL_CLIMBING branch. *)
Definition hill_step (rate : Q) (acc : list (string * TuningParameter) * Oracle)
    (rec : string * Recommendation) : list (string * TuningParameter) * Oracle :=
  let '(ps, w) := acc in
  match Dict.get ps (fst rec) with
  | Some param =>
      let diff := (suggested_value (snd rec) - current_value param)%Q in
      adjust_at ps (fst rec) (current_value param + diff * rate)%Q w
  | None => (ps, w)
  end.

(** The loop of the RANDOM_SEARCH branch. *)
Definition random_step (acc : list (string * TuningParameter) * Oracle)
    (name : string) : list (string * TuningParameter) * Oracle :=
  let '(ps, w) := acc in
  match Dict.get ps name with
  | Some param =>
      let '(r, w) := draw w in
      if Qltb r (2 # 10) then
        let '(sign, w) := pick w in
        adjust_at ps name (current_value param + sign * step (range param))%Q w
      else (ps, w)
  | None => (ps, w)
  end.

(** The loop of the SIMULATED_ANNEALING branch. *)
Definition annealing_step (rate temperature : Q)
    (acc : list (string * TuningParameter) * Oracle)
    (rec : string * Recommendation) : list (string * TuningParameter) * Oracle :=
  let '(ps, w) := acc in
  match Dict.get ps (fst rec) with
  | Some param =>
      let diff := (suggested_value (snd rec) - current_value param)%Q in
      let '(r, w) := draw w in
      if Qltb r temperature || Qltb 0 diff
      then adjust_at ps (fst rec) (current_value param + diff * rate)%Q w
      else (ps, w)
  | None => (ps, w)
  end.

(** [SelfOptimizer.optimize_step]. *)
Definition optimize_step (opt : Optimizer) (w : Oracle) : Optimizer * Oracle :=
  let recommendations := get_recommendations opt in
  let '(ps, w) :=
    match strategy opt with
    | HILL_CLIMBING =>
        foldl (hill_step (learning_rate opt)) (parameters opt, w) recommendations
    | RANDOM_SEARCH =>
        foldl random_step (parameters opt, w) (Dict.keys (parameters opt))
    | SIMULATED_ANNEALING =>
        let temperature :=
          py_max (1 # 10) (1 - Qnat (length (outcomes opt)) / 100)%Q in
        foldl (annealing_step (learning_rate opt) temperature)
              (parameters opt, w) recommendations
    | GRADIENT_DESCENT => (parameters opt, w)
    end in
  (mkOptimizer (learning_rate opt) (strategy opt) ps (outcomes opt)
               (S (optimization_steps opt)), w).

(** ** Persistence *)

Definition strategy_value (s : OptimizationStrategy) : string :=
  match s with
  | HILL_CLIMBING => "hill_climbing"
  | SIMULATED_ANNEALING => "simulated_annealing"
  | RANDOM_SEARCH => "random_search"
  | GRADIENT_DESCENT => "gradient_descent"
  end.

Definition strategy_of_value (v : string) : option OptimizationStrategy :=
  if String.eqb v "hill_climbing" then Some HILL_CLIMBING
  else if String.eqb v "simulated_annealing" then Some SIMULATED_ANNEALING
  else if String.eqb v "random_search" then Some RANDOM_SEARCH
  else if String.eqb v "gradient_descent" then Some GRADIENT_DESCENT
  else None.

Definition outcome_type_value (t : OutcomeType) : string :=
  match t with
  | SUCCESS => "success" | FAILURE => "failure" | PARTIAL => "partial"
  | TIMEOUT => "timeout"
  end.

Definition outcome_type_of_value (v : string) : option OutcomeType :=
  if String.eqb v "success" then Some SUCCESS
  else if String.eqb v "failure" then Some FAILURE
  else if String.eqb v "partial" then Some PARTIAL
  else if String.eqb v "timeout" then Some TIMEOUT
  else None.

Record ParameterData := mkParameterData {
  pd_name : string;
  pd_current_value : Q;
  pd_min_value : Q;
  pd_max_value : Q;
  pd_step : Q;
  pd_history : list ParameterHistoryEntry
}.

Record OutcomeData := mkOutcomeData {
  od_outcome_type : string;
  od_metric_name : string;
  od_value : Q;
  od_context : list (string * string);
  od_timestamp : Q
}.

Record Snapshot := mkSnapshot {
  s_learning_rate : Q;
  s_strategy : string;
  s_optimization_steps : nat;
  s_parameters : list (string * ParameterData);
  s_outcomes : list OutcomeData
}.

Definition parameter_data (p : TuningParameter) : ParameterData :=
  mkParameterData (p_name p) (current_value p) (min_value (range p))
                  (max_value (range p)) (step (range p)) (history p).

Definition outcome_data (o : Outcome) : OutcomeData :=
  mkOutcomeData (outcome_type_value (outcome_type o)) (metric_name o)
                (o_value o) (context o) (o_timestamp o).

(** [SelfOptimizer.save]. *)
Definition save (opt : Optimizer) : Snapshot :=
  mkSnapshot (learning_rate opt) (strategy_value (strategy opt))
             (optimization_steps opt)
             (map (fun kv => (fst kv, parameter_data (snd kv))) (parameters opt))
             (map outcome_data (outcomes opt)).

(** The parameter [load] builds from a saved one: the saved value as it
    is, and the saved history in place of the one [__post_init__] made. *)
Definition parameter_of_data (d : ParameterData) : TuningParameter :=
  mkParameter (pd_name d) (pd_current_value d)
              (mkRange (pd_min_value d) (pd_max_value d) (pd_step d))
              (pd_history d).

Definition outcome_of_data (d : OutcomeData) : option Outcome :=
  match outcome_type_of_value (od_outcome_type d) with
  | Some t => Some (mkOutcome t (od_metric_name d) (od_value d) (od_context d)
                              (od_timestamp d))
  | None => None
  end.

(** [SelfOptimizer.load]; [None] is the [ValueError] of an unknown
    enumeration value. *)
Definition load (data : Snapshot) : option Optimizer :=
  match strategy_of_value (s_strategy data), mapM outcome_of_data (s_outcomes data) with
  | Some s, Some os =>
      Some (mkOptimizer (s_learning_rate data) s
              (foldl (fun ps kv => Dict.set ps (fst kv) (parameter_of_data (snd kv)))
                     [] (s_parameters data))
              os (s_optimization_steps data))
  | _, _ => None
  end.

(** ** Histories of calls *)

Inductive call :=
  | RegisterParameter (name : string) (initial_value min max stp : Q)
  | Adjust (name : string) (new_value : Q)
  | RecordOutcome (t : OutcomeType) (metric : string) (v : Q)
                  (ctx : list (string * string))
  | SetLearningRate (rate : Q)
  | SetStrategy (s : OptimizationStrategy)
  | OptimizeStep
  | Load (data : Snapshot).

Definition run_call (st : Optimizer * Oracle) (c : call) : Optimizer * Oracle :=
  let '(opt, w) := st in
  match c with
  | RegisterParameter name v lo hi stp =>
      let '(now, w) := tick w in (register_parameter opt name v lo hi stp now, w)
  | Adjust name v =>
      let '(now, w) := tick w in (adjust_parameter opt name v now, w)
  | RecordOutcome t metric v ctx =>
      let '(now, w) := tick w in (record_outcome opt t metric v ctx now, w)
  | SetLearningRate rate =>
      (mkOptimizer rate (strategy opt) (parameters opt) (outcomes opt)
                   (optimization_steps opt), w)
  | SetStrategy s =>
      (mkOptimizer (learning_rate opt) s (parameters opt) (outcomes opt)
                   (optimization_steps opt), w)
  | OptimizeStep => optimize_step opt w
  | Load data =>
      match load data with
      | Some opt' => (opt', w)
      | None => (opt, w)
      end
  end.

Definition params_ok (ps : list (string * TuningParameter)) : Prop :=
  Forall (fun kv => in_range (snd kv)) ps.

Definition all_in_range (opt : Optimizer) : Prop := params_ok (parameters opt).

(** The values a call hands over lie in the range it hands over. *)
Definition data_in_range (d : ParameterData) : Prop :=
  (pd_min_value d <= pd_current_value d)%Q
  /\ (pd_current_value d <= pd_max_value d)%Q.

Definition starts_in_range (c : call) : Prop :=
  match c with
  | RegisterParameter _ v lo hi _ => (lo <= v)%Q /\ (v <= hi)%Q
  | Load data => Forall (fun kv => data_in_range (snd kv)) (s_parameters data)
  | _ => True
  end.

Definition sample_oracle : Oracle :=
  mkOracle (fun k => Qnat k) (fun _ => (1 # 10)%Q) (fun _ => true) 0 0 0.

Definition sample_calls : list call :=
  [RegisterParameter "timeout" 30 10 120 10;
   RecordOutcome TIMEOUT "run" 1 [];
   OptimizeStep;
   Adjust "timeout" 1000].

(** ** Histories, correlations and what a step keeps *)

(** The newest entry of the history holds the current value. *)
Definition tracked (p : TuningParameter) : Prop :=
  exists e, last (history p) = Some e /\ h_value e = current_value p.

(** The parameter is stored under its name and its history is up to date. *)
Definition well_kept (kv : string * TuningParameter) : Prop :=
  p_name kv.2 = kv.1 /\ tracked kv.2.

Definition is_load (c : call) : bool :=
  match c with Load _ => true | _ => false end.

(** The same parameter at a later time: the name and the range stay, the
    history has grown. *)
Definition extends (p p' : TuningParameter) : Prop :=
  p_name p' = p_name p /\ range p' = range p
  /\ history p `prefix_of` history p'.

Definition later (ps ps' : list (string * TuningParameter)) : Prop :=
  Forall2 (fun kv kv' => kv'.1 = kv.1 /\ extends kv.2 kv'.2) ps ps'.

(** The loop body of [get_correlations] for one parameter. *)
Definition correlation (outcomes : list Outcome) (param : TuningParameter)
    : option Q :=
  if (2 <=? length (history param)) && (2 <=? length outcomes) then
    match last (history param), head (history param) with
    | Some newest, Some oldest =>
        let param_trend := (h_value newest - h_value oldest)%Q in
        let recent_successes := count_type SUCCESS (slice_from outcomes (-5)) in
        if negb (Qeq_bool param_trend 0) then
          Some (if Qltb 0 param_trend then (Qnat recent_successes / 5)%Q
                else (- Qnat recent_successes / 5)%Q)
        else None
    | _, _ => None
    end
  else None.

(** [SelfOptimizer.get_correlations]. *)
Definition get_correlations (opt : Optimizer) : list (string * Q) :=
  omap (fun kv => match correlation (outcomes opt) kv.2 with
                  | Some c => Some (kv.1, c)
                  | None => None
                  end) (parameters opt).

Definition sample_optimizer : Optimizer :=
  (foldl run_call (new_optimizer (1 # 10) HILL_CLIMBING, sample_oracle)
         [RegisterParameter "timeout" 30 10 120 10;
          RecordOutcome TIMEOUT "run" 1 []]).1.

Definition tuned_optimizer : Optimizer :=
  (foldl run_call (new_optimizer (1 # 10) HILL_CLIMBING, sample_oracle)
         [RegisterParameter "timeout" 30 10 120 10;
          Adjust "timeout" 50;
          RecordOutcome SUCCESS "run" 1 [];
          RecordOutcome FAILURE "run" 0 []]).1.

End SelfOptimizer.

(* ===================================================================== *)
(** * loop_control.py *)
(* ===================================================================== *)

Module LoopControl.

Record IterationRecord := mkRecord {
  r_iteration : nat;
  r_timestamp : Q;
  r_files_changed : Z;
  r_tests_passed : Z;
  r_error : option string
}.

Record LoopState := mkLoopState {
  iteration : nat;
  errors_count : nat;
  last_error : option string;
  consecutive_same_error : nat;
  consecutive_no_progress : nat;
  stuck_threshold : nat;
  no_progress_threshold : nat;
  last_error_hash : option string;
  history : list IterationRecord
}.

(** [LoopState()] with its defaults. *)
Definition new_state : LoopState := mkLoopState 0 0 None 0 0 5 3 None [].

(** [str(n)] for an [int]. *)
Definition str_int (n : Z) : string := NilZero.string_of_int (Z.to_int n).

(** The amendment both [record_*] methods make to the newest history
    record when it belongs to the current iteration. *)
Definition amend_last (hist : list IterationRecord) (it : nat)
    (f : IterationRecord -> IterationRecord) : option (list IterationRecord) :=
  match last hist with
  | Some r =>
      if r_iteration r =? it
      then Some (take (length hist - 1) hist ++ [f r])
      else None
  | None => None
  end.

Section Hash.
(** The built-in [hash] on strings: some function of the string, fixed
    for the life of the process. *)
Variable py_hash : string -> Z.

(** [LoopState.increment]. *)
Definition increment (s : LoopState) : LoopState :=
  mkLoopState (S (iteration s)) (errors_count s) (last_error s)
              (consecutive_same_error s) (consecutive_no_progress s)
              (stuck_threshold s) (no_progress_threshold s)
              (last_error_hash s) (history s).

(** [LoopState.record_error]. *)
Definition record_error (s : LoopState) (error : string) : LoopState :=
  let error_hash := str_int (py_hash error) in
  let same :=
    match last_error_hash s with
    | Some h => String.eqb error_hash h
    | None => false
    end in
  let hist :=
    match amend_last (history s) (iteration s)
            (fun r => mkRecord (r_iteration r) (r_timestamp r)
                               (r_files_changed r) (r_tests_passed r)
                               (Some error)) with
    | Some hist => hist
    | None => history s
    end in
  mkLoopState (iteration s) (S (errors_count s)) (Some error)
              (if same then S (consecutive_same_error s) else 1)
              (consecutive_no_progress s)
              (stuck_threshold s) (no_progress_threshold s)
              (if same then last_error_hash s else Some error_hash)
              hist.

(** [LoopState.record_progress]. *)
Definition record_progress (s : LoopState) (files_changed tests_passed : Z)
    (now : Q) : LoopState :=
  let progress := (0 <? files_changed)%Z || (0 <? tests_passed)%Z in
  let hist :=
    match amend_last (history s) (iteration s)
            (fun r => mkRecord (r_iteration r) (r_timestamp r) files_changed
                               tests_passed (r_error r)) with
    | Some hist => hist
    | None =>
        history s ++ [mkRecord (iteration s) now files_changed tests_passed None]
    end in
  mkLoopState (iteration s) (errors_count s) (last_error s)
              (if progress then 0 else consecutive_same_error s)
              (if progress then 0 else S (consecutive_no_progress s))
              (stuck_threshold s) (no_progress_threshold s)
              (if progress then None else last_error_hash s)
              hist.

(** [LoopState.is_stuck]. *)
Definition is_stuck (s : LoopState) : bool :=
  stuck_threshold s <=? consecutive_same_error s.
End Hash.

(** Two error strings that differ only in a line number. *)
Definition differ_in_line_number (e1 e2 : string) : Prop :=
  exists (before after : string) (n1 n2 : nat),
    e1 = before +:+ "line " +:+ NilZero.string_of_uint (Nat.to_uint n1) +:+ after
    /\ e2 = before +:+ "line " +:+ NilZero.string_of_uint (Nat.to_uint n2) +:+ after.

(** One possible [hash]: the characters of the string read as the digits
    of a number in base 257. *)
Fixpoint digits_hash (s : string) : Z :=
  match s with
  | EmptyString => 0
  | String c s' => Z.of_nat (S (Ascii.nat_of_ascii c)) + 257 * digits_hash s'
  end.

(** ** Complexity, the iteration limit and the controller *)

Inductive TaskComplexity := TRIVIAL | SIMPLE | MODERATE | COMPLEX | EPIC.

(** The [IntEnum] values. *)
Definition complexity_value (c : TaskComplexity) : Z :=
  match c with TRIVIAL => 1 | SIMPLE => 2 | MODERATE => 3 | COMPLEX => 4 | EPIC => 5 end.

(** The three contributions to the score of [from_metrics]. *)
Definition file_score (file_count : Z) : Z :=
  if (file_count <=? 1)%Z then 0
  else if (file_count <=? 2)%Z then 1
  else if (file_count <=? 4)%Z then 3
  else if (file_count <=? 10)%Z then 4
  else if (file_count <=? 20)%Z then 6
  else 8.

Definition test_score (test_count : Z) : Z :=
  if (test_count <=? 2)%Z then 0
  else if (test_count <=? 5)%Z then 2
  else if (test_count <? 10)%Z then 3
  else 4.

Definition depth_score (dependency_depth : Z) : Z :=
  if (dependency_depth <=? 1)%Z then 0
  else if (dependency_depth <=? 2)%Z then 2
  else if (dependency_depth <=? 4)%Z then 4
  else 6.

(** [TaskComplexity.from_metrics]. *)
Definition from_metrics (file_count test_count dependency_depth : Z)
    : TaskComplexity :=
  let score := (0 + file_score file_count + test_score test_count
                + depth_score dependency_depth)%Z in
  if (score <=? 1)%Z then TRIVIAL
  else if (score <=? 3)%Z then SIMPLE
  else if (score <=? 5)%Z then MODERATE
  else if (score <=? 9)%Z then COMPLEX
  else EPIC.

Record LoopConfig := mkConfig {
  base_iterations : Z;
  min_iterations : Z;
  max_iterations : Z;
  complexity_multipliers : TaskComplexity -> option Q
}.

(** [LoopConfig()] with its defaults. *)
Definition default_config : LoopConfig :=
  mkConfig 50 10 200
    (fun c => Some (match c with
                    | TRIVIAL => 3 # 10 | SIMPLE => 6 # 10 | MODERATE => 1
                    | COMPLEX => 3 # 2 | EPIC => 4
                    end)%Q).

(** [int(x)] on a float: the fraction is dropped. *)
Definition py_int (x : Q) : Z := Z.quot (Qnum x) (Z.pos (Qden x)).

(** [LoopConfig.get_adaptive_limit]. *)
Definition get_adaptive_limit (cfg : LoopConfig) (complexity : TaskComplexity) : Z :=
  let multiplier := default 1%Q (complexity_multipliers cfg complexity) in
  let calculated := py_int (inject_Z (base_iterations cfg) * multiplier) in
  Z.max (min_iterations cfg) (Z.min calculated (max_iterations cfg)).

Record BackoffStrategy := mkBackoff {
  base_delay : Q;
  multiplier : Q;
  max_delay : Q;
  jitter : bool
}.

(** [LoopState.has_no_progress]. *)
Definition has_no_progress (s : LoopState) : bool :=
  no_progress_threshold s <=? consecutive_no_progress s.

Record LoopController := mkController {
  config : LoopConfig;
  complexity : TaskComplexity;
  backoff : BackoffStrategy;
  state : LoopState;
  stop_reason_field : option string
}.

(** [LoopController.__init__]. *)
Definition new_controller (cfg : option LoopConfig) (cx : TaskComplexity)
    (b : option BackoffStrategy) : LoopController :=
  mkController (default default_config cfg) cx
               (default (mkBackoff (1 # 2) 2 30 true) b) new_state None.

Definition set_state (c : LoopController) (s : LoopState) : LoopController :=
  mkController (config c) (complexity c) (backoff c) s (stop_reason_field c).

Definition set_reason (c : LoopController) (r : string) : LoopController :=
  mkController (config c) (complexity c) (backoff c) (state c) (Some r).

(** [LoopController.iteration_limit]. *)
Definition iteration_limit (c : LoopController) : Z :=
  get_adaptive_limit (config c) (complexity c).


(** [LoopController.tick]; [now] is the reading of the clock. *)
Definition tick (c : LoopController) (now : Q) : LoopController :=
  let s := increment (state c) in
  set_state c
    (mkLoopState (iteration s) (errors_count s) (last_error s)
                 (consecutive_same_error s) (consecutive_no_progress s)
                 (stuck_threshold s) (no_progress_threshold s)
                 (last_error_hash s)
                 (history s ++ [mkRecord (iteration s) now 0 0 None])).

(** [LoopController.should_stop]. *)
Definition should_stop (c : LoopController) : bool * LoopController :=
  if (iteration_limit c <=? Z.of_nat (iteration (state c)))%Z then
    (true, set_reason c ("Max iterations (" +:+ str_int (iteration_limit c)
                         +:+ ") reached"))
  else if is_stuck (state c) then
    (true, set_reason c "Stuck on same error repeatedly")
  else if has_no_progress (state c) then
    (true, set_reason c "No progress for too many iterations")
  else (false, c).

(** [LoopController.get_history], as the records themselves. *)
Definition get_history (c : LoopController) : list IterationRecord :=
  history (state c).

Inductive controller_call :=
  | Tick (now : Q)
  | RecordError (error : string)
  | RecordProgress (files_changed tests_passed : Z) (now : Q)
  | ShouldStop.

Section Controller.
Variable py_hash : string -> Z.

Definition controller_step (c : LoopController) (call : controller_call)
    : LoopController :=
  match call with
  | Tick now => tick c now
  | RecordError error => set_state c (record_error py_hash (state c) error)
  | RecordProgress f t now => set_state c (record_progress (state c) f t now)
  | ShouldStop => (should_stop c).2
  end.
End Controller.


(** The history has one record per iteration at most, oldest first, and
    none of an iteration yet to come. *)
Definition history_ok (s : LoopState) : Prop :=
  StronglySorted lt (map r_iteration (history s))
  /\ Forall (fun r => r_iteration r <= iteration s) (history s).


End LoopControl.

(* ===================================================================== *)
(** * dependency_graph.py *)
(* ===================================================================== *)

Module DependencyGraph.

Inductive FeatureStatus := PENDING | IN_PROGRESS | COMPLETE | BLOCKED.

Record Feature := mkFeature {
  id : string;
  description : string;
  priority : Z;
  dependencies : list string;
  status : FeatureStatus;
  effort_estimate : Z;
  passes : bool
}.

(** [_features] is a dict from ids to features; [_edges] and
    [_reverse_edges] are dicts from ids to sets of ids.  A set is iterated
    in an order Python does not specify: it is a duplicate-free list here,
    and the properties below hold for every such list. *)
Record Graph := mkGraph {
  features : list (string * Feature);
  edges : list (string * list string);
  reverse_edges : list (string * list string)
}.

(** [DependencyGraph.__init__]. *)
Definition new_graph : Graph := mkGraph [] [] [].

Definition mem (x : string) (l : list string) : bool :=
  existsb (String.eqb x) l.

(** [s.add(x)] on a set. *)
Definition set_add (x : string) (l : list string) : list string :=
  if mem x l then l else l ++ [x].

(** [d[k].add(x)] on a [defaultdict(set)]. *)
Definition dict_add (d : list (string * list string)) (k x : string)
    : list (string * list string) :=
  Dict.set d k (set_add x (default [] (Dict.get d k))).

(** [d.get(k, set())]. *)
Definition lookup_set (d : list (string * list string)) (k : string) : list string :=
  default [] (Dict.get d k).

(** [DependencyGraph.get_dependencies]: [self._edges.get(id, set())]. *)
Definition get_dependencies (g : Graph) (feature_id : string) : list string :=
  default [] (Dict.get (edges g) feature_id).

(** [DependencyGraph.get_dependents]. *)
Definition get_dependents (g : Graph) (feature_id : string) : list string :=
  default [] (Dict.get (reverse_edges g) feature_id).

(** [DependencyGraph.get_feature]. *)
Definition get_feature (g : Graph) (feature_id : string) : option Feature :=
  Dict.get (features g) feature_id.

(** The loop of [add_feature] over [feature.dependencies]. *)
Definition add_edge (fid : string)
    (acc : list (string * list string) * list (string * list string))
    (dep_id : string) : list (string * list string) * list (string * list string) :=
  (dict_add (fst acc) fid dep_id, dict_add (snd acc) dep_id fid).

(** [DependencyGraph.add_feature]. *)
Definition add_feature (g : Graph) (feature : Feature) : Graph :=
  let '(e, r) :=
    foldl (add_edge (id feature)) (edges g, reverse_edges g)
          (dependencies feature) in
  mkGraph (Dict.set (features g) (id feature) feature) e r.

Definition node_count (g : Graph) : nat := length (features g).

(** ** Cycle detection *)

(** The variables [find_cycles] shares with its inner function [dfs]. *)
Record Search := mkSearch {
  cycles : list (list string);
  visited : gset string;
  rec_stack : gset string;
  path : list string
}.

(** [path.index(x)]. *)
Fixpoint index_of (x : string) (l : list string) : nat :=
  match l with
  | [] => 0
  | y :: l' => if String.eqb y x then 0 else S (index_of x l')
  end.

(** The first three statements of [dfs]. *)
Definition enter (node : string) (st : Search) : Search :=
  mkSearch (cycles st) ({[node]} ∪ visited st) ({[node]} ∪ rec_stack st)
           (path st ++ [node]).

(** [path.pop(); rec_stack.remove(node)]. *)
Definition leave (node : string) (st : Search) : Search :=
  mkSearch (cycles st) (visited st) (rec_stack st ∖ {[node]})
           (take (length (path st) - 1) (path st)).

(** The back-edge branch: the cycle is the path from the first occurrence
    of [neighbor], closed with [neighbor]. *)
Definition found_cycle (neighbor : string) (st : Search) : Search :=
  mkSearch (cycles st ++ [drop (index_of neighbor (path st)) (path st) ++ [neighbor]])
           (visited st) (rec_stack st) (path st).

(** The [for neighbor in ...] loop of [dfs]; [rec] is the recursive call.
    [None] means that the recursion ran out of fuel. *)
Fixpoint visit_neighbors (rec : string -> Search -> option (bool * Search))
    (node : string) (neighbors : list string) (st : Search)
    : option (bool * Search) :=
  match neighbors with
  | [] => Some (false, leave node st)
  | neighbor :: rest =>
      if negb (bool_decide (neighbor ∈ visited st)) then
        match rec neighbor st with
        | Some (true, st') => Some (true, st')
        | Some (false, st') => visit_neighbors rec node rest st'
        | None => None
        end
      else if bool_decide (neighbor ∈ rec_stack st) then
        Some (true, found_cycle neighbor st)
      else visit_neighbors rec node rest st
  end.

(** The inner function [dfs] of [find_cycles]; every call marks a node
    that was not visited, which bounds the depth of the recursion. *)
Fixpoint dfs (fuel : nat) (g : Graph) (node : string) (st : Search)
    : option (bool * Search) :=
  match fuel with
  | 0 => None
  | S fuel' =>
      visit_neighbors (dfs fuel' g) node (get_dependencies g node) (enter node st)
  end.

(** Every id the search can meet: the features and their dependencies. *)
Definition all_nodes (g : Graph) : list string :=
  Dict.keys (features g) ++ concat (Dict.values (edges g)).

Definition universe (g : Graph) : gset string := list_to_set (all_nodes g).

(** The [for node in self._features] loop of [find_cycles]. *)
Fixpoint search_from (fuel : nat) (g : Graph) (nodes : list string) (st : Search)
    : option Search :=
  match nodes with
  | [] => Some st
  | node :: rest =>
      if negb (bool_decide (node ∈ visited st)) then
        match dfs fuel g node st with
        | Some (_, st') => search_from fuel g rest st'
        | None => None
        end
      else search_from fuel g rest st
  end.

(** [DependencyGraph.find_cycles]. *)
Definition find_cycles (g : Graph) : option (list (list string)) :=
  match search_from (S (size (universe g))) g (Dict.keys (features g))
                    (mkSearch [] ∅ ∅ []) with
  | Some st => Some (cycles st)
  | None => None
  end.

(** [DependencyGraph.has_cycle]. *)
Definition has_cycle (g : Graph) : option bool :=
  match find_cycles g with
  | Some cs => Some (0 <? length cs)
  | None => None
  end.

(** ** Topological sort *)

Inductive outcome (A : Type) := Done (a : A) | KeyError (key : string) | OutOfFuel.
Arguments Done {A} a.
Arguments KeyError {A} key.
Arguments OutOfFuel {A}.

(** [in_degree] is a [defaultdict(int)]: a function that is 0 by default. *)
Definition update (m : string -> Z) (k : string) (v : Z) : string -> Z :=
  fun x => if String.eqb x k then v else m x.

(** [queue.sort(key=lambda x: self._features[x].priority)]: a stable sort;
    the key of an id that is not a feature is the [KeyError]. *)
Definition priority_key (g : Graph) (x : string) : Z :=
  match Dict.get (features g) x with
  | Some f => priority f
  | None => 0
  end.

Fixpoint insert_by (key : string -> Z) (x : string) (sorted : list string)
    : list string :=
  match sorted with
  | [] => [x]
  | y :: rest =>
      if (key x <? key y)%Z then x :: y :: rest else y :: insert_by key x rest
  end.

Definition sort_by (key : string -> Z) (l : list string) : list string :=
  foldl (fun acc x => insert_by key x acc) [] l.

Definition missing_key (g : Graph) (l : list string) : option string :=
  List.find (fun x => negb (Dict.mem (features g) x)) l.

(** The [for dependent in ...] loop of the sort. *)
Definition relax (acc : (string -> Z) * list string) (dependent : string)
    : (string -> Z) * list string :=
  let in_degree := update (fst acc) dependent (fst acc dependent - 1) in
  if (in_degree dependent =? 0)%Z
  then (in_degree, snd acc ++ [dependent])
  else (in_degree, snd acc).

(** The [while queue] loop: each round appends one feature to the result. *)
Fixpoint kahn (fuel : nat) (g : Graph) (queue : list string)
    (in_degree : string -> Z) (result : list Feature) : outcome (list Feature) :=
  match fuel with
  | 0 => OutOfFuel
  | S fuel' =>
      match queue with
      | [] => Done result
      | _ :: _ =>
          match missing_key g queue with
          | Some x => KeyError x
          | None =>
              match sort_by (priority_key g) queue with
              | [] => Done result
              | node :: rest =>
                  match Dict.get (features g) node with
                  | None => KeyError node
                  | Some feature =>
                      let '(in_degree, queue) :=
                        foldl relax (in_degree, rest) (get_dependents g node) in
                      kahn fuel' g queue in_degree (result ++ [feature])
                  end
              end
          end
      end
  end.

(** [in_degree[node] = len(self._edges.get(node, set()))] for every
    feature. *)
Definition initial_in_degree (g : Graph) : string -> Z :=
  foldl (fun m node => update m node (Z.of_nat (length (get_dependencies g node))))
        (fun _ => 0%Z) (Dict.keys (features g)).

(** [DependencyGraph.topological_sort]. *)
Definition topological_sort (g : Graph) : outcome (list Feature) :=
  match has_cycle g with
  | None => OutOfFuel
  | Some true => Done []
  | Some false =>
      let in_degree := initial_in_degree g in
      let queue :=
        List.filter (fun node => (in_degree node =? 0)%Z) (Dict.keys (features g)) in
      kahn (S (length (features g))) g queue in_degree []
  end.

(** ** The graphs [add_feature] builds, and what the claims speak of *)

(** What [add_feature] maintains: ids are the keys; the sets are
    duplicate-free; a node with a dependency is a feature, the
    dependencies of a feature are among its edges; and the two edge maps
    mirror each other. *)
Record wf (g : Graph) : Prop := mkWf {
  wf_keys : NoDup (Dict.keys (features g));
  wf_ids : forall k f, In (k, f) (features g) -> id f = k;
  wf_edges_nodup : forall x, NoDup (get_dependencies g x);
  wf_dependents_nodup : forall x, NoDup (get_dependents g x);
  wf_sources : forall x d, In d (get_dependencies g x) -> In x (Dict.keys (features g));
  wf_declared : forall k f d, In (k, f) (features g) -> In d (dependencies f) ->
                              In d (get_dependencies g k);
  wf_mirror : forall x d, In x (get_dependents g d) <-> In d (get_dependencies g x)
}.

(** Every dependency is itself a feature. *)
Definition closed (g : Graph) : Prop :=
  forall x d, In d (get_dependencies g x) -> In d (Dict.keys (features g)).

(** [x] depends, directly or not, on [y]. *)
Inductive depends_on (g : Graph) : string -> string -> Prop :=
  | depends_direct x y : In y (get_dependencies g x) -> depends_on g x y
  | depends_step x y z :
      In y (get_dependencies g x) -> depends_on g y z -> depends_on g x z.

Definition cyclic (g : Graph) : Prop := exists x, depends_on g x x.

(** No walk along the dependencies from [x] goes on for ever. *)
Inductive safe (g : Graph) : string -> Prop :=
  | safe_intro x : (forall y, In y (get_dependencies g x) -> safe g y) -> safe g x.

(** What holds of the search as long as no cycle was found: the nodes on
    the stack are visited, and a visited node that is not on the stack
    has been left, which makes it safe. *)
Definition search_ok (g : Graph) (st : Search) : Prop :=
  cycles st = []
  /\ rec_stack st ⊆ visited st
  /\ forall x, x ∈ visited st -> x ∈ rec_stack st \/ safe g x.

(** Every feature of the result comes after all its dependencies. *)
Definition dependencies_first (g : Graph) (l : list Feature) : Prop :=
  forall j f d,
    l !! j = Some f -> In d (get_dependencies g (id f)) ->
    exists i fd, i < j /\ l !! i = Some fd /\ id fd = d.

(** ** The search, seen from outside *)

Section SearchSpec.
Variable g : Graph.

(** What a call of [dfs], or the loop inside it, does to the search:
    it only adds visited nodes, all from the universe, and keeps the
    cycles found. *)
Definition grows (st st' : Search) : Prop :=
  visited st ⊆ visited st' /\ visited st' ⊆ universe g
  /\ (cycles st <> [] -> cycles st' <> []).

(** The result of [dfs] on [node], or of the loop over its neighbours. *)
Definition found (r : bool) (st' : Search) : Prop :=
  r = true /\ cycles st' <> [].

Definition dfs_post (node : string) (st : Search) (r : bool) (st' : Search) : Prop :=
  search_ok g st ->
  found r st'
  \/ (r = false /\ search_ok g st' /\ node ∈ visited st'
      /\ rec_stack st' = rec_stack st /\ safe g node).

Definition dfs_spec (fuel : nat) : Prop :=
  forall node st,
    visited st ⊆ universe g -> node ∈ universe g -> node ∉ visited st ->
    size (universe g ∖ visited st) <= fuel ->
    exists r st', dfs fuel g node st = Some (r, st') /\ grows st st'
                  /\ dfs_post node st r st'.

End SearchSpec.

(** ** What the sort maintains *)

(** The ids already in the result, and the dependencies of [x] that are
    not among them. *)
Definition done (result : list Feature) : list string := map id result.

Definition pending (g : Graph) (result : list Feature) (x : string)
    : list string :=
  List.filter (fun d => negb (mem d (done result))) (get_dependencies g x).

(** The invariant of the [while queue] loop: the result and the queue are
    disjoint sets of features; [in_degree] counts the pending dependencies
    of every feature; the features with none pending are the ones in the
    result or the queue; and the result is in dependency order. *)
Record kahn_inv (g : Graph) (queue : list string) (in_degree : string -> Z)
    (result : list Feature) : Prop := mkKahn {
  k_nodup : NoDup (done result ++ queue);
  k_features : forall x, In x (done result ++ queue) -> In x (Dict.keys (features g));
  k_count : forall x, In x (Dict.keys (features g)) ->
                      in_degree x = Z.of_nat (length (pending g result x));
  k_ready : forall x, In x (Dict.keys (features g)) ->
                      (In x (done result ++ queue) <-> in_degree x = 0%Z);
  k_stored : forall f, In f result -> Dict.get (features g) (id f) = Some f;
  k_order : dependencies_first g result
}.

(** Every feature of the result comes after the dependencies it declares. *)
Definition declared_first (l : list Feature) : Prop :=
  forall j f d,
    l !! j = Some f -> In d (dependencies f) ->
    exists i fd, i < j /\ l !! i = Some fd /\ id fd = d.

(** The result the claim asks for: every feature exactly once, each after
    its dependencies. *)
Definition sorted_features (g : Graph) (l : list Feature) : Prop :=
  l ≡ₚ Dict.values (features g)
  /\ NoDup (map id l)
  /\ dependencies_first g l
  /\ declared_first l.

Definition sample_feature (i : string) (p : Z) (deps : list string) : Feature :=
  mkFeature i "" p deps PENDING 1 false.

(** The graphs reached from the empty one. *)
Definition built_from (fs : list Feature) : Graph := foldl add_feature new_graph fs.

Definition diamond : Graph :=
  built_from [sample_feature "F4" 1 ["F2"; "F3"]; sample_feature "F2" 5 ["F1"];
              sample_feature "F3" 2 ["F1"]; sample_feature "F1" 9 []].

Definition triangle : Graph :=
  built_from [sample_feature "F1" 1 ["F3"]; sample_feature "F2" 2 ["F1"];
              sample_feature "F3" 3 ["F2"]].

(** ** Ready and blocked features, cycles as walks *)

Definition is_complete (f : Feature) : bool :=
  match status f with COMPLETE => true | _ => false end.

Definition is_in_progress (f : Feature) : bool :=
  match status f with IN_PROGRESS => true | _ => false end.

(** The inner loop of [get_ready_features] and [get_blocked_features]:
    every dependency is a feature of the graph that is complete. *)
Definition deps_complete (g : Graph) (feature : Feature) : bool :=
  forallb (fun dep_id => match Dict.get (features g) dep_id with
                         | Some dep => is_complete dep
                         | None => false
                         end) (dependencies feature).

(** [DependencyGraph.get_ready_features]. *)
Definition get_ready_features (g : Graph) : list Feature :=
  sort_key priority
    (List.filter (fun f => negb (is_complete f) && negb (is_in_progress f)
                           && deps_complete g f)
                 (Dict.values (features g))).

(** [DependencyGraph.get_blocked_features]. *)
Definition get_blocked_features (g : Graph) : list Feature :=
  List.filter (fun f => negb (is_complete f) && negb (deps_complete g f))
              (Dict.values (features g)).

(** Consecutive nodes of the list are joined by an edge. *)
Fixpoint chain (g : Graph) (l : list string) : Prop :=
  match l with
  | x :: (y :: _) as l' => In y (get_dependencies g x) /\ chain g l'
  | _ => True
  end.

(** A closed walk along the edges: it returns to the node it starts at. *)
Definition genuine_cycle (g : Graph) (c : list string) : Prop :=
  chain g c /\ exists x mid, c = x :: mid ++ [x].

(** What holds of the path and the stack of the search until a cycle is
    found. *)
Definition path_ok (g : Graph) (st : Search) : Prop :=
  chain g (path st) /\ NoDup (path st)
  /\ (forall x, x ∈ rec_stack st <-> In x (path st))
  /\ rec_stack st ⊆ visited st.

(** What a call of [dfs], or the loop over the neighbours, leaves when it
    starts before any cycle was found: no cycle, with the path [p] and the
    stack [stack]; or one cycle, which is a closed walk. *)
Definition result_ok (g : Graph) (st : Search) (r : bool) (st' : Search)
    (p : list string) (stack : gset string) : Prop :=
  (r = false /\ cycles st' = [] /\ path st' = p /\ rec_stack st' = stack
   /\ visited st ⊆ visited st' /\ rec_stack st' ⊆ visited st')
  \/ (r = true /\ exists c, cycles st' = [c] /\ genuine_cycle g c).

(** ** ExecutionPlanner *)

Section Plan.
(** [list(remaining)]: Python does not say in which order a set is
    iterated; [iter k s] is the order in which round [k] of the loop
    sees the set [s]. *)
Variable iter : nat -> gset string -> list string.

(** [deps <= completed]. *)
Definition subset_of (deps : list string) (completed : gset string) : bool :=
  forallb (fun d => bool_decide (d ∈ completed)) deps.

(** The body of the [for feature_id in list(remaining)] loop. *)
Definition scan (g : Graph) (completed : gset string)
    (acc : gset string * list Feature) (feature_id : string)
    : gset string * list Feature :=
  match get_feature g feature_id with
  | None => (acc.1 ∖ {[feature_id]}, acc.2)
  | Some feature =>
      if subset_of (get_dependencies g feature_id) completed
      then (acc.1, acc.2 ++ [feature])
      else acc
  end.

(** The body of the [for feature in wave] loop. *)
Definition mark (acc : gset string * gset string) (feature : Feature)
    : gset string * gset string :=
  ({[id feature]} ∪ acc.1, acc.2 ∖ {[id feature]}).

(** The [while remaining] loop; a round that finds no feature ends it. *)
Fixpoint plan_loop (fuel : nat) (g : Graph) (round : nat)
    (remaining completed : gset string) (waves : list (list Feature))
    : option (list (list Feature)) :=
  match fuel with
  | 0 => None
  | S fuel' =>
      if decide (remaining = ∅) then Some waves
      else
        let '(remaining, wave) :=
          foldl (scan g completed) (remaining, []) (iter round remaining) in
        match wave with
        | [] => Some waves
        | _ :: _ =>
            let wave := sort_key priority wave in
            let '(completed, remaining) :=
              foldl mark (completed, remaining) wave in
            plan_loop fuel' g (S round) remaining completed (waves ++ [wave])
        end
  end.

(** [ExecutionPlanner.create_parallel_plan]. *)
Definition create_parallel_plan (g : Graph) : option (list (list Feature)) :=
  match has_cycle g with
  | None => None
  | Some true => Some []
  | Some false =>
      plan_loop (S (length (features g))) g 0
                (list_to_set (Dict.keys (features g))) ∅ []
  end.
End Plan.

(** Every feature of a wave has its dependencies in earlier waves. *)
Definition waves_ordered (g : Graph) (waves : list (list Feature)) : Prop :=
  forall i wave f d,
    waves !! i = Some wave -> In f wave -> In d (get_dependencies g (id f)) ->
    exists j wave' fd, j < i /\ waves !! j = Some wave' /\ In fd wave' /\ id fd = d.

(** The features a round picks from the ids it is given. *)
Definition wave_of (g : Graph) (completed : gset string) (ids : list string)
    : list Feature :=
  omap (fun k => match get_feature g k with
                 | Some f => if subset_of (get_dependencies g k) completed
                             then Some f else None
                 | None => None
                 end) ids.

(** The invariant of the [while remaining] loop. *)
Record plan_inv (g : Graph) (remaining completed : gset string)
    (waves : list (list Feature)) : Prop := mkPlan {
  p_part : forall x, In x (Dict.keys (features g)) <-> x ∈ remaining \/ x ∈ completed;
  p_disj : forall x, x ∈ remaining -> x ∉ completed;
  p_done : forall x, x ∈ completed <-> In x (map id (concat waves));
  p_nodup : NoDup (map id (concat waves));
  p_stored : forall f, In f (concat waves) -> Dict.get (features g) (id f) = Some f;
  p_order : waves_ordered g waves;
  p_waves : Forall (fun wave => wave <> []
                                /\ StronglySorted (key_le priority) wave) waves
}.

End DependencyGraph.

(* ===================================================================== *)
(** * Facts about dictionaries *)
(* ===================================================================== *)

Module DictSpec.

Lemma dict_get_In {V} (d : list (string * V)) k v :
  Dict.get d k = Some v -> In (k, v) d.
Proof.
  induction d as [|[k' v'] d IH]; simpl; [discriminate|].
  destruct (String.eqb_spec k' k) as [->|_]; [|auto].
  intros [= ->]. now left.
Qed.

Lemma dict_get_values {V} (d : list (string * V)) k v :
  Dict.get d k = Some v -> In v (Dict.values d).
Proof.
  induction d as [|[k' v'] d IH]; simpl; [discriminate|].
  destruct (String.eqb k' k); [intros [= ->]; now left|auto].
Qed.

Lemma dict_get_keys {V} (d : list (string * V)) k v :
  Dict.get d k = Some v -> In k (Dict.keys d).
Proof.
  induction d as [|[k' v'] d IH]; simpl; [discriminate|].
  destruct (String.eqb_spec k' k) as [->|_]; [now left|auto].
Qed.

Lemma dict_get_Some {V} (d : list (string * V)) k :
  In k (Dict.keys d) -> exists v, Dict.get d k = Some v.
Proof.
  induction d as [|[k' v'] d IH]; simpl; [intros []|].
  destruct (String.eqb_spec k' k) as [->|Hne]; [eauto|].
  intros [Heq|Hin]; [contradiction|auto].
Qed.

Section Forall.
Context {V : Type} (P : V -> Prop).

Lemma dict_set_Forall (d : list (string * V)) k v :
  Forall (fun kv => P kv.2) d -> P v -> Forall (fun kv => P kv.2) (Dict.set d k v).
Proof.
  intros Hd Hv. induction Hd as [|[k' v'] d Hx Hd IH]; simpl.
  - repeat constructor. exact Hv.
  - destruct (String.eqb k' k); constructor; auto.
Qed.

Lemma dict_get_Forall (d : list (string * V)) k v :
  Forall (fun kv => P kv.2) d -> Dict.get d k = Some v -> P v.
Proof.
  intros Hd. induction Hd as [|[k' v'] d Hx Hd IH]; simpl; [discriminate|].
  destruct (String.eqb k' k); [|assumption]. now intros [= <-].
Qed.
End Forall.

Section SetGet.
Context {V : Type}.
Implicit Types (d : list (string * V)).

Lemma dict_get_set d k v k' :
  Dict.get (Dict.set d k v) k' = if String.eqb k k' then Some v else Dict.get d k'.
Proof.
  induction d as [|[k0 v0] d IH]; simpl.
  - reflexivity.
  - destruct (String.eqb_spec k0 k) as [->|Hne]; simpl.
    + destruct (String.eqb k k'); reflexivity.
    + destruct (String.eqb_spec k0 k') as [->|Hne'].
      * destruct (String.eqb_spec k k'); [congruence|reflexivity].
      * exact IH.
Qed.

Lemma dict_keys_set d k v k' :
  In k' (Dict.keys (Dict.set d k v)) <-> k' = k \/ In k' (Dict.keys d).
Proof.
  unfold Dict.keys. induction d as [|[k0 v0] d IH]; simpl; [intuition|].
  destruct (String.eqb_spec k0 k) as [->|Hne]; simpl; [intuition|].
  rewrite IH. intuition.
Qed.

Lemma dict_keys_set_nodup d k v :
  NoDup (Dict.keys d) -> NoDup (Dict.keys (Dict.set d k v)).
Proof.
  unfold Dict.keys. induction d as [|[k0 v0] d IH]; simpl; intros Hnd.
  - repeat constructor. apply not_elem_of_nil.
  - apply NoDup_cons in Hnd as [Hk Hnd].
    destruct (String.eqb_spec k0 k) as [->|Hne]; simpl.
    + now apply NoDup_cons.
    + apply NoDup_cons. split; [|auto].
      rewrite list_elem_of_In. fold (Dict.keys (Dict.set d k v)).
      rewrite dict_keys_set. rewrite list_elem_of_In in Hk. intuition.
Qed.

Lemma dict_in_set d k v k' v' :
  NoDup (Dict.keys d) ->
  In (k', v') (Dict.set d k v) ->
  (k' = k /\ v' = v) \/ (k' <> k /\ In (k', v') d).
Proof.
  unfold Dict.keys. induction d as [|[k0 v0] d IH]; simpl; intros Hnd.
  - intros [[= <- <-]|[]]. now left.
  - apply NoDup_cons in Hnd as [Hk Hnd]. rewrite list_elem_of_In in Hk.
    destruct (String.eqb_spec k0 k) as [->|Hne]; simpl.
    + intros [[= <- <-]|Hin]; [now left|]. right. split; [|now right].
      intros ->. apply Hk. apply in_map_iff. now exists (k, v').
    + intros [[= <- <-]|Hin]; [right; split; [assumption|now left]|].
      destruct (IH Hnd Hin) as [?|[? ?]]; [now left|right; split; [assumption|now right]].
Qed.
End SetGet.
End DictSpec.

(* ===================================================================== *)
(** * Properties *)
(* ===================================================================== *)

Lemma Qltb_lt a b : Qltb a b = true <-> (a < b)%Q.
Proof.
  unfold Qltb. rewrite negb_true_iff, <- not_true_iff_false, Qle_bool_iff.
  split; [apply Qnot_le_lt | apply Qlt_not_le].
Qed.

Lemma Qltb_ge a b : Qltb a b = false <-> (b <= a)%Q.
Proof.
  unfold Qltb. rewrite negb_false_iff. apply Qle_bool_iff.
Qed.

Module FlakyDetectorSpec.
Import FlakyDetector.

Lemma transition_step_is_transition rs acc i :
  transition_step rs acc i = if is_transition rs i then S acc else acc.
Proof.
  unfold transition_step, is_transition.
  destruct (rs !! i), (rs !! (i - 1)); reflexivity.
Qed.

Lemma foldl_transitions rs l acc :
  foldl (transition_step rs) acc l
  = acc + length (List.filter (is_transition rs) l).
Proof.
  revert acc. induction l as [|i l IH]; intros acc; simpl; [lia|].
  rewrite IH, transition_step_is_transition.
  destruct (is_transition rs i); simpl; lia.
Qed.

Lemma count_transitions_spec rs : count_transitions rs = spec_transitions rs.
Proof. unfold count_transitions. now rewrite foldl_transitions. Qed.

Lemma spec_transitions_le rs : spec_transitions rs <= length rs - 1.
Proof.
  unfold spec_transitions.
  etransitivity; [apply List.filter_length_le|]. now rewrite length_seq.
Qed.

Lemma constant_no_transition rs i :
  constant_passed rs -> is_transition rs i = false.
Proof.
  intros Hc. unfold is_transition.
  destruct (rs !! i) as [a|] eqn:Ha; [|reflexivity].
  destruct (rs !! (i - 1)) as [b|] eqn:Hb; [|reflexivity].
  assert (passed a = passed b) as ->; [|now rewrite eqb_reflx].
  unfold constant_passed in Hc. rewrite Forall_forall in Hc.
  specialize (Hc a (list_elem_of_lookup_2 _ _ _ Ha)). rewrite Forall_forall in Hc.
  exact (Hc b (list_elem_of_lookup_2 _ _ _ Hb)).
Qed.

Lemma constant_spec_transitions rs :
  constant_passed rs -> spec_transitions rs = 0.
Proof.
  intros Hc. unfold spec_transitions.
  induction (seq 1 (length rs - 1)) as [|i l IH]; simpl; [reflexivity|].
  now rewrite constant_no_transition.
Qed.

Lemma score_unfold h :
  2 <= length (runs h) ->
  flakiness_score h
  = (inject_Z (Z.of_nat (spec_transitions (runs h)))
     / inject_Z (Z.of_nat (length (runs h) - 1)))%Q.
Proof.
  intros Hn. unfold flakiness_score.
  destruct (Nat.ltb_spec (length (runs h)) 2) as [?|_]; [lia|].
  destruct (Nat.ltb_spec 0 (length (runs h) - 1)) as [_|?]; [|lia].
  now rewrite count_transitions_spec.
Qed.

Lemma score_short h : length (runs h) < 2 -> flakiness_score h = 0%Q.
Proof.
  intros Hn. unfold flakiness_score.
  destruct (Nat.ltb_spec (length (runs h)) 2) as [_|?]; [reflexivity|lia].
Qed.

Lemma score_range h : (0 <= flakiness_score h <= 1)%Q.
Proof.
  destruct (Nat.lt_ge_cases (length (runs h)) 2) as [Hn|Hn].
  - rewrite score_short by assumption. split; discriminate.
  - rewrite score_unfold by assumption.
    pose proof (spec_transitions_le (runs h)) as Hle.
    assert (0 < inject_Z (Z.of_nat (length (runs h) - 1)))%Q as Hpos.
    { change 0%Q with (inject_Z 0). rewrite <- Zlt_Qlt. lia. }
    split.
    + apply Qle_shift_div_l; [assumption|]. rewrite Qmult_0_l.
      change 0%Q with (inject_Z 0). rewrite <- Zle_Qle. lia.
    + apply Qle_shift_div_r; [assumption|]. rewrite Qmult_1_l.
      rewrite <- Zle_Qle. lia.
Qed.

(** C9.  For every history, [flakiness_score] is the number of transitions
    divided by [max(1, n-1)]; with at least two runs it lies between 0 and
    1; it is 0 when all runs have the same [passed]; and the empty history
    has score 0 and pass rate 1. *)
Theorem flakiness_score_spec (h : TestHistory) :
  (flakiness_score h == spec_score (runs h))%Q
  /\ (2 <= length (runs h) -> (0 <= flakiness_score h <= 1)%Q)
  /\ (constant_passed (runs h) -> (flakiness_score h == 0)%Q)
  /\ (runs h = [] -> flakiness_score h = 0%Q /\ pass_rate h = 1%Q).
Proof.
  assert (flakiness_score h == spec_score (runs h))%Q as Heq.
  { unfold spec_score.
    destruct (Nat.lt_ge_cases (length (runs h)) 2) as [Hn|Hn].
    - rewrite score_short by assumption.
      pose proof (spec_transitions_le (runs h)) as Hle.
      replace (spec_transitions (runs h)) with 0 by lia.
      unfold Qdiv. now rewrite Qmult_0_l.
    - rewrite score_unfold by assumption.
      replace (Z.max 1 (Z.of_nat (length (runs h)) - 1))
        with (Z.of_nat (length (runs h) - 1)) by lia.
      reflexivity. }
  split; [exact Heq|]. split; [intros _; apply score_range|]. split.
  - intros Hc. rewrite Heq. unfold spec_score.
    rewrite constant_spec_transitions by assumption.
    unfold Qdiv. now rewrite Qmult_0_l.
  - intros Hnil. unfold pass_rate. rewrite score_short; rewrite Hnil; simpl; [auto|lia].
Qed.

Lemma flakiness_score_spec_witness :
  (0 <= flakiness_score sample_history <= 1)%Q
  /\ (flakiness_score sample_history == 0)%Q.
Proof.
  destruct (flakiness_score_spec sample_history) as (_ & Hr & Hc & _).
  split; [apply Hr; simpl; lia|].
  apply Hc. unfold constant_passed, sample_history; simpl.
  repeat constructor.
Defined.
End FlakyDetectorSpec.

(* ===================================================================== *)
(** * heapq: both sifting loops keep the heap invariant *)
(* ===================================================================== *)

Module HeapqSpec.
Import Heapq.

Lemma parent_lt i : 0 < i -> (i - 1) / 2 < i.
Proof.
  intros Hi. pose proof (Nat.div_mod_eq (i - 1) 2).
  pose proof (Nat.mod_upper_bound (i - 1) 2). lia.
Qed.

Lemma parent_child c pos : 0 < c -> (c - 1) / 2 = pos -> c = 2 * pos + 1 \/ c = 2 * pos + 2.
Proof.
  intros Hc Hp. pose proof (Nat.div_mod_eq (c - 1) 2).
  pose proof (Nat.mod_upper_bound (c - 1) 2). lia.
Qed.

Lemma parent_left pos : (2 * pos + 1 - 1) / 2 = pos.
Proof. replace (2 * pos + 1 - 1) with (pos * 2) by lia. apply Nat.div_mul. lia. Qed.

Lemma parent_right pos : (2 * pos + 1 + 1 - 1) / 2 = pos.
Proof.
  replace (2 * pos + 1 + 1 - 1) with (1 + pos * 2) by lia.
  rewrite Nat.div_add by lia. reflexivity.
Qed.

Section Facts.
Context {A : Type} (lt : A -> A -> bool).
Hypothesis asym : lt_asym lt.
Hypothesis cotrans : lt_cotrans lt.

Lemma lt_irrefl a : lt a a = false.
Proof. destruct (lt a a) eqn:E; [|reflexivity]. now rewrite (asym _ _ E) in E. Qed.

Lemma heap_ok_nil : heap_ok lt [].
Proof. intros i x p _ H. now rewrite lookup_nil in H. Qed.

Lemma hole_ok_insert heap pos x :
  hole_ok lt heap pos -> hole_ok lt (<[pos:=x]> heap) pos.
Proof.
  intros [H1 H2]. split.
  - intros i y p Hi Hne Hpne Hy Hp.
    rewrite list_lookup_insert_ne in Hy, Hp by congruence. eauto.
  - intros c y g Hpos Hc Hpc Hy Hg.
    pose proof (parent_lt c Hc). pose proof (parent_lt pos Hpos).
    rewrite list_lookup_insert_ne in Hy, Hg by lia. eauto.
Qed.

Lemma children_ge_insert heap pos x item :
  children_ge lt heap pos item -> children_ge lt (<[pos:=x]> heap) pos item.
Proof.
  intros H c y Hc Hpc Hy. pose proof (parent_lt c Hc).
  rewrite list_lookup_insert_ne in Hy by lia. eauto.
Qed.

(** Filling the hole with an item that fits gives a heap. *)
Lemma fill_hole heap pos item :
  pos < length heap ->
  hole_ok lt heap pos -> children_ge lt heap pos item ->
  (0 < pos -> forall p, heap !! ((pos - 1) / 2) = Some p -> lt item p = false) ->
  heap_ok lt (<[pos:=item]> heap).
Proof.
  intros Hlen [H1 H2] Hch Hpar i x p Hi Hx Hp.
  pose proof (parent_lt i Hi).
  destruct (decide (i = pos)) as [->|Hne].
  - rewrite list_lookup_insert_eq in Hx by assumption.
    rewrite list_lookup_insert_ne in Hp by lia.
    injection Hx as <-. eauto.
  - rewrite list_lookup_insert_ne in Hx by congruence.
    destruct (decide ((i - 1) / 2 = pos)) as [Hpp|Hpp].
    + rewrite Hpp, list_lookup_insert_eq in Hp by assumption.
      injection Hp as <-. eauto.
    + rewrite list_lookup_insert_ne in Hp by congruence. eauto.
Qed.

Lemma length_siftdown_loop fuel heap item pos :
  length (siftdown_loop lt fuel heap item 0 pos).1 = length heap.
Proof.
  revert heap pos. induction fuel as [|fuel IH]; intros heap pos; cbn [siftdown_loop]; [reflexivity|].
  destruct (0 <? pos); [|reflexivity].
  destruct (heap !! ((pos - 1) / 2)); [|reflexivity].
  destruct (lt item a); [|reflexivity].
  rewrite IH. apply length_insert.
Qed.

Lemma siftdown_loop_pos fuel heap item pos :
  pos < length heap -> (siftdown_loop lt fuel heap item 0 pos).2 < length heap.
Proof.
  revert heap pos. induction fuel as [|fuel IH]; intros heap pos Hlen; cbn [siftdown_loop]; [assumption|].
  destruct (Nat.ltb_spec 0 pos) as [Hpos|_]; [|assumption].
  destruct (heap !! ((pos - 1) / 2)); [|assumption].
  destruct (lt item a); [|assumption].
  pose proof (parent_lt pos Hpos).
  specialize (IH (<[pos:=a]> heap) ((pos - 1) / 2)).
  rewrite length_insert in IH. apply IH. lia.
Qed.

Lemma siftdown_loop_heap fuel heap item pos :
  pos <= fuel -> pos < length heap ->
  hole_ok lt heap pos -> children_ge lt heap pos item ->
  heap_ok lt (<[(siftdown_loop lt fuel heap item 0 pos).2 := item]>
                (siftdown_loop lt fuel heap item 0 pos).1).
Proof.
  revert heap pos.
  induction fuel as [|fuel IH]; intros heap pos Hfuel Hlen Hhole Hch; cbn [siftdown_loop fst snd].
  - apply fill_hole; auto. intros ?; lia.
  - destruct (Nat.ltb_spec 0 pos) as [Hpos|Hpos]; cbn [fst snd].
    2:{ apply fill_hole; auto. intros ?; lia. }
    pose proof (parent_lt pos Hpos) as Hpp.
    destruct (heap !! ((pos - 1) / 2)) as [parent|] eqn:Hparent; cbn [fst snd].
    2:{ apply lookup_ge_None in Hparent. lia. }
    destruct (lt item parent) eqn:Hlt; cbn [fst snd].
    2:{ apply fill_hole; auto. intros _ p Hp. congruence. }
    destruct Hhole as [H1 H2].
    apply IH; [lia|rewrite length_insert; lia| |].
    + split.
      * intros i x p Hi Hne Hpne Hx Hp.
        destruct (decide (i = pos)) as [->|Hipos]; [congruence|].
        rewrite list_lookup_insert_ne in Hx by congruence.
        destruct (decide ((i - 1) / 2 = pos)) as [Hip|Hip].
        -- rewrite Hip, list_lookup_insert_eq in Hp by assumption.
           injection Hp as <-. eapply H2; eauto.
        -- rewrite list_lookup_insert_ne in Hp by congruence. eauto.
      * intros c x g Hpp0 Hc Hcp Hx Hg.
        pose proof (parent_lt _ Hpp0).
        rewrite list_lookup_insert_ne in Hg by lia.
        assert (lt parent g = false) as Hpg by (eapply (H1 ((pos - 1) / 2)); eauto; lia).
        destruct (decide (c = pos)) as [->|Hcpos].
        -- rewrite list_lookup_insert_eq in Hx by assumption. congruence.
        -- rewrite list_lookup_insert_ne in Hx by congruence.
           eapply cotrans; [exact Hpg|].
           eapply (H1 c); eauto; try lia. rewrite Hcp. exact Hparent.
    + intros c x Hc Hcp Hx.
      destruct (decide (c = pos)) as [->|Hcpos].
      * rewrite list_lookup_insert_eq in Hx by assumption.
        injection Hx as <-. now apply asym.
      * rewrite list_lookup_insert_ne in Hx by congruence.
        eapply cotrans; [apply asym, Hlt|].
        eapply (H1 c); eauto; try lia. rewrite Hcp. exact Hparent.
Qed.

Lemma siftdown_loop_perm fuel heap item pos :
  pos < length heap ->
  <[(siftdown_loop lt fuel heap item 0 pos).2 := item]>
     (siftdown_loop lt fuel heap item 0 pos).1
  ≡ₚ <[pos:=item]> heap.
Proof.
  revert heap pos. induction fuel as [|fuel IH]; intros heap pos Hlen; cbn [siftdown_loop]; [reflexivity|].
  destruct (Nat.ltb_spec 0 pos) as [Hpos|Hpos]; cbn [fst snd]; [|reflexivity].
  pose proof (parent_lt pos Hpos) as Hpp.
  destruct (heap !! ((pos - 1) / 2)) as [parent|] eqn:Hparent; cbn [fst snd]; [|reflexivity].
  destruct (lt item parent); cbn [fst snd]; [|reflexivity].
  rewrite IH by (rewrite length_insert; lia).
  rewrite <- (list_insert_insert_eq heap pos parent item).
  apply Permutation_insert_swap.
  - now apply list_lookup_insert_eq.
  - rewrite list_lookup_insert_ne by lia. exact Hparent.
Qed.

Lemma siftdown_heap heap pos :
  pos < length heap -> hole_ok lt heap pos ->
  (forall item, heap !! pos = Some item -> children_ge lt heap pos item) ->
  heap_ok lt (siftdown lt heap 0 pos).
Proof.
  intros Hlen Hhole Hch. unfold siftdown.
  destruct (heap !! pos) as [item|] eqn:Hitem.
  2:{ apply lookup_ge_None in Hitem. lia. }
  destruct (siftdown_loop lt pos heap item 0 pos) as [heap' pos'] eqn:Hloop.
  pose proof (siftdown_loop_heap pos heap item pos) as H.
  rewrite Hloop in H. apply H; auto.
Qed.

Lemma siftdown_perm heap pos : siftdown lt heap 0 pos ≡ₚ heap.
Proof.
  unfold siftdown. destruct (heap !! pos) as [item|] eqn:Hitem; [|reflexivity].
  destruct (siftdown_loop lt pos heap item 0 pos) as [heap' pos'] eqn:Hloop.
  pose proof (siftdown_loop_perm pos heap item pos) as H.
  rewrite Hloop in H. rewrite H by (eapply lookup_lt_Some; eauto).
  now rewrite list_insert_id.
Qed.

Lemma heappush_perm heap item : heappush lt heap item ≡ₚ item :: heap.
Proof.
  unfold heappush. rewrite siftdown_perm. now rewrite Permutation_app_comm.
Qed.
Lemma prefer_right_true heap endpos c :
  prefer_right lt heap endpos c = true ->
  exists l r, heap !! c = Some l /\ heap !! (c + 1) = Some r /\ lt l r = false.
Proof.
  unfold prefer_right. intros H. apply andb_true_iff in H as [_ H].
  destruct (heap !! c) as [l|]; [|discriminate].
  destruct (heap !! (c + 1)) as [r|]; [|discriminate].
  exists l, r. now rewrite negb_true_iff in H.
Qed.

Lemma prefer_right_false heap c l r :
  prefer_right lt heap (length heap) c = false ->
  heap !! c = Some l -> heap !! (c + 1) = Some r -> lt l r = true.
Proof.
  unfold prefer_right. intros H Hl Hr. rewrite Hl, Hr in H.
  apply lookup_lt_Some in Hr.
  destruct (Nat.ltb_spec (c + 1) (length heap)); [|lia].
  simpl in H. now rewrite negb_false_iff in H.
Qed.

(** The first loop of [_siftup] keeps the hole invariant, stops at a
    leaf, and only moves items. *)
Lemma siftup_loop_spec fuel heap pos :
  length heap - pos <= fuel -> pos < length heap -> hole_ok lt heap pos ->
  let r := siftup_loop lt fuel heap (length heap) pos in
  hole_ok lt r.1 r.2 /\ r.2 < length r.1 /\ length r.1 = length heap
  /\ length heap <= 2 * r.2 + 1
  /\ forall item, <[r.2:=item]> r.1 ≡ₚ <[pos:=item]> heap.
Proof.
  revert heap pos.
  induction fuel as [|fuel IH]; intros heap pos Hfuel Hlen Hhole;
    cbn [siftup_loop]; cbv zeta; [lia|].
  destruct (Nat.ltb_spec (2 * pos + 1) (length heap)) as [Hc|Hc].
  2:{ cbn [fst snd]. split; [exact Hhole|]. repeat split; auto; lia. }
  set (c := if prefer_right lt heap (length heap) (2 * pos + 1)
            then 2 * pos + 1 + 1 else 2 * pos + 1).
  assert (c = 2 * pos + 1 \/ c = 2 * pos + 1 + 1) as Hcases
    by (subst c; destruct (prefer_right _ _ _ _); auto).
  assert (c < length heap) as Hclen.
  { subst c. destruct (prefer_right _ _ _ _) eqn:Hpr; [|assumption].
    apply prefer_right_true in Hpr as (l & r & _ & Hr & _).
    now apply lookup_lt_Some in Hr. }
  assert ((c - 1) / 2 = pos) as Hcpar
    by (destruct Hcases as [-> | ->]; [apply parent_left|apply parent_right]).
  destruct (heap !! c) as [child|] eqn:Hchild.
  2:{ apply lookup_ge_None in Hchild. lia. }
  specialize (IH (<[pos:=child]> heap) c).
  rewrite length_insert in IH.
  destruct IH as (IH1 & IH2 & IH3 & IH4 & IH5); [lia|lia| |].
  - destruct Hhole as [H1 H2]. split.
    + intros i x p Hi Hic Hipc Hx Hp.
      destruct (decide (i = pos)) as [->|Hipos].
      * rewrite list_lookup_insert_eq in Hx by assumption. injection Hx as <-.
        pose proof (parent_lt pos Hi).
        rewrite list_lookup_insert_ne in Hp by lia.
        eapply (H2 c); eauto; lia.
      * rewrite list_lookup_insert_ne in Hx by congruence.
        destruct (decide ((i - 1) / 2 = pos)) as [Hip|Hip].
        -- rewrite Hip, list_lookup_insert_eq in Hp by assumption.
           injection Hp as <-.
           (* [i] is the sibling of the chosen child *)
           destruct (parent_child i pos Hi Hip) as [Hil|Hir];
             destruct Hcases as [Hcl|Hcr]; try lia.
           ++ (* chosen right, sibling left *)
              subst c. destruct (prefer_right _ _ _ _) eqn:Hpr; [|lia].
              apply prefer_right_true in Hpr as (l & r & Hl & Hr & Hlr).
              rewrite <- Hil in Hl. congruence.
           ++ (* chosen left, sibling right *)
              subst c. destruct (prefer_right _ _ _ _) eqn:Hpr; [lia|].
              apply asym. eapply prefer_right_false; eauto.
              replace (2 * pos + 1 + 1) with i by lia. exact Hx.
        -- rewrite list_lookup_insert_ne in Hp by congruence. eauto.
    + intros d x g Hc0 Hd Hdc Hx Hg.
      pose proof (parent_lt d Hd).
      rewrite Hcpar, list_lookup_insert_eq in Hg by assumption.
      injection Hg as <-.
      rewrite list_lookup_insert_ne in Hx by lia.
      eapply (H1 d); eauto; try lia. now rewrite Hdc.
  - cbv zeta. split; [exact IH1|]. split; [exact IH2|]. split; [exact IH3|].
    split; [exact IH4|].
    intros item. rewrite IH5.
    rewrite <- (list_insert_insert_eq heap pos child item).
    apply Permutation_insert_swap.
    + now apply list_lookup_insert_eq.
    + rewrite list_lookup_insert_ne by lia. exact Hchild.
Qed.

(** [_siftup(heap, 0)] on an array that is a heap below its root. *)
Lemma siftup_root heap :
  hole_ok lt heap 0 -> heap_ok lt (siftup lt heap 0) /\ siftup lt heap 0 ≡ₚ heap.
Proof.
  intros Hhole. unfold siftup.
  destruct (heap !! 0) as [item|] eqn:Hitem.
  2:{ split; [|reflexivity]. apply lookup_ge_None in Hitem.
      destruct heap; [apply heap_ok_nil|simpl in Hitem; lia]. }
  assert (0 < length heap) as Hlen by (eapply lookup_lt_Some; eauto).
  pose proof (siftup_loop_spec (length heap) heap 0) as Hloop.
  destruct (siftup_loop lt (length heap) heap (length heap) 0) as [heap' pos'].
  cbn [fst snd] in Hloop.
  destruct Hloop as (H1 & H2 & H3 & H4 & H5); [lia|assumption|assumption|].
  split.
  - apply siftdown_heap.
    + now rewrite length_insert.
    + now apply hole_ok_insert.
    + intros item' _ c x Hc Hcp Hx.
      apply lookup_lt_Some in Hx. rewrite length_insert in Hx.
      destruct (parent_child c pos' Hc Hcp); lia.
  - rewrite siftdown_perm, H5. now rewrite list_insert_id.
Qed.

Lemma heappush_spec heap item :
  heap_ok lt heap ->
  heap_ok lt (heappush lt heap item) /\ heappush lt heap item ≡ₚ item :: heap.
Proof.
  intros Hheap. unfold heappush. split.
  - apply siftdown_heap.
    + rewrite length_app. simpl. lia.
    + rewrite length_app. simpl. replace (length heap + 1 - 1) with (length heap) by lia.
      split.
      * intros i x p Hi Hne Hpne Hx Hp.
        pose proof (parent_lt i Hi).
        assert (i < length heap).
        { apply lookup_lt_Some in Hx. rewrite length_app in Hx. simpl in Hx. lia. }
        rewrite lookup_app_l in Hx, Hp by lia. eauto.
      * intros c x g _ Hc Hcp Hx _.
        apply lookup_lt_Some in Hx. rewrite length_app in Hx. simpl in Hx.
        destruct (parent_child c _ Hc Hcp); lia.
    + intros item' _ c x Hc Hcp Hx.
      apply lookup_lt_Some in Hx. rewrite length_app in *. simpl in *.
      destruct (parent_child c _ Hc Hcp); lia.
  - rewrite siftdown_perm. now rewrite Permutation_app_comm.
Qed.

(** The root of a heap is a least item. *)
Lemma heap_root_min heap root :
  heap_ok lt heap -> heap !! 0 = Some root ->
  forall i x, heap !! i = Some x -> lt x root = false.
Proof.
  intros Hheap Hroot i.
  induction i as [i IH] using lt_wf_ind. intros x Hx.
  destruct (decide (i = 0)) as [->|Hi].
  - assert (x = root) as -> by congruence. apply lt_irrefl.
  - assert (0 < i) as Hpos by lia.
    pose proof (parent_lt i Hpos) as Hp.
    destruct (heap !! ((i - 1) / 2)) as [p|] eqn:Hpar.
    2:{ apply lookup_ge_None in Hpar. apply lookup_lt_Some in Hx. lia. }
    eapply cotrans; [eapply IH; eauto|]. eapply Hheap; eauto.
Qed.

Lemma heappop_nil : heappop lt [] = None.
Proof. reflexivity. Qed.

Lemma heappop_spec heap :
  heap_ok lt heap -> heap <> [] ->
  exists x rest,
    heappop lt heap = Some (x, rest) /\ heap !! 0 = Some x
    /\ heap_ok lt rest /\ x :: rest ≡ₚ heap
    /\ forall y, y ∈ heap -> lt y x = false.
Proof.
  intros Hheap Hne.
  destruct (heap !! 0) as [root|] eqn:Hroot.
  2:{ destruct heap; [congruence|discriminate]. }
  assert (forall y, y ∈ heap -> lt y root = false) as Hmin.
  { intros y Hy. apply list_elem_of_lookup in Hy as [i Hi].
    eapply heap_root_min; eauto. }
  destruct (exists_last Hne) as (front & lastelt & ->).
  unfold heappop. rewrite last_snoc, length_app. simpl.
  replace (length front + 1 - 1) with (length front) by lia.
  rewrite take_app_length.
  destruct front as [|returnitem rest].
  - simpl in Hroot. injection Hroot as <-.
    exists lastelt, []. repeat split; auto. apply heap_ok_nil.
  - simpl in Hroot. injection Hroot as <-.
    destruct (siftup_root (<[0:=lastelt]> (returnitem :: rest))) as [Hok Hperm].
    { split; [|intros; lia].
      intros i x p Hi _ Hpne Hx Hp.
      pose proof (parent_lt i Hi).
      assert (0 < (i - 1) / 2) by lia.
      rewrite list_lookup_insert_ne in Hx, Hp by lia.
      apply (Hheap i); auto.
      - rewrite lookup_app_l; [assumption|]. eapply lookup_lt_Some; eauto.
      - rewrite lookup_app_l; [assumption|]. eapply lookup_lt_Some; eauto. }
    eexists _, _. repeat split; eauto.
    rewrite Hperm. simpl.
    rewrite (Permutation_app_comm (returnitem :: rest) [lastelt]). simpl.
    apply perm_swap.
Qed.
End Facts.
End HeapqSpec.

(* ===================================================================== *)
(** * agent_protocol.py: delivery order, republished messages, the count *)
(* ===================================================================== *)

Module AgentProtocolSpec.
Import Heapq HeapqSpec AgentProtocol DictSpec.

Lemma Message_lt_asym : lt_asym Message_lt.
Proof.
  intros a b. unfold Message_lt.
  rewrite (Z.eqb_sym (priority_value (priority b))).
  destruct (Z.eqb_spec (priority_value (priority a)) (priority_value (priority b)));
    simpl.
  - rewrite Qltb_lt, Qltb_ge. apply Qlt_le_weak.
  - rewrite Z.ltb_lt, Z.ltb_ge. lia.
Qed.

Lemma Message_lt_cotrans : lt_cotrans Message_lt.
Proof.
  intros a b c. unfold Message_lt.
  destruct (Z.eqb_spec (priority_value (priority b)) (priority_value (priority a)));
  destruct (Z.eqb_spec (priority_value (priority c)) (priority_value (priority b)));
  destruct (Z.eqb_spec (priority_value (priority c)) (priority_value (priority a)));
    simpl; rewrite ?Qltb_ge, ?Z.ltb_ge; try lia.
  intros H1 H2. eapply Qle_trans; eauto.
Qed.




Section Bus.
Context {W : Type}.
Implicit Types (bus : MessageBus W) (st : DeliverState W).

Lemma targets_ext bus bus' m :
  subscribers bus = subscribers bus' -> targets bus m = targets bus' m.
Proof. unfold targets. now intros ->. Qed.

Lemma calls_of_ext bus bus' m :
  subscribers bus = subscribers bus' -> calls_of bus m = calls_of bus' m.
Proof. unfold calls_of. intros H. now rewrite (targets_ext _ _ _ H). Qed.

(** ** [publish] *)

Lemma foldl_publish_fields bus l :
  subscribers (foldl publish bus l) = subscribers bus
  /\ history (foldl publish bus l) = history bus.
Proof.
  revert bus. induction l as [|m l IH]; intros bus; simpl; [auto|].
  destruct (IH (publish bus m)) as [-> ->]. auto.
Qed.

Lemma foldl_publish_queue bus l :
  heap_ok Message_lt (queue bus) ->
  heap_ok Message_lt (queue (foldl publish bus l))
  /\ queue (foldl publish bus l) ≡ₚ queue bus ++ l.
Proof.
  revert bus. induction l as [|m l IH]; intros bus Hok; simpl.
  - now rewrite app_nil_r.
  - destruct (heappush_spec Message_lt Message_lt_asym Message_lt_cotrans
                (queue bus) m Hok) as [Hok' Hperm].
    destruct (IH (publish bus m) Hok') as [IH1 IH2]. split; [exact IH1|].
    rewrite IH2. cbn [publish queue]. rewrite Hperm. apply Permutation_middle.
Qed.

(** ** One popped message *)

(** What the calls for one message do to the counter and the trace. *)
Lemma foldl_call_handler m subs st :
  let st' := foldl (call_handler m) st subs in
  d_delivered st' = d_delivered st + length subs
  /\ d_calls st' = d_calls st ++ map (fun sub => (fst sub, m)) subs
  /\ subscribers (d_bus st') = subscribers (d_bus st)
  /\ history (d_bus st') = history (d_bus st)
  /\ d_popped st' = d_popped st.
Proof.
  revert st. induction subs as [|sub subs IH]; intros st; simpl.
  - rewrite app_nil_r. repeat split; lia.
  - destruct (IH (call_handler m st sub)) as (-> & -> & -> & -> & ->).
    unfold call_handler. destruct (sub.2 m (d_world st)) as [w published]; simpl.
    destruct (foldl_publish_fields (d_bus st) published) as [-> ->].
    rewrite <- app_assoc. repeat split; lia.
Qed.

(** What they do to the queue: the published messages join it. *)
Lemma foldl_call_handler_queue m subs st :
  heap_ok Message_lt (queue (d_bus st)) ->
  let st' := foldl (call_handler m) st subs in
  heap_ok Message_lt (queue (d_bus st'))
  /\ exists fresh, d_published st' = d_published st ++ fresh
                   /\ queue (d_bus st') ≡ₚ queue (d_bus st) ++ fresh.
Proof.
  revert st. induction subs as [|sub subs IH]; intros st Hok; simpl.
  - split; [assumption|]. exists []. now rewrite !app_nil_r.
  - assert (heap_ok Message_lt (queue (d_bus (call_handler m st sub)))
            /\ exists fresh, d_published (call_handler m st sub)
                             = d_published st ++ fresh
               /\ queue (d_bus (call_handler m st sub))
                  ≡ₚ queue (d_bus st) ++ fresh) as (Hok1 & fresh1 & Hp1 & Hq1).
    { unfold call_handler. destruct (sub.2 m (d_world st)) as [w published]; simpl.
      destruct (foldl_publish_queue (d_bus st) published Hok). eauto. }
    destruct (IH _ Hok1) as (Hok2 & fresh2 & Hp2 & Hq2).
    split; [exact Hok2|]. exists (fresh1 ++ fresh2).
    rewrite Hp2, Hp1, Hq2, Hq1. now rewrite !app_assoc.
Qed.


Lemma deliver_message_spec st m rest :
  let st' := deliver_message st m rest in
  d_delivered st' = d_delivered st + length (targets (d_bus st) m)
  /\ d_calls st' = d_calls st ++ calls_of (d_bus st) m
  /\ subscribers (d_bus st') = subscribers (d_bus st)
  /\ history (d_bus st') = record_history (history (d_bus st)) m
  /\ d_popped st' = d_popped st ++ [m].
Proof.
  unfold deliver_message. cbv zeta.
  match goal with
  | |- context [foldl (call_handler m) ?s ?l] =>
      destruct (foldl_call_handler m l s) as (-> & -> & -> & -> & ->)
  end.
  unfold calls_of. cbn [d_delivered d_calls d_bus d_popped subscribers history].
  rewrite (targets_ext _ (d_bus st) m) by reflexivity. auto.
Qed.

Lemma deliver_message_queue st m rest :
  heap_ok Message_lt rest ->
  let st' := deliver_message st m rest in
  heap_ok Message_lt (queue (d_bus st'))
  /\ exists fresh, d_published st' = d_published st ++ fresh
                   /\ queue (d_bus st') ≡ₚ rest ++ fresh.
Proof.
  intros Hok. unfold deliver_message. cbv zeta.
  match goal with
  | |- context [foldl (call_handler m) ?s ?l] =>
      destruct (foldl_call_handler_queue m l s Hok) as (H1 & fresh & H2 & H3)
  end.
  split; [exact H1|]. exists fresh. split; assumption.
Qed.



(** ** The loop *)

Lemma trace_inv_step bus0 st m rest :
  trace_inv bus0 st ->
  heappop Message_lt (queue (d_bus st)) = Some (m, rest) ->
  queue (d_bus st) <> [] ->
  trace_inv bus0 (deliver_message st m rest).
Proof.
  intros (Hsubs & Hcount & Hcalls & Hok & Hperm) Hpop Hne.
  destruct (heappop_spec Message_lt Message_lt_asym Message_lt_cotrans
              _ Hok Hne) as (x & rest' & Hpop' & _ & Hok' & Hperm' & _).
  rewrite Hpop in Hpop'. injection Hpop' as <- <-.
  destruct (deliver_message_spec st m rest) as (Hd & Hc & Hs & _ & Hp).
  destruct (deliver_message_queue st m rest Hok') as (Hok2 & fresh & Hpub & Hq).
  repeat split.
  - congruence.
  - rewrite Hd, Hc, length_app, Hcount. unfold calls_of. now rewrite length_map.
  - rewrite Hc, Hp, flat_map_app, Hcalls. simpl. rewrite app_nil_r.
    f_equal. now apply calls_of_ext.
  - exact Hok2.
  - rewrite Hp, Hq, Hpub. rewrite <- app_assoc. simpl.
    rewrite (app_assoc (queue bus0)), <- Hperm, <- Hperm'.
    now rewrite <- app_assoc.
Qed.

Lemma deliver_loop_inv bus0 fuel st st' :
  trace_inv bus0 st -> deliver_loop fuel st = Some st' ->
  trace_inv bus0 st' /\ queue (d_bus st') = [].
Proof.
  revert st. induction fuel as [|fuel IH]; intros st Hinv; simpl; [discriminate|].
  destruct (queue (d_bus st)) as [|q0 qs] eqn:Hq.
  - intros [= <-]. auto.
  - destruct (heappop Message_lt (q0 :: qs)) as [[m rest]|] eqn:Hpop; [|discriminate].
    apply IH. apply trace_inv_step; rewrite ?Hq; auto.
Qed.

Lemma trace_inv_init bus w :
  heap_ok Message_lt (queue bus) -> trace_inv bus (mkDeliver bus w 0 [] [] []).
Proof.
  intros Hok. unfold trace_inv. simpl. rewrite app_nil_r. auto 10.
Qed.


End Bus.

Lemma recipient_called {W} (bus : MessageBus W) m h :
  Dict.get (subscribers bus) (recipient m) = Some h ->
  In (recipient m, m) (calls_of bus m).
Proof.
  intros Hget. unfold calls_of, targets.
  destruct (String.eqb (recipient m) "*").
  - apply in_map_iff. exists (recipient m, h). split; [reflexivity|].
    now apply dict_get_In.
  - rewrite Hget. now left.
Qed.

Lemma collect_quiet : quiet collect.
Proof. intros m w. reflexivity. Qed.

Lemma publish_heap_ok {W} (bus : MessageBus W) m :
  heap_ok Message_lt (queue bus) -> heap_ok Message_lt (queue (publish bus m)).
Proof.
  intros Hok.
  apply (heappush_spec Message_lt Message_lt_asym Message_lt_cotrans _ m Hok).
Qed.




(** C3 as stated fails: the message a handler publishes while [deliver()]
    runs is handed to its recipient before that call returns. *)
Lemma republished_not_deferred :
  ~ (forall (bus : MessageBus (list Message)) w fuel st',
       deliver fuel bus w = Some st' ->
       forall m id, In m (d_published st') -> ~ In (id, m) (d_calls st')).
Proof.
  intros H.
  destruct (deliver 10 escalating_bus []) as [st'|] eqn:Hrun;
    [|vm_compute in Hrun; discriminate].
  specialize (H _ _ _ _ Hrun).
  vm_compute in Hrun. injection Hrun as <-.
  eapply (H _ "agent-1"); simpl; [left; reflexivity|]. right. right. left. reflexivity.
Qed.

(** C3, amended.  A message published by a handler while [deliver()] runs
    joins the queue the loop is draining: when the call returns no message
    is pending, every message published during the call has been popped in
    that call and handed to its recipient's handler if there is one, and a
    next [deliver()] finds nothing to deliver. *)
Theorem republished_delivered_same_call :
  forall W (bus : MessageBus W) (w : W) fuel st',
    heap_ok Message_lt (queue bus) ->
    deliver fuel bus w = Some st' ->
    pending_count (d_bus st') = 0
    /\ (forall m, In m (d_published st') ->
          In m (d_popped st')
          /\ forall h, Dict.get (subscribers bus) (recipient m) = Some h ->
                       In (recipient m, m) (d_calls st'))
    /\ (forall w', exists st'', deliver 1 (d_bus st') w' = Some st''
                                /\ d_delivered st'' = 0).
Proof.
  intros W bus w fuel st' Hok Hrun.
  destruct (deliver_loop_inv bus _ _ _ (trace_inv_init bus w Hok) Hrun)
    as ((_ & _ & Hcalls & _ & Hperm) & Hempty).
  rewrite Hempty, app_nil_r in Hperm.
  split; [unfold pending_count; now rewrite Hempty|]. split.
  - intros m Hm.
    assert (In m (d_popped st')) as Hpop.
    { apply list_elem_of_In. rewrite Hperm. apply list_elem_of_In, in_or_app. now right. }
    split; [exact Hpop|]. intros h Hget. rewrite Hcalls.
    apply in_flat_map. exists m. split; [exact Hpop|].
    eapply recipient_called; eauto.
  - intros w'. unfold deliver. simpl. rewrite Hempty. eauto.
Qed.

Lemma republished_delivered_same_call_witness :
  exists st',
    deliver 10 escalating_bus [] = Some st'
    /\ pending_count (d_bus st') = 0
    /\ In ("agent-1", escalation (sample_message "agent-1" LOW "m-low" 1))
          (d_calls st').
Proof.
  destruct (deliver 10 escalating_bus []) as [st'|] eqn:Hrun;
    [|vm_compute in Hrun; discriminate].
  exists st'. split; [reflexivity|].
  destruct (republished_delivered_same_call _ escalating_bus [] 10 st')
    as (Hpending & Hpub & _).
  - unfold escalating_bus. repeat apply publish_heap_ok. apply heap_ok_nil.
  - exact Hrun.
  - split; [exact Hpending|].
    destruct (Hpub (escalation (sample_message "agent-1" LOW "m-low" 1))) as [_ Hcall].
    + vm_compute in Hrun. injection Hrun as <-. simpl. now left.
    + apply (Hcall escalate). reflexivity.
Defined.


End AgentProtocolSpec.

(* ===================================================================== *)
(** * parallel_executor.py: dispatch, the agent invariant, save and load *)
(* ===================================================================== *)

Module ParallelExecutorSpec.
Import Heapq HeapqSpec ParallelExecutor.

(** ** Dependency-gated dispatch *)

(** C4 as stated fails: after [t1] is completed, the agent that becomes
    BUSY with [t2] is the first one; the second agent is not. *)
Lemma second_agent_not_busy :
  ~ busy_with (second_assignment sample_t1 sample_t2 3) 1 "t2".
Proof.
  intros (a & t & Ha & Hbusy & _). vm_compute in Ha. injection Ha as <-.
  discriminate.
Qed.

(** C4, amended.  With two agents, after [t2] (depending on [t1]) and then
    [t1] are submitted, the first [assign_tasks()] leaves exactly the first
    agent BUSY, holding [t1], the second IDLE, and [t2] BLOCKED; after [t1]
    is completed successfully the next [assign_tasks()] makes the first
    agent, idle again, BUSY with [t2], and the second agent stays IDLE. *)
Theorem dependency_gated_dispatch :
  forall n1 p1 m1 c1 n2 p2 m2 c2 now,
    let t1 := mkTask "t1" n1 p1 PENDING [] m1 c1 in
    let t2 := mkTask "t2" n2 p2 PENDING ["t1"] m2 c2 in
    (map a_status (agents (first_assignment t1 t2 now)) = [BUSY; IDLE]
     /\ map current_task (agents (first_assignment t1 t2 now))
        = [Some (set_status t1 IN_PROGRESS); None]
     /\ blocked_tasks (first_assignment t1 t2 now) = [set_status t2 BLOCKED])
    /\ (map a_status (agents (second_assignment t1 t2 now)) = [BUSY; IDLE]
        /\ map current_task (agents (second_assignment t1 t2 now))
           = [Some (set_status t2 IN_PROGRESS); None]
        /\ blocked_tasks (second_assignment t1 t2 now) = []
        /\ completed_ids (second_assignment t1 t2 now) = {["t1"]}).
Proof.
  intros. subst t1 t2. split; [repeat split|split; [|split; [|split]]]; try reflexivity.
Qed.
(** ** The agent invariant *)

Lemma assign_task_iff a t now : busy_iff_task (assign_task a t now).
Proof. split; simpl; eauto. Qed.

Lemma complete_task_iff a success output error now stamp :
  busy_iff_task (agent_complete_task a success output error now stamp).2.
Proof. split; simpl; [discriminate|intros [? [=]]]. Qed.

Lemma iff_has_task a : busy_iff_task a -> busy_has_task a.
Proof. intros [H _]. exact H. Qed.

Lemma start_stealing_has_task a : busy_has_task (start_stealing a).
Proof. intros H. discriminate. Qed.

Lemma stop_stealing_has_task a : busy_has_task a -> busy_has_task (stop_stealing a).
Proof.
  unfold stop_stealing. destruct (a_status a) eqn:E; auto.
  intros _ H. discriminate.
Qed.

Lemma stop_has_task a : busy_has_task (stop a).
Proof. intros H. discriminate. Qed.

Lemma agent_step_has_task a c : busy_has_task a -> busy_has_task (agent_step a c).
Proof.
  destruct c; cbn [agent_step]; intros H.
  - apply iff_has_task, assign_task_iff.
  - apply iff_has_task. apply complete_task_iff.
  - apply start_stealing_has_task.
  - now apply stop_stealing_has_task.
  - apply stop_has_task.
Qed.

Section Invariant.
(** A property of agents that assignment and completion establish. *)
Variable P : Agent -> Prop.
Hypothesis P_assign : forall a t now, P (assign_task a t now).
Hypothesis P_complete : forall a success output error now stamp,
    P (agent_complete_task a success output error now stamp).2.
Hypothesis P_steal_fail : forall a,
    P a -> a_status a = IDLE -> P (stop_stealing (start_stealing a)).

Lemma assign_loop_agents positions ex assigned now :
  Forall P (agents ex) ->
  Forall P (agents (assign_loop positions ex assigned now).2).
Proof.
  revert ex assigned.
  induction positions as [|i positions IH]; intros ex assigned Hall; simpl; [assumption|].
  destruct (agents ex !! i) as [agent|]; [|auto].
  destruct (a_status agent); auto.
  destruct (negb (is_empty (queue ex))); [|auto].
  destruct (dequeue (queue ex)) as [[[task|]|e] q]; simpl; auto.
  apply IH. simpl. apply Forall_insert; auto.
Qed.

Lemma unblock_tasks_agents ex : agents (unblock_tasks ex) = agents ex.
Proof.
  unfold unblock_tasks.
  destruct (foldl _ _ _) as [q still_blocked]. reflexivity.
Qed.

Lemma complete_task_agents ex id success output error now stamp :
  Forall P (agents ex) ->
  Forall P (agents (complete_task ex id success output error now stamp).2).
Proof.
  intros Hall. unfold complete_task.
  destruct (find_agent ex id) as [i|]; [|assumption].
  destruct (agents ex !! i) as [agent|] eqn:Hagent; [|assumption].
  destruct (current_task agent) as [task|]; [|assumption].
  pose proof (P_complete agent success output error now stamp) as Hdone.
  destruct (agent_complete_task agent success output error now stamp)
    as [res agent'].
  destruct success; simpl; rewrite ?unblock_tasks_agents; simpl;
    apply Forall_insert; auto.
Qed.

Lemma steal_work_for_agents ex id now :
  Forall P (agents ex) -> Forall P (agents (steal_work_for ex id now).2).
Proof.
  intros Hall. unfold steal_work_for.
  destruct (find_agent ex id) as [i|]; [|assumption].
  destruct (agents ex !! i) as [agent|] eqn:Hagent; [|assumption].
  destruct (a_status agent) eqn:Hst; try assumption.
  destruct (steal (queue ex) 1) as [stolen q].
  assert (P agent) as Hagent_ok.
  { rewrite Forall_forall in Hall. apply Hall. eapply list_elem_of_lookup_2; eauto. }
  destruct stolen as [|task stolen]; simpl; apply Forall_insert; auto.
Qed.

Lemma executor_step_agents ex c :
  is_shutdown c = false ->
  Forall P (agents ex) -> Forall P (agents (executor_step ex c)).
Proof.
  destruct c; simpl; intros Hc Hall; try discriminate.
  - unfold submit. destruct (is_ready task (completed_ids ex)); assumption.
  - now apply assign_loop_agents.
  - now apply complete_task_agents.
  - now apply steal_work_for_agents.
Qed.
End Invariant.

Lemma new_executor_iff n : Forall busy_iff_task (agents (new_executor n)).
Proof.
  simpl. apply Forall_forall. intros a Ha.
  apply list_elem_of_In, in_map_iff in Ha as (i & <- & _).
  split; simpl; [discriminate|intros [? [=]]].
Qed.

Lemma executor_step_has_task ex c :
  Forall busy_has_task (agents ex) ->
  Forall busy_has_task (agents (executor_step ex c)).
Proof.
  intros Hall. destruct (is_shutdown c) eqn:Hc.
  - destruct c; try discriminate. simpl.
    apply Forall_forall. intros a Ha.
    apply list_elem_of_In, in_map_iff in Ha as (a0 & <- & _). apply stop_has_task.
  - apply executor_step_agents; auto.
    + intros. apply iff_has_task, assign_task_iff.
    + intros. apply iff_has_task. apply complete_task_iff.
    + intros a Ha _. apply stop_stealing_has_task, start_stealing_has_task.
Qed.

Lemma executor_step_iff ex c :
  is_shutdown c = false ->
  Forall busy_iff_task (agents ex) ->
  Forall busy_iff_task (agents (executor_step ex c)).
Proof.
  apply executor_step_agents.
  - apply assign_task_iff.
  - apply complete_task_iff.
  - intros a [H1 H2] Hidle. unfold stop_stealing, start_stealing. simpl.
    split; simpl; [discriminate|]. intros Hsome. apply H2 in Hsome. congruence.
Qed.

(** C8 as stated fails: [shutdown()] while a task is in progress leaves
    the agent STOPPED with its [current_task] still present. *)
Lemma busy_iff_task_broken_by_shutdown :
  ~ (forall n calls a,
       In a (agents (foldl executor_step (new_executor n) calls)) ->
       busy_iff_task a).
Proof.
  intros H.
  destruct (H 1 [Submit sample_t1; AssignTasks 3; Shutdown]
              (stop (assign_task (new_agent "agent-0")
                                 (set_status sample_t1 QUEUED) 3)))
    as [_ Hbusy].
  - vm_compute. now left.
  - simpl in Hbusy. discriminate Hbusy. eauto.
Qed.

(** C8, amended.  In every state reached through the methods of an Agent,
    and in every state of the executor, an agent whose status is BUSY has
    a [current_task]; in the executor states reached without [shutdown()]
    the converse holds as well. *)
Theorem busy_agents_have_a_task :
  (forall id calls, busy_has_task (foldl agent_step (new_agent id) calls))
  /\ (forall n calls a,
         In a (agents (foldl executor_step (new_executor n) calls)) ->
         busy_has_task a)
  /\ (forall n calls a,
         forallb (fun c => negb (is_shutdown c)) calls = true ->
         In a (agents (foldl executor_step (new_executor n) calls)) ->
         busy_iff_task a).
Proof.
  split; [|split].
  - intros id calls.
    assert (busy_has_task (new_agent id)) as H by (intros [=]).
    revert H. generalize (new_agent id).
    induction calls as [|c calls IH]; intros a Ha; simpl; [assumption|].
    apply IH. now apply agent_step_has_task.
  - intros n calls a Ha.
    assert (Forall busy_has_task (agents (new_executor n))) as H.
    { eapply Forall_impl; [apply new_executor_iff|]. apply iff_has_task. }
    revert H Ha. generalize (new_executor n).
    induction calls as [|c calls IH]; intros ex Hall Ha; simpl in *.
    + rewrite Forall_forall in Hall. apply Hall. now apply list_elem_of_In.
    + eapply IH; [|exact Ha]. now apply executor_step_has_task.
  - intros n calls a Hcalls Ha.
    pose proof (new_executor_iff n) as H.
    revert H Hcalls Ha. generalize (new_executor n).
    induction calls as [|c calls IH]; intros ex Hall Hcalls Ha; simpl in *.
    + rewrite Forall_forall in Hall. apply Hall. now apply list_elem_of_In.
    + apply andb_true_iff in Hcalls as [Hc Hcalls].
      eapply IH; [|exact Hcalls|exact Ha].
      apply executor_step_iff; [|assumption]. now apply negb_true_iff.
Qed.

Lemma busy_agents_have_a_task_witness :
  busy_iff_task (assign_task (new_agent "agent-0") (set_status sample_t1 QUEUED) 3)
  /\ busy_has_task (stop (assign_task (new_agent "agent-0")
                                      (set_status sample_t1 QUEUED) 3)).
Proof.
  destruct busy_agents_have_a_task as (_ & Hhas & Hiff). split.
  - apply (Hiff 1 [Submit sample_t1; AssignTasks 3]); [reflexivity|].
    vm_compute. now left.
  - apply (Hhas 1 [Submit sample_t1; AssignTasks 3; Shutdown]).
    vm_compute. now left.
Defined.
(** ** Save and load *)







End ParallelExecutorSpec.

(* ===================================================================== *)
(** * self_optimizer.py: the range of a tuning parameter *)
(* ===================================================================== *)

Module SelfOptimizerSpec.
Import SelfOptimizer DictSpec.

Lemma clamp_in_range r v :
  (min_value r <= max_value r)%Q ->
  (min_value r <= clamp r v)%Q /\ (clamp r v <= max_value r)%Q.
Proof.
  intros Hr. unfold clamp, py_max, py_min.
  destruct (Qltb v (max_value r)) eqn:Hv;
    [apply Qltb_lt in Hv|apply Qltb_ge in Hv].
  - destruct (Qltb (min_value r) v) eqn:Hm;
      [apply Qltb_lt in Hm|apply Qltb_ge in Hm].
    + split; apply Qlt_le_weak; assumption.
    + split; [apply Qle_refl|assumption].
  - destruct (Qltb (min_value r) (max_value r)) eqn:Hm.
    + split; [assumption|apply Qle_refl].
    + split; [apply Qle_refl|assumption].
Qed.

Lemma in_range_nonempty p : in_range p -> (min_value (range p) <= max_value (range p))%Q.
Proof. intros [H1 H2]. eapply Qle_trans; eauto. Qed.

Lemma adjust_in_range p v now :
  (min_value (range p) <= max_value (range p))%Q -> in_range (adjust p v now).
Proof. intros Hr. unfold in_range, adjust. simpl. now apply clamp_in_range. Qed.

Lemma adjust_at_ok ps name v w :
  params_ok ps -> params_ok (adjust_at ps name v w).1.
Proof.
  intros Hps. unfold adjust_at.
  destruct (Dict.get ps name) as [p|] eqn:Hget; [|assumption].
  simpl. apply dict_set_Forall; [assumption|].
  apply adjust_in_range, in_range_nonempty.
  eapply (dict_get_Forall in_range); eauto.
Qed.

Lemma hill_step_ok rate acc rec : params_ok acc.1 -> params_ok (hill_step rate acc rec).1.
Proof.
  destruct acc as [ps w]. simpl. intros Hps.
  destruct (Dict.get ps rec.1); [|assumption]. now apply adjust_at_ok.
Qed.

Lemma random_step_ok acc name : params_ok acc.1 -> params_ok (random_step acc name).1.
Proof.
  destruct acc as [ps w]. simpl. intros Hps.
  destruct (Dict.get ps name); [|assumption].
  destruct (Qltb _ _); [|assumption]. now apply adjust_at_ok.
Qed.

Lemma annealing_step_ok rate temperature acc rec :
  params_ok acc.1 -> params_ok (annealing_step rate temperature acc rec).1.
Proof.
  destruct acc as [ps w]. simpl. intros Hps.
  destruct (Dict.get ps rec.1); [|assumption].
  destruct (_ || _); [|assumption]. now apply adjust_at_ok.
Qed.

Lemma foldl_ok {B} (f : list (string * TuningParameter) * Oracle -> B ->
                        list (string * TuningParameter) * Oracle) l acc :
  (forall acc b, params_ok acc.1 -> params_ok (f acc b).1) ->
  params_ok acc.1 -> params_ok (foldl f acc l).1.
Proof.
  intros Hf. revert acc. induction l as [|b l IH]; intros acc Hacc; simpl; auto.
Qed.

Lemma optimize_step_ok opt w :
  all_in_range opt -> all_in_range (optimize_step opt w).1.
Proof.
  unfold all_in_range, optimize_step. intros Hopt.
  destruct (strategy opt).
  - pose proof (foldl_ok (hill_step (learning_rate opt)) (get_recommendations opt)
                  (parameters opt, w) (hill_step_ok _) Hopt) as H.
    destruct (foldl _ _ _). exact H.
  - pose proof (foldl_ok (annealing_step (learning_rate opt)
                            (py_max (1 # 10) (1 - Qnat (length (outcomes opt)) / 100)%Q))
                  (get_recommendations opt) (parameters opt, w)
                  (annealing_step_ok _ _) Hopt) as H.
    destruct (foldl _ _ _). exact H.
  - pose proof (foldl_ok random_step (Dict.keys (parameters opt))
                  (parameters opt, w) random_step_ok Hopt) as H.
    destruct (foldl _ _ _). exact H.
  - exact Hopt.
Qed.

Lemma load_ok data opt :
  Forall (fun kv => data_in_range kv.2) (s_parameters data) ->
  load data = Some opt -> all_in_range opt.
Proof.
  intros Hdata. unfold load.
  destruct (strategy_of_value (s_strategy data)); [|discriminate].
  destruct (mapM outcome_of_data (s_outcomes data)); [|discriminate].
  intros [= <-]. unfold all_in_range. simpl.
  assert (params_ok []) as Hnil by constructor.
  revert Hnil. generalize (@nil (string * TuningParameter)).
  induction Hdata as [|[k d] ds Hd Hds IH]; intros ps Hps; simpl; [assumption|].
  apply IH. apply dict_set_Forall; [assumption|]. exact Hd.
Qed.

Lemma run_call_ok st c :
  starts_in_range c -> all_in_range st.1 -> all_in_range (run_call st c).1.
Proof.
  destruct st as [opt w]. destruct c; simpl; intros Hc Hopt; try exact Hopt.
  - unfold all_in_range. simpl. apply dict_set_Forall; [assumption|]. exact Hc.
  - unfold adjust_parameter, get_parameter.
    destruct (Dict.get (parameters opt) name) as [p|] eqn:Hget; [|assumption].
    unfold all_in_range. simpl. apply dict_set_Forall; [assumption|].
    apply adjust_in_range, in_range_nonempty.
    eapply (dict_get_Forall in_range); eauto.
  - now apply optimize_step_ok.
  - destruct (load data) as [opt'|] eqn:Hload; simpl; [|assumption].
    eapply load_ok; eauto.
Qed.

(** C5 as stated fails: [register_parameter] stores the initial value as
    it is given, also when it lies outside the range. *)
Lemma register_parameter_does_not_clamp :
  ~ (forall calls w,
       all_in_range (foldl run_call (new_optimizer (1 # 10) HILL_CLIMBING, w) calls).1).
Proof.
  intros H.
  specialize (H [RegisterParameter "timeout" 100 0 10 1] sample_oracle).
  unfold all_in_range in H. simpl in H.
  inversion H as [|? ? [_ Hmax] _]; subst. simpl in Hmax.
  revert Hmax. unfold Qle. simpl. lia.
Qed.

(** C5, amended.  [adjust] clamps: after it a parameter whose range has
    [min ≤ max] satisfies [min ≤ current_value ≤ max].  So the invariant
    holds in every state reached through [register_parameter] with an
    initial value inside the range, [adjust], [optimize_step] and [load]
    of a document whose values lie in their ranges. *)
Theorem parameters_stay_in_range :
  (forall p v now,
      (min_value (range p) <= max_value (range p))%Q -> in_range (adjust p v now))
  /\ (forall calls w rate s,
         Forall starts_in_range calls ->
         all_in_range (foldl run_call (new_optimizer rate s, w) calls).1).
Proof.
  split; [apply adjust_in_range|].
  intros calls w rate s Hcalls.
  assert (all_in_range (new_optimizer rate s, w).1) as Hinit by constructor.
  revert Hinit. generalize (new_optimizer rate s, w).
  induction Hcalls as [|c calls Hc Hcalls IH]; intros st Hst; simpl; [assumption|].
  apply IH. now apply run_call_ok.
Qed.

Lemma parameters_stay_in_range_witness :
  all_in_range (foldl run_call (new_optimizer (1 # 10) HILL_CLIMBING, sample_oracle)
                      sample_calls).1
  /\ in_range (adjust (new_parameter "timeout" 30 (mkRange 10 120 10) 0) 1000 1).
Proof.
  destruct parameters_stay_in_range as [Hadjust Hrun]. split.
  - apply Hrun. unfold sample_calls.
    repeat constructor; simpl; unfold Qle; simpl; lia.
  - apply Hadjust. simpl. unfold Qle; simpl; lia.
Defined.
End SelfOptimizerSpec.

(* ===================================================================== *)
(** * loop_control.py: what counts as the same error *)
(* ===================================================================== *)

Module LoopControlSpec.
Import LoopControl.

(** [str] tells integers apart. *)
Lemma str_int_inj a b : str_int a = str_int b -> a = b.
Proof.
  unfold str_int. intros H. apply DecimalZ.to_int_inj.
  assert (forall z, NilZero.int_of_string (NilZero.string_of_int (Z.to_int z))
                    = Some (Z.to_int z)) as Hisi.
  { intros z. apply NilZero.isi; destruct z; simpl; try discriminate;
      intros [= Hp]; now apply Unsigned.to_uint_nonnil in Hp. }
  pose proof (Hisi a) as Ha. rewrite H, Hisi in Ha. now injection Ha.
Qed.

Section Hash.
Variable py_hash : string -> Z.

(** After an error is recorded the latch holds its hash. *)
Lemma record_error_latch s e :
  last_error_hash (record_error py_hash s e) = Some (str_int (py_hash e)).
Proof.
  unfold record_error. simpl.
  destruct (last_error_hash s) as [h|]; [|reflexivity].
  destruct (String.eqb_spec (str_int (py_hash e)) h) as [->|_]; reflexivity.
Qed.

Lemma record_error_counter s e :
  consecutive_same_error (record_error py_hash s e)
  = match last_error_hash s with
    | Some h => if String.eqb (str_int (py_hash e)) h
                then S (consecutive_same_error s) else 1
    | None => 1
    end.
Proof. unfold record_error. simpl. now destruct (last_error_hash s). Qed.
End Hash.

(** C6 as stated fails: two errors that differ only in a line number have
    different hashes, and the second resets the counter to 1. *)
Lemma line_numbers_are_not_normalized :
  ~ (forall py_hash s e1 e2,
       differ_in_line_number e1 e2 ->
       consecutive_same_error (record_error py_hash (record_error py_hash s e1) e2)
       = S (consecutive_same_error (record_error py_hash s e1))).
Proof.
  intros H.
  specialize (H digits_hash new_state "Error at line 5" "Error at line 7").
  assert (differ_in_line_number "Error at line 5" "Error at line 7") as Hd.
  { exists "Error at ", "", 5, 7. split; reflexivity. }
  apply H in Hd. vm_compute in Hd. discriminate.
Qed.

(** C6, amended.  [record_error] decides "same error" by equality of the
    hash of the raw error string, without normalization: after an error
    [e1], recording [e2] increments [consecutive_same_error] when
    [hash(e2) = hash(e1)], as it is when the two strings are equal, and
    sets it to 1 otherwise. *)
Theorem same_error_is_same_hash :
  forall py_hash s e1 e2,
    consecutive_same_error (record_error py_hash (record_error py_hash s e1) e2)
    = (if (py_hash e2 =? py_hash e1)%Z
       then S (consecutive_same_error (record_error py_hash s e1))
       else 1)
    /\ consecutive_same_error (record_error py_hash (record_error py_hash s e1) e1)
       = S (consecutive_same_error (record_error py_hash s e1)).
Proof.
  intros py_hash s e1 e2.
  assert (forall e,
    consecutive_same_error (record_error py_hash (record_error py_hash s e1) e)
    = (if (py_hash e =? py_hash e1)%Z
       then S (consecutive_same_error (record_error py_hash s e1))
       else 1)) as Hgen.
  { intros e. rewrite (record_error_counter py_hash (record_error py_hash s e1) e).
    rewrite record_error_latch.
    destruct (String.eqb_spec (str_int (py_hash e)) (str_int (py_hash e1))) as [Heq|Hne];
      destruct (Z.eqb_spec (py_hash e) (py_hash e1)) as [Hz|Hz]; try reflexivity.
    - apply str_int_inj in Heq. contradiction.
    - rewrite Hz in Hne. contradiction. }
  split; [apply Hgen|]. rewrite Hgen. now rewrite Z.eqb_refl.
Qed.
End LoopControlSpec.

(* ===================================================================== *)
(** * dependency_graph.py: the depth-first search for cycles *)
(* ===================================================================== *)

Module DependencyGraphSearch.
Import DependencyGraph DictSpec.

Section Search.
Variable g : Graph.

Lemma dependency_in_universe x y :
  In y (get_dependencies g x) -> y ∈ universe g.
Proof.
  unfold get_dependencies, universe, all_nodes. intros Hy.
  destruct (Dict.get (edges g) x) as [l|] eqn:Hget; [|contradiction].
  apply elem_of_list_to_set, list_elem_of_In, in_or_app. right.
  apply in_concat. exists l. split; [|exact Hy]. eapply dict_get_values; eauto.
Qed.

Lemma feature_in_universe x :
  In x (Dict.keys (features g)) -> x ∈ universe g.
Proof.
  intros Hx. apply elem_of_list_to_set, list_elem_of_In, in_or_app. now left.
Qed.

Lemma grows_refl st : visited st ⊆ universe g -> grows g st st.
Proof. intros H. repeat split; auto. Qed.

Lemma grows_trans st1 st2 st3 : grows g st1 st2 -> grows g st2 st3 -> grows g st1 st3.
Proof.
  intros (H1 & H2 & H3) (H4 & H5 & H6). repeat split; auto. set_solver.
Qed.

Lemma visit_neighbors_spec fuel node :
  dfs_spec g fuel ->
  forall neighbors st,
    (forall y, In y neighbors -> y ∈ universe g) ->
    visited st ⊆ universe g ->
    (forall y, y ∈ universe g -> y ∉ visited st ->
               size (universe g ∖ visited st) <= fuel) ->
    exists r st',
      visit_neighbors (dfs fuel g) node neighbors st = Some (r, st')
      /\ grows g st st'
      /\ (search_ok g st -> node ∈ rec_stack st ->
          (forall y, In y (get_dependencies g node) -> In y neighbors \/ safe g y) ->
          found r st'
          \/ (r = false /\ search_ok g st'
              /\ rec_stack st' = rec_stack st ∖ {[node]} /\ safe g node)).
Proof.
  intros IH neighbors.
  induction neighbors as [|y ns IHns]; intros st Hns Hvis Hfuel; simpl.
  - exists false, (leave node st). split; [reflexivity|].
    split; [repeat split; simpl; auto|].
    intros (Hc & Hsub & Hsafe) Hnode Hdeps. right.
    assert (safe g node) as Hsn.
    { constructor. intros y Hy. destruct (Hdeps y Hy) as [[]|]; assumption. }
    split; [reflexivity|]. split; [|auto].
    split; [exact Hc|]. split; [simpl; set_solver|].
    simpl. intros x Hx. destruct (decide (x = node)) as [->|Hne]; [now right|].
    destruct (Hsafe x Hx); [left; set_solver|now right].
  - assert (y ∈ universe g) as Hy by (apply Hns; now left).
    assert (forall z, In z ns -> z ∈ universe g) as Hns' by (intros; apply Hns; now right).
    destruct (decide (y ∈ visited st)) as [Hyv|Hyv].
    + rewrite (bool_decide_eq_true_2 _ Hyv). simpl.
      destruct (decide (y ∈ rec_stack st)) as [Hyr|Hyr].
      * rewrite (bool_decide_eq_true_2 _ Hyr).
        exists true, (found_cycle y st). split; [reflexivity|].
        split; [repeat split; simpl; auto; intros _; now destruct (cycles st)|].
        intros _ _ _. left. split; [reflexivity|]. simpl. now destruct (cycles st).
      * rewrite (bool_decide_eq_false_2 _ Hyr).
        destruct (IHns st Hns' Hvis Hfuel) as (r & st' & Hrun & Hgrow & Hpost).
        exists r, st'. split; [exact Hrun|]. split; [exact Hgrow|].
        intros Hok Hnode Hdeps. apply Hpost; auto.
        intros z Hz. destruct (Hdeps z Hz) as [[<-|]|]; auto.
        right. destruct Hok as (_ & _ & Hsafe). destruct (Hsafe y Hyv); [contradiction|assumption].
    + rewrite (bool_decide_eq_false_2 _ Hyv). simpl.
      destruct (IH y st Hvis Hy Hyv (Hfuel y Hy Hyv)) as (r1 & st1 & -> & Hgrow1 & Hpost1).
      destruct r1.
      * exists true, st1. split; [reflexivity|]. split; [exact Hgrow1|].
        intros Hok _ _. destruct (Hpost1 Hok) as [Hf|(Hr & _)]; [now left|discriminate].
      * destruct Hgrow1 as (Hv1 & Hv2 & Hc1).
        destruct (IHns st1 Hns' Hv2) as (r & st' & Hrun & Hgrow & Hpost).
        { intros z Hz Hzv. etransitivity; [|apply (Hfuel z Hz); set_solver].
          apply subseteq_size. set_solver. }
        exists r, st'. split; [exact Hrun|].
        split; [eapply grows_trans; [|exact Hgrow]; repeat split; auto|].
        intros Hok Hnode Hdeps.
        destruct (Hpost1 Hok) as [[? _]|(_ & Hok1 & _ & Hrs & Hsy)]; [discriminate|].
        rewrite <- Hrs. apply Hpost; [assumption|now rewrite Hrs|].
        intros z Hz. destruct (Hdeps z Hz) as [[<-|]|]; auto.
Qed.

Lemma dfs_total fuel : dfs_spec g fuel.
Proof.
  induction fuel as [|fuel IH]; intros node st Hvis Hnode Hnv Hsize.
  - exfalso. assert (size (universe g ∖ visited st) <> 0); [|lia].
    apply size_non_empty_iff. set_solver.
  - cbn [dfs].
    destruct (visit_neighbors_spec fuel node IH (get_dependencies g node) (enter node st))
      as (r & st' & Hrun & (Hv1 & Hv2 & Hc) & Hpost).
    + intros y Hy. eapply dependency_in_universe; eauto.
    + simpl. set_solver.
    + simpl. intros y Hy Hyv.
      assert (size (universe g ∖ ({[node]} ∪ visited st))
              < size (universe g ∖ visited st)); [|lia].
      apply subset_size. split; [set_solver|].
      intros Hsub. specialize (Hsub node). set_solver.
    + exists r, st'. split; [exact Hrun|]. simpl in *.
      split; [repeat split; auto; set_solver|].
      intros (Hc0 & Hsub & Hsafe).
      assert (search_ok g (enter node st)) as Hok1.
      { split; [exact Hc0|]. split; [simpl; set_solver|].
        simpl. intros x Hx. destruct (decide (x = node)) as [->|Hne]; [left; set_solver|].
        destruct (Hsafe x); [set_solver|left; set_solver|now right]. }
      destruct (Hpost Hok1) as [Hf|(-> & Hok' & Hrs & Hsn)].
      * simpl. set_solver.
      * intros y Hy. now left.
      * now left.
      * right. split; [reflexivity|]. split; [exact Hok'|].
        split; [set_solver|]. split; [|exact Hsn].
        rewrite Hrs. simpl. set_solver.
Qed.
Lemma search_from_spec nodes :
  forall st,
    (forall x, In x nodes -> x ∈ universe g) -> visited st ⊆ universe g ->
    exists st',
      search_from (S (size (universe g))) g nodes st = Some st'
      /\ grows g st st'
      /\ (search_ok g st -> rec_stack st = ∅ -> cycles st' = [] ->
          search_ok g st' /\ rec_stack st' = ∅
          /\ forall x, In x nodes -> x ∈ visited st').
Proof.
  induction nodes as [|node nodes IH]; intros st Hnodes Hvis; cbn [search_from].
  - exists st. split; [reflexivity|]. split; [now apply grows_refl|].
    intros Hok Hrs _. repeat split; try apply Hok; auto. intros x [].
  - assert (forall x, In x nodes -> x ∈ universe g) as Hnodes'
      by (intros; apply Hnodes; now right).
    destruct (decide (node ∈ visited st)) as [Hv|Hv].
    + rewrite (bool_decide_eq_true_2 _ Hv). cbn [negb].
      destruct (IH st Hnodes' Hvis) as (st' & Hrun & Hgrow & Hpost).
      exists st'. split; [exact Hrun|]. split; [exact Hgrow|].
      intros Hok Hrs Hc. destruct (Hpost Hok Hrs Hc) as (Hok' & Hrs' & Hall).
      repeat split; try apply Hok'; auto.
      intros x [<-|Hx]; [|auto]. destruct Hgrow as (Hsub & _). set_solver.
    + rewrite (bool_decide_eq_false_2 _ Hv). cbn [negb].
      assert (node ∈ universe g) as Hn by (apply Hnodes; now left).
      assert (size (universe g ∖ visited st) <= S (size (universe g))) as Hsz.
      { etransitivity; [apply subseteq_size|apply Nat.le_succ_diag_r]. set_solver. }
      destruct (dfs_total (S (size (universe g))) node st Hvis Hn Hv Hsz)
        as (r & st1 & -> & Hgrow1 & Hpost1).
      destruct (IH st1 Hnodes') as (st' & Hrun & Hgrow & Hpost); [apply Hgrow1|].
      exists st'. split; [exact Hrun|].
      split; [eapply grows_trans; eauto|].
      intros Hok Hrs Hc.
      destruct (Hpost1 Hok) as [[_ Hf]|(_ & Hok1 & Hnv & Hrs1 & _)].
      * exfalso. destruct Hgrow as (_ & _ & Hmono). now apply Hmono.
      * destruct (Hpost Hok1) as (Hok' & Hrs' & Hall); [congruence|assumption|].
        repeat split; try apply Hok'; auto.
        intros x [<-|Hx]; [|auto]. destruct Hgrow as (Hsub & _). set_solver.
Qed.

(** [has_cycle()] returns. *)
Lemma has_cycle_total : exists b, has_cycle g = Some b.
Proof.
  unfold has_cycle, find_cycles.
  destruct (search_from_spec (Dict.keys (features g)) (mkSearch [] ∅ ∅ []))
    as (st' & -> & _); [apply feature_in_universe|simpl; set_solver|eauto].
Qed.

(** When it returns false, no feature starts an endless walk. *)
Lemma has_cycle_false_safe :
  has_cycle g = Some false ->
  forall x, In x (Dict.keys (features g)) -> safe g x.
Proof.
  unfold has_cycle, find_cycles.
  destruct (search_from_spec (Dict.keys (features g)) (mkSearch [] ∅ ∅ []))
    as (st' & -> & _ & Hpost); [apply feature_in_universe|simpl; set_solver|].
  intros [= Hlen] x Hx.
  destruct Hpost as ((_ & _ & Hsafe) & Hrs & Hall).
  - repeat split; simpl; set_solver.
  - reflexivity.
  - destruct (cycles st'); [reflexivity|discriminate].
  - destruct (Hsafe x (Hall x Hx)) as [Hin|]; [|assumption].
    rewrite Hrs in Hin. set_solver.
Qed.

Lemma depends_on_snoc x y z :
  depends_on g x y -> In z (get_dependencies g y) -> depends_on g x z.
Proof.
  induction 1 as [x y Hxy|x y w Hxy Hyw IH]; intros Hz.
  - eapply depends_step; [exact Hxy|]. now apply depends_direct.
  - eapply depends_step; [exact Hxy|]. now apply IH.
Qed.

Lemma safe_acyclic x : safe g x -> ~ depends_on g x x.
Proof.
  induction 1 as [x _ IH]. intros Hcycle.
  inversion Hcycle as [? ? Hxx|? y ? Hxy Hyx]; subst.
  - apply (IH x Hxx). exact Hcycle.
  - apply (IH y Hxy). eapply depends_on_snoc; eauto.
Qed.

Lemma depends_on_source x y :
  wf g -> depends_on g x y -> In x (Dict.keys (features g)).
Proof. intros Hwf. destruct 1; eapply wf_sources; eauto. Qed.

(** On a graph with a cycle it returns true. *)
Lemma cyclic_has_cycle : wf g -> cyclic g -> has_cycle g = Some true.
Proof.
  intros Hwf [x Hx]. destruct has_cycle_total as [[|] Hb]; [assumption|exfalso].
  eapply safe_acyclic; [|exact Hx].
  apply has_cycle_false_safe; [assumption|]. eapply depends_on_source; eauto.
Qed.
End Search.
End DependencyGraphSearch.

(* ===================================================================== *)
(** * dependency_graph.py: the graphs add_feature builds *)
(* ===================================================================== *)

Module DependencyGraphBuild.
Import DependencyGraph DependencyGraphSearch DictSpec.

Lemma mem_In x l : mem x l = true <-> In x l.
Proof.
  unfold mem. rewrite existsb_exists. split.
  - intros (y & Hy & Heq). apply String.eqb_eq in Heq. now subst.
  - intros Hx. exists x. split; [assumption|apply String.eqb_refl].
Qed.

Lemma set_add_In x l y : In y (set_add x l) <-> y = x \/ In y l.
Proof.
  unfold set_add. destruct (mem x l) eqn:Hm.
  - apply mem_In in Hm. split; [auto|]. intros [->|]; assumption.
  - rewrite in_app_iff. simpl. intuition.
Qed.

Lemma set_add_nodup x l : NoDup l -> NoDup (set_add x l).
Proof.
  intros Hnd. unfold set_add. destruct (mem x l) eqn:Hm; [assumption|].
  apply NoDup_app. split; [assumption|]. split; [|apply NoDup_singleton].
  intros y Hy Hin. apply list_elem_of_singleton in Hin as ->.
  apply list_elem_of_In, mem_In in Hy. congruence.
Qed.

Lemma dict_add_lookup d k x k' :
  lookup_set (dict_add d k x) k'
  = if String.eqb k k' then set_add x (lookup_set d k) else lookup_set d k'.
Proof.
  unfold lookup_set, dict_add. rewrite dict_get_set.
  destruct (String.eqb k k'); reflexivity.
Qed.

(** What the loop of [add_feature] does to the two edge maps. *)
Lemma add_edges_spec fid deps :
  forall e r,
    let er := foldl (add_edge fid) (e, r) deps in
    (forall x d, In d (lookup_set er.1 x)
                 <-> In d (lookup_set e x) \/ (x = fid /\ In d deps))
    /\ (forall x d, In x (lookup_set er.2 d)
                    <-> In x (lookup_set r d) \/ (x = fid /\ In d deps))
    /\ ((forall x, NoDup (lookup_set e x)) -> forall x, NoDup (lookup_set er.1 x))
    /\ ((forall x, NoDup (lookup_set r x)) -> forall x, NoDup (lookup_set er.2 x)).
Proof.
  induction deps as [|dep deps IH]; intros e r; simpl.
  - split; [|split; [|split]]; auto; intuition.
  - destruct (IH (dict_add e fid dep) (dict_add r dep fid)) as (IH1 & IH2 & IH3 & IH4).
    unfold add_edge at 2. simpl. split; [|split; [|split]].
    + intros n d. rewrite IH1, dict_add_lookup.
      destruct (String.eqb_spec fid n) as [<-|Hne].
      * rewrite set_add_In. simpl. intuition congruence.
      * simpl. intuition congruence.
    + intros n d. rewrite IH2, dict_add_lookup.
      destruct (String.eqb_spec dep d) as [<-|Hne].
      * rewrite set_add_In. simpl. intuition congruence.
      * simpl. intuition congruence.
    + intros He. apply IH3. intros n. rewrite dict_add_lookup.
      destruct (String.eqb fid n); [apply set_add_nodup|]; apply He.
    + intros Hr. apply IH4. intros n. rewrite dict_add_lookup.
      destruct (String.eqb dep n); [apply set_add_nodup|]; apply Hr.
Qed.

Lemma wf_new_graph : wf new_graph.
Proof.
  split; unfold get_dependencies, get_dependents; simpl;
    try (intros; constructor); try tauto; intros; contradiction.
Qed.

Lemma wf_add_feature g f : wf g -> wf (add_feature g f).
Proof.
  intros [Hkeys Hids Hend Hrnd Hsrc Hdecl Hmirror].
  unfold add_feature.
  destruct (add_edges_spec (id f) (dependencies f) (edges g) (reverse_edges g))
    as (He & Hr & Hend' & Hrnd').
  destruct (foldl (add_edge (id f)) (edges g, reverse_edges g) (dependencies f))
    as [e r]. simpl in *. unfold lookup_set in *.
  split; simpl; unfold get_dependencies, get_dependents in *; simpl.
  - now apply dict_keys_set_nodup.
  - intros k f' Hin. apply dict_in_set in Hin as [[-> ->]|[_ Hin]]; auto.
  - apply Hend'. exact Hend.
  - apply Hrnd'. exact Hrnd.
  - intros x d Hd. apply dict_keys_set. apply He in Hd as [Hd|[-> _]]; [|now left].
    right. eapply Hsrc; eauto.
  - intros k f' d Hin Hd. apply He.
    apply dict_in_set in Hin as [[-> ->]|[Hne Hin]]; [now right| |assumption].
    left. eapply Hdecl; eauto.
  - intros x d. rewrite Hr, He. specialize (Hmirror x d). tauto.
Qed.

(** Every graph built by [add_feature] from the empty one is well formed. *)
Lemma wf_built fs : wf (built_from fs).
Proof.
  unfold built_from. generalize wf_new_graph. generalize new_graph.
  induction fs as [|f fs IH]; intros g Hg; simpl; [assumption|].
  apply IH. now apply wf_add_feature.
Qed.
End DependencyGraphBuild.

(* ===================================================================== *)
(** * dependency_graph.py: the topological sort *)
(* ===================================================================== *)

Module DependencyGraphSpec.
Import DependencyGraph DictSpec DependencyGraphSearch DependencyGraphBuild.

Lemma mem_not_In x l : mem x l = false <-> ~ In x l.
Proof. rewrite <- mem_In. now destruct (mem x l). Qed.

(** ** The stable sort *)

Lemma insert_by_perm key x l : insert_by key x l ≡ₚ x :: l.
Proof.
  induction l as [|y l IH]; simpl; [reflexivity|].
  destruct (key x <? key y)%Z; [reflexivity|].
  rewrite IH. apply perm_swap.
Qed.

Lemma sort_by_perm key l : sort_by key l ≡ₚ l.
Proof.
  unfold sort_by. rewrite <- (app_nil_l l) at 2.
  generalize (@nil string). induction l as [|x l IH]; intros acc; simpl.
  - now rewrite app_nil_r.
  - rewrite IH, insert_by_perm. apply Permutation_middle.
Qed.

(** ** The in-degrees *)

Lemma foldl_update (f : string -> Z) l m x :
  foldl (fun m node => update m node (f node)) m l x
  = if mem x l then f x else m x.
Proof.
  revert m. induction l as [|k l IH]; intros m; simpl; [reflexivity|].
  rewrite IH. unfold update, mem. simpl.
  destruct (existsb (String.eqb x) l) eqn:Hl.
  - now rewrite orb_true_r.
  - rewrite orb_false_r. destruct (String.eqb_spec x k) as [->|]; reflexivity.
Qed.

Lemma initial_in_degree_spec g x :
  In x (Dict.keys (features g)) ->
  initial_in_degree g x = Z.of_nat (length (get_dependencies g x)).
Proof.
  intros Hx. unfold initial_in_degree.
  rewrite (foldl_update (fun node => Z.of_nat (length (get_dependencies g node)))).
  apply mem_In in Hx. now rewrite Hx.
Qed.

(** ** The loop over the dependents *)

Lemma relax_spec dependents :
  NoDup dependents ->
  forall in_degree queue,
    (forall x, (foldl relax (in_degree, queue) dependents).1 x
               = (in_degree x - (if mem x dependents then 1 else 0))%Z)
    /\ (foldl relax (in_degree, queue) dependents).2
       = queue ++ List.filter (fun x => (in_degree x - 1 =? 0)%Z) dependents.
Proof.
  induction 1 as [|y l Hy Hl IH]; intros in_degree queue; simpl.
  - split; [intros; lia|now rewrite app_nil_r].
  - rewrite list_elem_of_In in Hy.
    set (m := update in_degree y (in_degree y - 1)).
    assert (relax (in_degree, queue) y
            = (m, if (in_degree y - 1 =? 0)%Z then queue ++ [y] else queue)) as ->.
    { unfold relax. simpl. fold m. unfold m at 1, update.
      rewrite String.eqb_refl. now destruct (in_degree y - 1 =? 0)%Z. }
    destruct (IH m (if (in_degree y - 1 =? 0)%Z then queue ++ [y] else queue))
      as [IH1 IH2].
    assert (forall x, In x l -> m x = in_degree x) as Hm.
    { intros x Hx. unfold m, update.
      destruct (String.eqb_spec x y) as [->|]; [contradiction|reflexivity]. }
    split.
    + intros x. rewrite IH1. unfold mem. simpl.
      destruct (String.eqb_spec x y) as [->|Hne]; simpl.
      * apply mem_not_In in Hy. unfold mem in Hy. rewrite Hy.
        unfold m, update. rewrite String.eqb_refl. lia.
      * unfold m, update. destruct (String.eqb_spec x y); [contradiction|reflexivity].
    + rewrite IH2.
      rewrite (filter_ext_in (fun x => (m x - 1 =? 0)%Z)
                             (fun x => (in_degree x - 1 =? 0)%Z)).
      2:{ intros x Hx. now rewrite Hm. }
      destruct (in_degree y - 1 =? 0)%Z; [now rewrite <- app_assoc|reflexivity].
Qed.
(** ** One round of the loop *)

Lemma filter_without (P : string -> bool) n l :
  NoDup l ->
  length (List.filter P l)
  = length (List.filter (fun d => P d && negb (String.eqb d n)) l)
    + (if P n && mem n l then 1 else 0).
Proof.
  induction 1 as [|y l Hy Hl IH]; simpl; [now rewrite andb_false_r|].
  rewrite list_elem_of_In in Hy. unfold mem in *. simpl.
  destruct (String.eqb_spec y n) as [->|Hne].
  - rewrite (String.eqb_refl n). simpl. rewrite andb_false_r, andb_true_r.
    apply mem_not_In in Hy. unfold mem in Hy. rewrite Hy, andb_false_r in IH.
    destruct (P n); simpl; lia.
  - destruct (String.eqb_spec n y) as [|_]; [congruence|]. simpl.
    rewrite andb_true_r. destruct (P y); simpl; lia.
Qed.

Lemma done_snoc result f : done (result ++ [f]) = done result ++ [id f].
Proof. unfold done. now rewrite map_app. Qed.

Lemma pending_snoc g result f x :
  NoDup (get_dependencies g x) ->
  length (pending g result x)
  = length (pending g (result ++ [f]) x)
    + (if negb (mem (id f) (done result)) && mem (id f) (get_dependencies g x)
       then 1 else 0).
Proof.
  intros Hnd. unfold pending.
  rewrite (filter_without _ (id f) _ Hnd). f_equal.
  f_equal. apply filter_ext. intros d. rewrite done_snoc.
  unfold mem. rewrite existsb_app. simpl. rewrite orb_false_r, negb_orb.
  reflexivity.
Qed.

Lemma in_done result d :
  In d (done result) -> exists i fd, i < length result /\ result !! i = Some fd /\ id fd = d.
Proof.
  unfold done. intros Hd. apply in_map_iff in Hd as (fd & <- & Hfd).
  apply list_elem_of_In, list_elem_of_lookup in Hfd as [i Hi].
  exists i, fd. split; [eapply lookup_lt_Some; eauto|auto].
Qed.

Lemma kahn_step g node rest in_degree result feature :
  wf g -> kahn_inv g (node :: rest) in_degree result ->
  Dict.get (features g) node = Some feature ->
  kahn_inv g (foldl relax (in_degree, rest) (get_dependents g node)).2
             (foldl relax (in_degree, rest) (get_dependents g node)).1
             (result ++ [feature]).
Proof.
  intros Hwf [Hnd Hfeat Hcount Hready Hstored Horder] Hget.
  assert (id feature = node) as Hid
    by (eapply wf_ids; [exact Hwf|]; now apply dict_get_In).
  subst node.
  destruct (relax_spec (get_dependents g (id feature)) (wf_dependents_nodup g Hwf (id feature))
              in_degree rest) as [Hdeg Hqueue].
  rewrite Hqueue. clear Hqueue.
  set (R := get_dependents g (id feature)) in *.
  set (fresh := List.filter (fun x => (in_degree x - 1 =? 0)%Z) R).
  apply NoDup_app in Hnd as (Hnd1 & Hdisj & Hnd2).
  apply NoDup_cons in Hnd2 as [Hnode_rest Hnd2].
  assert (~ In (id feature) (done result)) as Hnode_done.
  { intros Hin. apply list_elem_of_In in Hin. apply (Hdisj _ Hin). left. }
  assert (In (id feature) (Dict.keys (features g))) as Hnode_key
    by (eapply dict_get_keys; eauto).
  assert (in_degree (id feature) = 0%Z) as Hzero.
  { apply Hready; [assumption|]. apply in_or_app. right. now left. }
  assert (forall d, In d (get_dependencies g (id feature)) -> In d (done result)) as Hdeps.
  { intros d Hd. rewrite (Hcount (id feature) Hnode_key) in Hzero.
    destruct (mem d (done result)) eqn:Hm; [now apply mem_In|exfalso].
    assert (In d (pending g result (id feature))) as Hp.
    { unfold pending. apply filter_In. split; [assumption|]. now rewrite Hm. }
    destruct (pending g result (id feature)); [contradiction|simpl in Hzero; lia]. }
  assert (forall x, In x R -> In x (Dict.keys (features g))
                               /\ (1 <= in_degree x)%Z
                               /\ ~ In x (done result ++ (id feature) :: rest)) as HR.
  { intros x Hx. apply (wf_mirror g Hwf) in Hx.
    assert (In x (Dict.keys (features g))) as Hk by (eapply wf_sources; eauto).
    assert (1 <= in_degree x)%Z as Hpos.
    { rewrite (Hcount x Hk).
      assert (In (id feature) (pending g result x)) as Hp.
      { unfold pending. apply filter_In. split; [assumption|].
        apply mem_not_In in Hnode_done. now rewrite Hnode_done. }
      destruct (pending g result x); [contradiction|simpl; lia]. }
    split; [assumption|]. split; [assumption|].
    intros Hin. apply (Hready x Hk) in Hin. lia. }
  assert (forall x, In x fresh <-> In x R /\ (in_degree x - 1 = 0)%Z) as Hfresh.
  { intros x. unfold fresh. rewrite filter_In, Z.eqb_eq. reflexivity. }
  split.
  - (* no duplicates *)
    rewrite done_snoc. rewrite <- app_assoc. simpl.
    apply NoDup_app. split; [assumption|]. split.
    + intros x Hx Hin. apply elem_of_cons in Hin as [->|Hin].
      * apply Hnode_done. now apply list_elem_of_In.
      * apply elem_of_app in Hin as [Hin|Hin].
        -- apply (Hdisj x Hx). now right.
        -- apply list_elem_of_In, Hfresh in Hin as [Hin _].
           apply HR in Hin as (_ & _ & Hnot). apply Hnot, in_or_app. left.
           now apply list_elem_of_In.
    + apply NoDup_cons. split.
      * intros Hin. apply elem_of_app in Hin as [Hin|Hin]; [contradiction|].
        apply list_elem_of_In, Hfresh in Hin as [Hin _].
        apply HR in Hin as (_ & _ & Hnot). apply Hnot, in_or_app. right. now left.
      * apply NoDup_app. split; [assumption|]. split.
        -- intros x Hx Hin. apply list_elem_of_In, Hfresh in Hin as [Hin _].
           apply HR in Hin as (_ & _ & Hnot). apply Hnot, in_or_app. right. right.
           now apply list_elem_of_In.
        -- apply NoDup_ListNoDup. unfold fresh. apply List.NoDup_filter.
           apply NoDup_ListNoDup. apply (wf_dependents_nodup g Hwf).
  - (* only features *)
    intros x. rewrite done_snoc, <- app_assoc. simpl.
    rewrite !in_app_iff. simpl. rewrite in_app_iff.
    intros [Hx|[<-|[Hx|Hx]]]; auto.
    + apply Hfeat, in_or_app. now left.
    + apply Hfeat, in_or_app. right. now right.
    + apply Hfresh in Hx as [Hx _]. now apply HR.
  - (* the count *)
    intros x Hx. rewrite Hdeg.
    pose proof (pending_snoc g result feature x (wf_edges_nodup g Hwf x)) as Hp.
    rewrite (Hcount x Hx).
    apply mem_not_In in Hnode_done. rewrite Hnode_done in Hp. simpl in Hp.
    assert (mem x R = mem (id feature) (get_dependencies g x)) as ->.
    { destruct (mem (id feature) (get_dependencies g x)) eqn:Hm.
      - apply mem_In. unfold R. apply (wf_mirror g Hwf). now apply mem_In.
      - apply mem_not_In. intros Hin. unfold R in Hin.
        apply (wf_mirror g Hwf) in Hin. apply mem_In in Hin. congruence. }
    destruct (mem (id feature) (get_dependencies g x)); lia.
  - (* who is ready *)
    intros x Hx. rewrite Hdeg, done_snoc, <- app_assoc. simpl.
    rewrite !in_app_iff. simpl. rewrite in_app_iff, Hfresh.
    destruct (mem x R) eqn:Hm.
    + apply mem_In in Hm. destruct (HR x Hm) as (_ & Hpos & Hnot).
      rewrite in_app_iff in Hnot. simpl in Hnot.
      split; [intros [?|[?|[?|[_ ?]]]]; tauto|intros ?; right; right; right; tauto].
    + apply mem_not_In in Hm. rewrite Z.sub_0_r.
      rewrite <- (Hready x Hx), in_app_iff. simpl. tauto.
  - (* stored *)
    intros f Hf. apply in_app_iff in Hf as [Hf|[<-|[]]]; auto.
  - (* dependency order *)
    intros j f d Hj Hd.
    destruct (Nat.lt_ge_cases j (length result)) as [Hlt|Hge].
    + rewrite lookup_app_l in Hj by assumption.
      destruct (Horder j f d Hj Hd) as (i & fd & Hi & Hfd & Hidd).
      exists i, fd. split; [assumption|]. split; [|assumption].
      rewrite lookup_app_l by lia. assumption.
    + assert (j = length result) as ->.
      { apply lookup_lt_Some in Hj. rewrite length_app in Hj. simpl in Hj. lia. }
      rewrite list_lookup_middle in Hj by reflexivity. injection Hj as <-.
      destruct (in_done result d (Hdeps d Hd)) as (i & fd & Hi & Hfd & Hidd).
      exists i, fd. split; [assumption|]. split; [|assumption].
      now rewrite lookup_app_l.
Qed.
(** ** The whole loop *)

Lemma missing_key_none g queue :
  (forall x, In x queue -> In x (Dict.keys (features g))) ->
  missing_key g queue = None.
Proof.
  unfold missing_key. induction queue as [|x queue IH]; intros Hq; simpl; [reflexivity|].
  destruct (dict_get_Some (features g) x) as [v Hv]; [apply Hq; now left|].
  unfold Dict.mem. rewrite Hv. simpl. apply IH. intros y Hy. apply Hq. now right.
Qed.

Lemma kahn_inv_perm g queue queue' in_degree result :
  queue ≡ₚ queue' ->
  kahn_inv g queue in_degree result -> kahn_inv g queue' in_degree result.
Proof.
  intros Hperm [Hnd Hfeat Hcount Hready Hstored Horder].
  split; auto.
  - now rewrite <- Hperm.
  - intros x Hx. apply Hfeat. apply list_elem_of_In. rewrite Hperm.
    now apply list_elem_of_In.
  - intros x Hx. rewrite <- (Hready x Hx). rewrite <- !list_elem_of_In.
    now rewrite Hperm.
Qed.

Lemma done_length g queue in_degree result :
  wf g -> kahn_inv g queue in_degree result ->
  length result + length queue <= length (features g).
Proof.
  intros Hwf Hinv.
  replace (length (features g)) with (length (Dict.keys (features g)))
    by (unfold Dict.keys; apply length_map).
  replace (length result) with (length (done result))
    by (unfold done; apply length_map).
  rewrite <- length_app.
  apply NoDup_incl_length; [apply NoDup_ListNoDup, (k_nodup _ _ _ _ Hinv)|].
  intros x Hx. now apply (k_features _ _ _ _ Hinv).
Qed.

(** The loop ends, with the invariant and an empty queue. *)
Lemma kahn_runs g :
  wf g ->
  forall fuel queue in_degree result,
    kahn_inv g queue in_degree result ->
    length (features g) < fuel + length result ->
    exists l in_degree',
      kahn fuel g queue in_degree result = Done l /\ kahn_inv g [] in_degree' l.
Proof.
  intros Hwf fuel.
  induction fuel as [|fuel IH]; intros queue in_degree result Hinv Hfuel.
  - pose proof (done_length g queue in_degree result Hwf Hinv). simpl in Hfuel. lia.
  - cbn [kahn]. destruct queue as [|q0 qs]; [eauto|].
    rewrite missing_key_none.
    2:{ intros x Hx. apply (k_features _ _ _ _ Hinv), in_or_app. now right. }
    pose proof (sort_by_perm (priority_key g) (q0 :: qs)) as Hperm.
    destruct (sort_by (priority_key g) (q0 :: qs)) as [|node rest] eqn:Hsort.
    { apply Permutation_nil_cons in Hperm. contradiction. }
    apply (kahn_inv_perm _ _ _ _ _ (Permutation_sym Hperm)) in Hinv.
    destruct (dict_get_Some (features g) node) as [feature Hfeature].
    { apply (k_features _ _ _ _ Hinv), in_or_app. right. now left. }
    rewrite Hfeature.
    pose proof (kahn_step g node rest in_degree result feature Hwf Hinv Hfeature) as Hstep.
    destruct (foldl relax (in_degree, rest) (get_dependents g node)) as [in_degree' queue'].
    apply (IH _ _ _ Hstep). rewrite length_app. simpl. lia.
Qed.

Lemma pending_nil g x : pending g [] x = get_dependencies g x.
Proof.
  unfold pending. simpl. induction (get_dependencies g x) as [|d l IH]; simpl; congruence.
Qed.

Lemma kahn_init g :
  wf g ->
  kahn_inv g (List.filter (fun node => (initial_in_degree g node =? 0)%Z)
                          (Dict.keys (features g)))
           (initial_in_degree g) [].
Proof.
  intros Hwf. split; simpl.
  - apply NoDup_ListNoDup, List.NoDup_filter, NoDup_ListNoDup, (wf_keys g Hwf).
  - intros x Hx. now apply filter_In in Hx.
  - intros x Hx. rewrite pending_nil. now apply initial_in_degree_spec.
  - intros x Hx. rewrite filter_In, Z.eqb_eq. tauto.
  - intros f [].
  - intros j f d Hj. now rewrite lookup_nil in Hj.
Qed.

(** In a closed graph without endless walks the loop leaves no feature
    behind. *)
Lemma kahn_complete g in_degree l :
  closed g -> kahn_inv g [] in_degree l ->
  forall x, safe g x -> In x (Dict.keys (features g)) -> In x (done l).
Proof.
  intros Hclosed Hinv x Hsafe.
  induction Hsafe as [x _ IH]. intros Hx.
  pose proof (k_ready _ _ _ _ Hinv x Hx) as Hready.
  rewrite app_nil_r in Hready. apply Hready.
  rewrite (k_count _ _ _ _ Hinv x Hx).
  assert (pending g l x = []) as ->; [|reflexivity].
  unfold pending.
  destruct (List.filter _ _) as [|d ds] eqn:Hf; [reflexivity|exfalso].
  assert (In d (d :: ds)) as Hd by now left.
  rewrite <- Hf in Hd. apply filter_In in Hd as [Hd Hnot].
  apply negb_true_iff, mem_not_In in Hnot. apply Hnot.
  apply IH; [assumption|]. eapply Hclosed; eauto.
Qed.

Lemma values_of_keys g :
  wf g ->
  Dict.values (features g)
  = map (fun k => default (mkFeature k "" 0 [] PENDING 0 false)
                          (Dict.get (features g) k)) (Dict.keys (features g)).
Proof.
  intros Hwf. pose proof (wf_keys g Hwf) as Hnd.
  unfold Dict.values, Dict.keys in *.
  induction (features g) as [|[k f] d IH]; simpl in *; [reflexivity|].
  rewrite String.eqb_refl. simpl. f_equal.
  apply NoDup_cons in Hnd as [Hk Hnd]. rewrite (IH Hnd).
  apply map_ext_in. intros k' Hk'.
  destruct (String.eqb_spec k k') as [->|_]; [|reflexivity].
  exfalso. apply Hk. now apply list_elem_of_In.
Qed.

Lemma result_of_done g in_degree l :
  kahn_inv g [] in_degree l ->
  l = map (fun k => default (mkFeature k "" 0 [] PENDING 0 false)
                            (Dict.get (features g) k)) (done l).
Proof.
  intros Hinv. unfold done. rewrite map_map.
  rewrite <- (map_id l) at 1. apply map_ext_in. intros f Hf.
  now rewrite (k_stored _ _ _ _ Hinv f Hf).
Qed.
(** ** The sort *)

Lemma topological_sort_acyclic g :
  wf g -> closed g -> has_cycle g = Some false ->
  exists l, topological_sort g = Done l /\ sorted_features g l.
Proof.
  intros Hwf Hclosed Hcycle. unfold topological_sort. rewrite Hcycle.
  destruct (kahn_runs g Hwf (S (length (features g))) _ _ [] (kahn_init g Hwf))
    as (l & in_degree & Hrun & Hinv); [simpl; lia|].
  exists l. split; [exact Hrun|].
  assert (done l ≡ₚ Dict.keys (features g)) as Hperm.
  { apply NoDup_Permutation.
    - pose proof (k_nodup _ _ _ _ Hinv) as Hnd. now rewrite app_nil_r in Hnd.
    - apply (wf_keys g Hwf).
    - intros x. rewrite !list_elem_of_In. split.
      + intros Hx. apply (k_features _ _ _ _ Hinv). now rewrite app_nil_r.
      + intros Hx. eapply kahn_complete; eauto.
        now apply has_cycle_false_safe. }
  split; [|split; [|split]].
  - rewrite (result_of_done g in_degree l Hinv), (values_of_keys g Hwf).
    now apply Permutation_map.
  - pose proof (k_nodup _ _ _ _ Hinv) as Hnd. now rewrite app_nil_r in Hnd.
  - apply (k_order _ _ _ _ Hinv).
  - intros j f d Hj Hd. apply (k_order _ _ _ _ Hinv j f d Hj).
    eapply wf_declared; [exact Hwf| |exact Hd].
    apply dict_get_In. apply (k_stored _ _ _ _ Hinv).
    apply list_elem_of_In. eapply list_elem_of_lookup_2; eauto.
Qed.

(** C1 as stated fails: a feature that depends on an id that is not a
    feature never reaches in-degree 0, and the sort leaves it out. *)
Lemma dangling_dependency_drops_feature :
  ~ (forall fs,
       has_cycle (built_from fs) = Some false ->
       exists l, topological_sort (built_from fs) = Done l
                 /\ l ≡ₚ Dict.values (features (built_from fs))).
Proof.
  intros H.
  destruct (H [sample_feature "a" 1 ["ghost"]]) as (l & Hrun & Hperm);
    [reflexivity|].
  vm_compute in Hrun. injection Hrun as <-.
  apply Permutation_length in Hperm. discriminate.
Qed.

(** C1, amended.  On every dependency graph [has_cycle()] returns.  When
    every dependency is itself a Feature of the graph and [has_cycle()]
    returns false, [topological_sort()] returns every Feature exactly
    once, in an order in which each Feature comes after all of its
    dependencies.  On every graph with a cycle [topological_sort()]
    returns the empty list. *)
Theorem topological_sort_spec :
  forall g,
    wf g ->
    (exists b, has_cycle g = Some b)
    /\ (closed g -> has_cycle g = Some false ->
        exists l, topological_sort g = Done l /\ sorted_features g l)
    /\ (cyclic g -> has_cycle g = Some true /\ topological_sort g = Done []).
Proof.
  intros g Hwf. split; [apply has_cycle_total|]. split.
  - now apply topological_sort_acyclic.
  - intros Hcyclic. pose proof (cyclic_has_cycle g Hwf Hcyclic) as Hc.
    split; [exact Hc|]. unfold topological_sort. now rewrite Hc.
Qed.

Lemma topological_sort_spec_witness :
  (exists l, topological_sort diamond = Done l
             /\ sorted_features diamond l
             /\ map id l = ["F1"; "F3"; "F2"; "F4"])
  /\ topological_sort triangle = Done [].
Proof.
  split.
  - destruct (topological_sort_spec diamond (wf_built _)) as (_ & Hsort & _).
    destruct Hsort as (l & Hrun & Hsorted).
    + intros x d Hd.
      assert (mem d (Dict.keys (features diamond)) = true) as Hm; [|now apply mem_In].
      assert (forallb (fun x => forallb (fun d => mem d (Dict.keys (features diamond)))
                                        (get_dependencies diamond x))
                      (Dict.keys (edges diamond)) = true) as Hall by reflexivity.
      rewrite forallb_forall in Hall.
      unfold get_dependencies in Hd.
      destruct (Dict.get (edges diamond) x) as [ds|] eqn:Hget; [|contradiction].
      specialize (Hall x (dict_get_keys _ _ _ Hget)).
      rewrite forallb_forall in Hall. apply Hall.
      unfold get_dependencies. now rewrite Hget.
    + reflexivity.
    + exists l. split; [exact Hrun|]. split; [exact Hsorted|].
      vm_compute in Hrun. injection Hrun as <-. reflexivity.
  - destruct (topological_sort_spec triangle (wf_built _)) as (_ & _ & Hcyc).
    apply Hcyc. exists "F1".
    apply (depends_step triangle "F1" "F3" "F1"); [vm_compute; now left|].
    apply (depends_step triangle "F3" "F2" "F1"); [vm_compute; now left|].
    apply depends_direct. vm_compute. now left.
Defined.
End DependencyGraphSpec.

(* ===================================================================== *)
(** * parallel_executor.py: the work queue *)
(* ===================================================================== *)

Module WorkQueueSpec.
Import Heapq HeapqSpec ParallelExecutor DictSpec.

Lemma Task_lt_asym : lt_asym Task_lt.
Proof.
  intros a b. unfold Task_lt.
  rewrite (Z.eqb_sym (priority_value (priority b))).
  destruct (Z.eqb_spec (priority_value (priority a)) (priority_value (priority b)));
    simpl.
  - rewrite Qltb_lt, Qltb_ge. apply Qlt_le_weak.
  - rewrite Z.ltb_lt, Z.ltb_ge. lia.
Qed.

Lemma Task_lt_cotrans : lt_cotrans Task_lt.
Proof.
  intros a b c. unfold Task_lt.
  destruct (Z.eqb_spec (priority_value (priority b)) (priority_value (priority a)));
  destruct (Z.eqb_spec (priority_value (priority c)) (priority_value (priority b)));
  destruct (Z.eqb_spec (priority_value (priority c)) (priority_value (priority a)));
    simpl; rewrite ?Qltb_ge, ?Z.ltb_ge; try lia.
  intros H1 H2. eapply Qle_trans; eauto.
Qed.

Lemma priority_value_inj p p' : priority_value p = priority_value p' -> p = p'.
Proof. destruct p, p'; simpl; congruence. Qed.

Lemma not_lt_served_before t u : Task_lt u t = false <-> served_before t u.
Proof.
  unfold Task_lt, served_before.
  destruct (Z.eqb_spec (priority_value (priority u)) (priority_value (priority t)))
    as [Heq|Hne]; simpl.
  - rewrite Qltb_ge. split.
    + intros H. split; [lia|auto].
    + intros [_ H]. apply H. symmetry. now apply priority_value_inj.
  - rewrite Z.ltb_ge. split.
    + intros H. split; [lia|]. intros Hp. rewrite Hp in Hne. congruence.
    + intros [H _]. lia.
Qed.

Lemma set_status_same t : set_status t (status t) = t.
Proof. now destruct t. Qed.

Lemma dict_get_del_ne {V} (d : list (string * V)) k k' :
  k <> k' -> Dict.get (Dict.del d k) k' = Dict.get d k'.
Proof.
  intros Hne. induction d as [|[k0 v0] d IH]; simpl; [reflexivity|].
  destruct (String.eqb_spec k0 k) as [->|Hk].
  - destruct (String.eqb_spec k k'); [congruence|reflexivity].
  - simpl. now rewrite IH.
Qed.

Lemma queue_ok_new : queue_ok new_queue.
Proof.
  split; [apply heap_ok_nil|]. split; [constructor|constructor].
Qed.

(** [enqueue] of a task whose id is not queued keeps the queue well formed. *)
Lemma queue_ok_enqueue q t :
  queue_ok q -> task_id t ∉ map task_id (heap q) -> queue_ok (enqueue q t).
Proof.
  intros (Hheap & Hnd & Hall) Hfresh. unfold enqueue.
  destruct (heappush_spec Task_lt Task_lt_asym Task_lt_cotrans (heap q)
              (set_status t QUEUED) Hheap) as [Hok Hperm].
  split; [exact Hok|]. cbn [heap task_map]. split.
  - rewrite Hperm. simpl. apply NoDup_cons. auto.
  - rewrite Hperm. constructor.
    + split; [reflexivity|]. rewrite dict_get_set. simpl.
      now rewrite String.eqb_refl.
    + rewrite Forall_forall in Hall. apply Forall_forall. intros u Hu.
      destruct (Hall u Hu) as [Hst Hget]. split; [exact Hst|].
      rewrite dict_get_set. simpl.
      destruct (String.eqb_spec (task_id t) (task_id u)) as [Heq|_]; [|exact Hget].
      exfalso. apply Hfresh. rewrite Heq. apply list_elem_of_fmap.
      now exists u.
Qed.

(** What [dequeue] does to a well-formed queue that is not empty. *)
Lemma dequeue_spec q :
  queue_ok q -> heap q <> [] ->
  exists t q',
    dequeue q = (Ok (Some t), q') /\ heap q !! 0 = Some t
    /\ (forall u, u ∈ heap q -> Task_lt u t = false)
    /\ t :: heap q' ≡ₚ heap q /\ queue_ok q'.
Proof.
  intros (Hheap & Hnd & Hall) Hne.
  destruct (heappop_spec Task_lt Task_lt_asym Task_lt_cotrans _ Hheap Hne)
    as (t & rest & Hpop & Hroot & Hok & Hperm & Hmin).
  rewrite Forall_forall in Hall.
  assert (t ∈ heap q) as Ht by (rewrite <- Hperm; left).
  destruct (Hall t Ht) as [Hst Hget].
  exists t, (mkQueue rest (Dict.del (task_map q) (task_id t))).
  split.
  - unfold dequeue. destruct (heap q) as [|x l] eqn:E; [congruence|].
    rewrite Hpop. unfold Dict.mem. now rewrite Hget.
  - split; [exact Hroot|]. split; [exact Hmin|]. split; [exact Hperm|].
    rewrite <- Hperm in Hnd. simpl in Hnd. apply NoDup_cons in Hnd as [Hfresh Hnd].
    split; [exact Hok|]. split; [exact Hnd|]. cbn [heap task_map].
    apply Forall_forall. intros u Hu.
    destruct (Hall u) as [Hsu Hgu]; [rewrite <- Hperm; now right|].
    split; [exact Hsu|]. rewrite dict_get_del_ne; [exact Hgu|].
    intros Heq. apply Hfresh. rewrite Heq. apply list_elem_of_fmap. now exists u.
Qed.

(** ** Sorting *)

Lemma insert_sorted_perm t l : insert_sorted t l ≡ₚ t :: l.
Proof.
  induction l as [|u l IH]; simpl; [reflexivity|].
  destruct (Task_lt t u); [reflexivity|]. rewrite IH. apply perm_swap.
Qed.

Lemma sort_tasks_perm l : sort_tasks l ≡ₚ l.
Proof.
  unfold sort_tasks.
  assert (forall acc, foldl (fun acc t => insert_sorted t acc) acc l ≡ₚ acc ++ l) as H.
  { induction l as [|t l IH]; intros acc; simpl; [now rewrite app_nil_r|].
    rewrite IH, insert_sorted_perm. simpl. apply Permutation_middle. }
  apply (H []).
Qed.

Lemma insert_sorted_sorted t l :
  StronglySorted not_after l -> StronglySorted not_after (insert_sorted t l).
Proof.
  induction 1 as [|u l Hs IH Hall]; simpl; [repeat constructor|].
  destruct (Task_lt t u) eqn:Hlt.
  - constructor; [now constructor|]. constructor.
    + now apply Task_lt_asym.
    + eapply Forall_impl; [exact Hall|]. intros x Hx. unfold not_after in *.
      eapply Task_lt_cotrans; [apply Task_lt_asym, Hlt|exact Hx].
  - constructor; [exact IH|]. rewrite insert_sorted_perm. now constructor.
Qed.

Lemma sort_tasks_sorted l : StronglySorted not_after (sort_tasks l).
Proof.
  unfold sort_tasks.
  assert (forall acc, StronglySorted not_after acc ->
            StronglySorted not_after (foldl (fun acc t => insert_sorted t acc) acc l)) as H.
  { induction l as [|t l IH]; intros acc Hacc; simpl; [exact Hacc|].
    apply IH. now apply insert_sorted_sorted. }
  apply H. constructor.
Qed.

(** Re-adding a list of tasks to a queue. *)
Lemma foldl_enqueue_ok l q :
  queue_ok q -> NoDup (map task_id (heap q) ++ map task_id l) ->
  queue_ok (foldl enqueue q l)
  /\ heap (foldl enqueue q l) ≡ₚ heap q ++ map (fun t => set_status t QUEUED) l.
Proof.
  revert q. induction l as [|t l IH]; intros q Hq Hnd; simpl.
  - now rewrite app_nil_r.
  - assert (task_id t ∉ map task_id (heap q)) as Hfresh.
    { apply NoDup_app in Hnd as (_ & Hd & _). intros Hin. apply (Hd _ Hin). left. }
    destruct (IH (enqueue q t)) as [Hok Hperm].
    + now apply queue_ok_enqueue.
    + unfold enqueue. cbn [heap].
      rewrite (Permutation_map task_id (heappush_perm Task_lt (heap q) _)).
      simpl in Hnd |- *. rewrite <- Permutation_middle in Hnd. exact Hnd.
    + split; [exact Hok|]. rewrite Hperm. unfold enqueue. cbn [heap].
      rewrite (heappush_perm Task_lt). simpl. apply Permutation_middle.
Qed.

Lemma foldl_enqueue_perm l q :
  heap (foldl enqueue q l) ≡ₚ heap q ++ map (fun t => set_status t QUEUED) l.
Proof.
  revert q. induction l as [|t l IH]; intros q; simpl; [now rewrite app_nil_r|].
  rewrite IH. unfold enqueue. cbn [heap].
  rewrite (heappush_perm Task_lt). simpl. apply Permutation_middle.
Qed.

Lemma foldl_enqueue_heap l q :
  heap_ok Task_lt (heap q) -> heap_ok Task_lt (heap (foldl enqueue q l)).
Proof.
  revert q. induction l as [|t l IH]; intros q Hq; simpl; [exact Hq|].
  apply IH. unfold enqueue. cbn [heap].
  now apply (heappush_spec Task_lt Task_lt_asym Task_lt_cotrans).
Qed.

Lemma queued_same l :
  Forall (fun t => status t = QUEUED) l -> map (fun t => set_status t QUEUED) l = l.
Proof.
  induction 1 as [|t l Ht _ IH]; simpl; [reflexivity|].
  rewrite IH. f_equal. rewrite <- Ht. apply set_status_same.
Qed.

Lemma sample_queue_ok : queue_ok sample_queue.
Proof.
  unfold sample_queue. apply queue_ok_enqueue; [apply queue_ok_enqueue|].
  - apply queue_ok_new.
  - apply not_elem_of_nil.
  - intros H. apply list_elem_of_In in H. vm_compute in H. intuition discriminate.
Qed.

(** X1.  On a well-formed queue that is not empty, [dequeue] returns the
    task [peek] shows.  No queued task has a smaller priority value, nor
    the same priority and an earlier creation time.  Exactly that task
    leaves the heap, the size drops by one and the queue stays well
    formed. *)
Theorem dequeue_serves_first q :
  queue_ok q -> heap q <> [] ->
  exists t q',
    dequeue q = (Ok (Some t), q') /\ peek q = Some t
    /\ (forall u, u ∈ heap q -> served_before t u)
    /\ t :: heap q' ≡ₚ heap q /\ size q' = size q - 1 /\ queue_ok q'.
Proof.
  intros Hq Hne.
  destruct (dequeue_spec q Hq Hne) as (t & q' & Hd & Hroot & Hmin & Hperm & Hq').
  exists t, q'. split; [exact Hd|]. split.
  - unfold peek. destruct (heap q); [discriminate|exact Hroot].
  - split; [intros u Hu; now apply not_lt_served_before, Hmin|].
    split; [exact Hperm|]. split; [|exact Hq'].
    unfold size. rewrite <- Hperm. simpl. lia.
Qed.

Lemma dequeue_serves_first_witness :
  exists q', dequeue sample_queue = (Ok (Some (set_status sample_urgent QUEUED)), q')
             /\ size q' = 1.
Proof.
  destruct (dequeue_serves_first sample_queue sample_queue_ok)
    as (t & q' & Hd & Hp & _ & _ & Hs & _); [discriminate|].
  vm_compute in Hp. injection Hp as <-.
  exists q'. split; [exact Hd|]. rewrite Hs. reflexivity.
Defined.

Lemma steal_unfold q count :
  heap q <> [] ->
  steal q count =
    let c := count `min` length (heap q) in
    let tasks := sort_tasks (heap q) in
    ((if 0 <? c then drop (length tasks - c) tasks else tasks),
     foldl enqueue new_queue
       (if 0 <? c then take (length tasks - c) tasks else tasks)).
Proof. unfold steal. destruct (heap q); [congruence|reflexivity]. Qed.

(** X3.  [steal(count)] with a positive count, on a well-formed queue,
    returns [min(count, size)] tasks; they and the tasks left are the
    tasks that were queued; no stolen task is served before a task that is
    left; and the queue that is rebuilt is well formed. *)
Theorem steal_takes_lowest_priority q count :
  queue_ok q -> 0 < count ->
  length (steal q count).1 = count `min` size q
  /\ (steal q count).1 ++ heap (steal q count).2 ≡ₚ heap q
  /\ (forall s r, s ∈ (steal q count).1 -> r ∈ heap (steal q count).2 ->
                  served_before r s)
  /\ queue_ok (steal q count).2.
Proof.
  intros Hq Hcount.
  destruct (decide (heap q = [])) as [E|Hne].
  { unfold steal, size. rewrite E. simpl. rewrite E.
    split; [lia|]. split; [reflexivity|]. split; [|exact Hq].
    intros s r Hs. inversion Hs. }
  rewrite (steal_unfold q count Hne). cbv zeta. cbn [fst snd].
  destruct Hq as (Hheap & Hnd & Hall).
  pose proof (sort_tasks_perm (heap q)) as Hsort.
  pose proof (sort_tasks_sorted (heap q)) as Hsorted.
  assert (length (sort_tasks (heap q)) = length (heap q)) as Hlen by now rewrite Hsort.
  set (c := count `min` length (heap q)) in *.
  assert (0 < c <= length (heap q)) as Hc.
  { subst c. destruct (heap q); [congruence|]. simpl. lia. }
  destruct (Nat.ltb_spec 0 c) as [_|?]; [|lia].
  set (k := length (sort_tasks (heap q)) - c) in *.
  assert (Forall (fun t => status t = QUEUED) (take k (sort_tasks (heap q)))) as Hst.
  { apply Forall_take. rewrite Hsort. eapply Forall_impl; [exact Hall|]. now intros ? []. }
  destruct (foldl_enqueue_ok (take k (sort_tasks (heap q))) new_queue queue_ok_new)
    as [Hok Hperm].
  { simpl. rewrite <- (take_drop k (sort_tasks (heap q))) in Hsort.
    rewrite <- Hsort in Hnd. rewrite map_app in Hnd.
    now apply NoDup_app in Hnd as (? & _). }
  simpl in Hperm. rewrite (queued_same _ Hst) in Hperm.
  split; [rewrite length_drop; unfold size; subst k; lia|].
  split.
  - rewrite Hperm, Permutation_app_comm, take_drop. exact Hsort.
  - split; [|exact Hok].
    intros s r Hs Hr. apply not_lt_served_before. rewrite Hperm in Hr.
    rewrite <- (take_drop k (sort_tasks (heap q))) in Hsorted.
    change (not_after r s). eapply StronglySorted_app_1_elem_of; eauto.
Qed.

Lemma steal_takes_lowest_priority_witness :
  (steal sample_queue 1).1 = [set_status sample_t1 QUEUED]
  /\ (forall r, r ∈ heap (steal sample_queue 1).2 ->
                served_before r (set_status sample_t1 QUEUED)).
Proof.
  destruct (steal_takes_lowest_priority sample_queue 1 sample_queue_ok)
    as (_ & _ & Hlow & _); [lia|].
  split; [reflexivity|]. intros r Hr. apply Hlow; [|exact Hr].
  vm_compute. left.
Defined.

(** X4.  [steal(0)] steals everything and removes nothing: [tasks[-0:]]
    is the whole list, so every queued task is returned, and every one of
    them is queued again. *)
Theorem steal_nothing_returns_everything q :
  (steal q 0).1 ≡ₚ heap q
  /\ heap (steal q 0).2 ≡ₚ map (fun t => set_status t QUEUED) (heap q)
  /\ size (steal q 0).2 = size q.
Proof.
  destruct (decide (heap q = [])) as [E|Hne].
  { unfold steal, size. rewrite E. simpl. now rewrite E. }
  rewrite (steal_unfold q 0 Hne). cbv zeta. cbn [fst snd]. simpl.
  pose proof (sort_tasks_perm (heap q)) as Hsort.
  split; [exact Hsort|].
  assert (heap (foldl enqueue new_queue (sort_tasks (heap q)))
          ≡ₚ map (fun t => set_status t QUEUED) (heap q)) as H.
  { rewrite foldl_enqueue_perm. simpl. now rewrite Hsort. }
  split; [exact H|]. unfold size. rewrite H. apply length_map.
Qed.

(** X2.  Two tasks with the same id, enqueued into an empty queue, share
    one entry of the id map.  The first [dequeue] returns one of them and
    deletes the entry; the second pops the other task off the heap and
    then raises [KeyError], so that task is lost. *)
Theorem duplicate_id_breaks_dequeue t1 t2 :
  task_id t1 = task_id t2 ->
  let q := enqueue (enqueue new_queue t1) t2 in
  exists t q1 q2,
    dequeue q = (Ok (Some t), q1)
    /\ dequeue q1 = (Raise (KeyError (task_id t1)), q2)
    /\ heap q2 = [].
Proof.
  intros Hid q. subst q. unfold enqueue, new_queue. cbn [heap task_map].
  unfold heappush. simpl. unfold siftdown. simpl.
  rewrite Hid, String.eqb_refl.
  destruct (Task_lt (set_status t2 QUEUED) (set_status t1 QUEUED)) eqn:Hlt; simpl;
    eexists _, _, _; unfold dequeue, Dict.mem; simpl;
    rewrite ?Hid, ?String.eqb_refl; simpl;
    (split; [reflexivity|]); simpl; rewrite ?Hid, ?String.eqb_refl; simpl;
    rewrite ?Hid; split; reflexivity.
Qed.

Lemma duplicate_id_breaks_dequeue_witness :
  exists t q1 q2,
    dequeue (enqueue (enqueue new_queue sample_t1) sample_t1) = (Ok (Some t), q1)
    /\ dequeue q1 = (Raise (KeyError "t1"), q2) /\ heap q2 = [].
Proof.
  exact (duplicate_id_breaks_dequeue sample_t1 sample_t1 eq_refl).
Defined.

End WorkQueueSpec.

(* ===================================================================== *)
(** * parallel_executor.py: what the scheduler keeps *)
(* ===================================================================== *)

Module SchedulerSpec.
Import Heapq HeapqSpec ParallelExecutor DictSpec WorkQueueSpec.

Lemma is_ready_spec t ids : is_ready t ids = true <-> deps_met ids t.
Proof.
  unfold is_ready, deps_met. destruct (dependencies t) as [|d l] eqn:E.
  - split; [constructor|reflexivity].
  - rewrite <- E. clear E. rewrite forallb_forall, Forall_forall.
    split; intros H x Hx.
    + apply list_elem_of_In in Hx. apply H in Hx. now apply bool_decide_eq_true in Hx.
    + apply bool_decide_eq_true. apply H. now apply list_elem_of_In.
Qed.

Lemma is_ready_false t ids : is_ready t ids = false <-> ~ deps_met ids t.
Proof.
  rewrite <- is_ready_spec. destruct (is_ready t ids); split; congruence.
Qed.

Lemma deps_met_mono ids ids' t : ids ⊆ ids' -> deps_met ids t -> deps_met ids' t.
Proof.
  intros Hsub H. eapply Forall_impl; [exact H|]. intros d Hd. now apply Hsub.
Qed.

Lemma inv_new n : dispatch_inv (new_executor n).
Proof.
  split; [apply heap_ok_nil|]. split; [constructor|]. split; [|constructor].
  simpl. apply Forall_forall. intros a Ha t Ht.
  apply list_elem_of_fmap in Ha as (i & -> & _). discriminate.
Qed.

Lemma enqueue_heap q t :
  heap_ok Task_lt (heap q) ->
  heap_ok Task_lt (heap (enqueue q t))
  /\ heap (enqueue q t) ≡ₚ set_status t QUEUED :: heap q.
Proof.
  intros H. unfold enqueue. cbn [heap].
  now apply (heappush_spec Task_lt Task_lt_asym Task_lt_cotrans).
Qed.

Lemma inv_submit ex t : dispatch_inv ex -> dispatch_inv (submit ex t).
Proof.
  intros (Hheap & Hq & Ha & Hb). unfold submit.
  destruct (is_ready t (completed_ids ex)) eqn:Hr.
  - destruct (enqueue_heap (queue ex) t Hheap) as [Hok Hperm].
    split; [exact Hok|]. split; [|split; [exact Ha|exact Hb]].
    cbn [set_queue queue completed_ids]. rewrite Hperm. constructor; [|exact Hq].
    now apply is_ready_spec in Hr.
  - split; [exact Hheap|]. split; [exact Hq|]. split; [exact Ha|].
    cbn [blocked_tasks completed_ids]. apply Forall_app. split; [exact Hb|].
    repeat constructor. now apply is_ready_false in Hr.
Qed.

(** What [dequeue] leaves and returns, whatever the map holds. *)
Lemma dequeue_heap q :
  heap_ok Task_lt (heap q) ->
  heap_ok Task_lt (heap (dequeue q).2)
  /\ (forall u, u ∈ heap (dequeue q).2 -> u ∈ heap q)
  /\ (forall t, (dequeue q).1 = Ok (Some t) -> t ∈ heap q).
Proof.
  intros Hheap. unfold dequeue.
  destruct (heap q) as [|x l] eqn:E.
  { simpl. rewrite E. split; [exact Hheap|]. split; [auto|discriminate]. }
  rewrite <- E in *.
  destruct (heappop_spec Task_lt Task_lt_asym Task_lt_cotrans (heap q) Hheap)
    as (t & rest & -> & _ & Hok & Hperm & _); [now rewrite E|].
  destruct (Dict.mem (task_map q) (task_id t)); cbn [fst snd heap].
  - split; [exact Hok|]. split.
    + intros u Hu. rewrite <- Hperm. now right.
    + intros ? [= <-]. rewrite <- Hperm. left.
  - split; [exact Hok|]. split; [|discriminate].
    intros u Hu. rewrite <- Hperm. now right.
Qed.

Lemma inv_assign_loop positions ex assigned now :
  dispatch_inv ex -> dispatch_inv (assign_loop positions ex assigned now).2.
Proof.
  revert ex assigned. induction positions as [|i positions IH]; intros ex assigned Hinv;
    cbn [assign_loop]; [exact Hinv|].
  destruct (agents ex !! i) as [agent|] eqn:Hi; [|now apply IH].
  destruct (a_status agent); try now apply IH.
  destruct (is_empty (queue ex)); cbn [negb]; [now apply IH|].
  destruct Hinv as (Hheap & Hq & Ha & Hb).
  destruct (dequeue_heap (queue ex) Hheap) as (Hok & Hsub & Hret).
  assert (Forall (deps_met (completed_ids ex)) (heap (dequeue (queue ex)).2)) as Hq'.
  { rewrite Forall_forall in Hq. apply Forall_forall. auto. }
  destruct (dequeue (queue ex)) as [[[task|]|e] q'] eqn:Hd; cbn [fst snd] in *.
  - apply IH. split; [exact Hok|]. split; [exact Hq'|]. split; [|exact Hb].
    cbn [set_agents set_queue agents completed_ids].
    apply Forall_insert; [exact Ha|].
    intros t [= <-]. unfold deps_met. simpl.
    rewrite Forall_forall in Hq. apply (Hq task). now apply Hret.
  - apply IH. split; [exact Hok|]. split; [exact Hq'|]. split; [exact Ha|exact Hb].
  - split; [exact Hok|]. split; [exact Hq'|]. split; [exact Ha|exact Hb].
Qed.

Lemma foldl_unblock ids blocked q acc :
  heap_ok Task_lt (heap q) -> Forall (deps_met ids) (heap q) ->
  Forall (fun t => ~ deps_met ids t) acc ->
  heap_ok Task_lt (heap (foldl (unblock_step ids) (q, acc) blocked).1)
  /\ Forall (deps_met ids) (heap (foldl (unblock_step ids) (q, acc) blocked).1)
  /\ Forall (fun t => ~ deps_met ids t) (foldl (unblock_step ids) (q, acc) blocked).2.
Proof.
  revert q acc. induction blocked as [|t blocked IH]; intros q acc Hheap Hq Hacc;
    cbn [foldl]; [auto|].
  assert (unblock_step ids (q, acc) t
          = if is_ready t ids then (enqueue q (set_status t PENDING), acc)
            else (q, acc ++ [t])) as -> by reflexivity.
  destruct (is_ready t ids) eqn:Hr.
  - destruct (enqueue_heap q (set_status t PENDING) Hheap) as [Hok Hperm].
    apply IH; [exact Hok| |exact Hacc].
    rewrite Hperm. constructor; [|exact Hq]. now apply is_ready_spec in Hr.
  - apply IH; [exact Hheap|exact Hq|].
    apply Forall_app. split; [exact Hacc|]. repeat constructor.
    now apply is_ready_false in Hr.
Qed.

Lemma inv_complete_task ex id success output error now stamp :
  dispatch_inv ex ->
  dispatch_inv (complete_task ex id success output error now stamp).2.
Proof.
  intros Hinv. unfold complete_task.
  destruct (find_agent ex id) as [i|]; [|exact Hinv].
  destruct (agents ex !! i) as [agent|] eqn:Hi; [|exact Hinv].
  destruct (current_task agent) as [task|] eqn:Ht; [|exact Hinv].
  destruct Hinv as (Hheap & Hq & Ha & Hb).
  unfold agent_complete_task. cbv zeta.
  assert (forall ids, Forall (fun a => forall t, current_task a = Some t -> deps_met ids t)
                        (agents ex) ->
          Forall (fun a => forall t, current_task a = Some t -> deps_met ids t)
            (<[i:=mkAgent (agent_id agent) IDLE None (S (completed_count agent)) None]>
               (agents ex))) as Hins.
  { intros ids H. apply Forall_insert; [exact H|]. discriminate. }
  destruct success; cbn [snd].
  - unfold unblock_tasks. cbn [set_agents agents queue completed completed_ids blocked_tasks].
    set (ids := {[task_id task]} ∪ completed_ids ex).
    assert (completed_ids ex ⊆ ids) as Hsub by (subst ids; set_solver).
    pose proof (foldl_unblock ids (blocked_tasks ex) (queue ex) []) as Hfold.
    destruct (foldl (unblock_step ids) (queue ex, []) (blocked_tasks ex)) as [q still].
    cbn [fst snd] in Hfold.
    destruct Hfold as (H1 & H2 & H3); [exact Hheap| |constructor|].
    { eapply Forall_impl; [exact Hq|]. intros t. now apply deps_met_mono. }
    split; [exact H1|]. split; [exact H2|]. split; [|exact H3].
    cbn [agents completed_ids]. apply Hins.
    eapply Forall_impl; [exact Ha|]. intros a H t Hc. eapply deps_met_mono; eauto.
  - split; [exact Hheap|]. split; [exact Hq|]. split; [|exact Hb].
    cbn [set_agents agents completed_ids]. now apply Hins.
Qed.

Lemma steal_heap q count :
  heap_ok Task_lt (heap (steal q count).2) \/ (steal q count).2 = q.
Proof.
  destruct (decide (heap q = [])) as [E|Hne].
  - right. unfold steal. now rewrite E.
  - left. rewrite (steal_unfold q count Hne). cbv zeta. cbn [snd].
    apply foldl_enqueue_heap. apply heap_ok_nil.
Qed.

Lemma steal_Forall (P : Task -> Prop) q count :
  (forall t s, P t -> P (set_status t s)) ->
  Forall P (heap q) ->
  Forall P (steal q count).1 /\ Forall P (heap (steal q count).2).
Proof.
  intros HP Hq.
  destruct (decide (heap q = [])) as [E|Hne].
  { unfold steal. rewrite E. simpl. rewrite E. split; constructor. }
  rewrite (steal_unfold q count Hne). cbv zeta. cbn [fst snd].
  assert (Forall P (sort_tasks (heap q))) as Hs by now rewrite sort_tasks_perm.
  split.
  - destruct (0 <? _); [now apply Forall_drop|exact Hs].
  - rewrite foldl_enqueue_perm. simpl. apply Forall_fmap.
    eapply Forall_impl; [|intros t Ht; apply HP, Ht].
    destruct (0 <? _); [now apply Forall_take|exact Hs].
Qed.

Lemma inv_steal_work_for ex id now :
  dispatch_inv ex -> dispatch_inv (steal_work_for ex id now).2.
Proof.
  intros Hinv. unfold steal_work_for.
  destruct (find_agent ex id) as [i|]; [|exact Hinv].
  destruct (agents ex !! i) as [agent|] eqn:Hi; [|exact Hinv].
  destruct (a_status agent) eqn:Hs; try exact Hinv.
  destruct Hinv as (Hheap & Hq & Ha & Hb).
  destruct (steal_Forall (deps_met (completed_ids ex)) (queue ex) 1) as [Hst Hq'];
    [auto|exact Hq|].
  assert (heap_ok Task_lt (heap (steal (queue ex) 1).2)) as Hok.
  { destruct (steal_heap (queue ex) 1) as [H| ->]; [exact H|exact Hheap]. }
  destruct (steal (queue ex) 1) as [stolen q'] eqn:Hsteal. cbn [fst snd] in *.
  assert (forall t, current_task agent = Some t -> deps_met (completed_ids ex) t) as Hag.
  { rewrite Forall_forall in Ha. apply Ha. eapply list_elem_of_lookup_2; eauto. }
  destruct stolen as [|task stolen]; cbn [a_status start_stealing snd].
  - split; [exact Hok|]. split; [exact Hq'|]. split; [|exact Hb].
    cbn [set_agents set_queue agents completed_ids].
    apply Forall_insert; [exact Ha|]. exact Hag.
  - split; [exact Hok|]. split; [exact Hq'|]. split; [|exact Hb].
    cbn [set_agents set_queue agents completed_ids].
    apply Forall_insert; [exact Ha|].
    intros t [= <-]. apply Forall_cons in Hst as [Ht _]. exact Ht.
Qed.

Lemma inv_shutdown ex : dispatch_inv ex -> dispatch_inv (shutdown ex).
Proof.
  intros (Hheap & Hq & Ha & Hb). split; [exact Hheap|]. split; [exact Hq|].
  split; [|exact Hb]. cbn [shutdown set_agents agents completed_ids].
  apply Forall_fmap. eapply Forall_impl; [exact Ha|]. auto.
Qed.

Lemma inv_step ex c : dispatch_inv ex -> dispatch_inv (executor_step ex c).
Proof.
  intros Hinv. destruct c; cbn [executor_step].
  - now apply inv_submit.
  - now apply inv_assign_loop.
  - now apply inv_complete_task.
  - now apply inv_steal_work_for.
  - now apply inv_shutdown.
Qed.

Lemma inv_run calls ex : dispatch_inv ex -> dispatch_inv (foldl executor_step ex calls).
Proof.
  revert ex. induction calls as [|c calls IH]; intros ex Hinv; simpl; [exact Hinv|].
  apply IH. now apply inv_step.
Qed.

(** X5.  In every state an executor reaches from its creation through
    [submit], [assign_tasks], [complete_task], [steal_work_for] and
    [shutdown], every queued task and every task an agent holds has all
    its dependencies among the completed ids, and no blocked task has. *)
Theorem no_dispatch_before_dependencies n calls :
  dispatch_safe (foldl executor_step (new_executor n) calls).
Proof. apply inv_run, inv_new. Qed.


(** ** The ledger of completed tasks *)

Lemma unblock_tasks_ledger ex :
  completed (unblock_tasks ex) = completed ex
  /\ completed_ids (unblock_tasks ex) = completed_ids ex.
Proof.
  unfold unblock_tasks. now destruct (foldl _ _ _).
Qed.

Lemma assign_loop_ledger positions ex assigned now :
  completed (assign_loop positions ex assigned now).2 = completed ex
  /\ completed_ids (assign_loop positions ex assigned now).2 = completed_ids ex.
Proof.
  revert ex assigned. induction positions as [|i positions IH]; intros ex assigned;
    cbn [assign_loop]; [auto|].
  destruct (agents ex !! i) as [agent|]; [|apply IH].
  destruct (a_status agent); try apply IH.
  destruct (is_empty (queue ex)); cbn [negb]; [apply IH|].
  destruct (dequeue (queue ex)) as [[[task|]|e] q']; [| |auto].
  - destruct (IH (set_agents (set_queue ex q')
                    (<[i:=assign_task agent task now]> (agents (set_queue ex q'))))
                 (S assigned)) as [-> ->]. auto.
  - destruct (IH (set_queue ex q') assigned) as [-> ->]. auto.
Qed.

Lemma ledger_step ex c : ledger_ok ex -> ledger_ok (executor_step ex c).
Proof.
  unfold ledger_ok. intros H. destruct c; cbn [executor_step].
  - unfold submit. now destruct (is_ready _ _).
  - unfold assign_tasks. now destruct (assign_loop_ledger (seq 0 (length (agents ex))) ex 0 now) as [-> ->].
  - unfold complete_task.
    destruct (find_agent ex id) as [i|]; [|exact H].
    destruct (agents ex !! i) as [agent|]; [|exact H].
    destruct (current_task agent) as [task|]; [|exact H].
    unfold agent_complete_task. cbv zeta.
    destruct success; cbn [snd]; [|exact H].
    match goal with
    | |- context [unblock_tasks ?e] => destruct (unblock_tasks_ledger e) as [-> ->]
    end.
    cbn [completed completed_ids set_agents]. rewrite map_app, list_to_set_app_L, H. simpl.
    set_solver.
  - unfold steal_work_for.
    destruct (find_agent ex id) as [i|]; [|exact H].
    destruct (agents ex !! i) as [agent|]; [|exact H].
    destruct (a_status agent); try exact H.
    destruct (steal (queue ex) 1) as [[|task stolen] q']; exact H.
  - exact H.
Qed.

(** X6.  In every state an executor reaches from its creation, the set
    of completed ids holds exactly the ids of the tasks of the completed
    list: a failed completion adds to neither. *)
Theorem completed_ids_are_the_completed_tasks n calls :
  ledger_ok (foldl executor_step (new_executor n) calls).
Proof.
  assert (forall ex, ledger_ok ex -> ledger_ok (foldl executor_step ex calls)) as H.
  { induction calls as [|c calls IH]; intros ex Hex; simpl; [exact Hex|].
    apply IH. now apply ledger_step. }
  apply H. reflexivity.
Qed.

(** ** What [assign_tasks] hands out *)

Lemma idle_count_cons a l :
  idle_count (a :: l) = (if is_idle a then 1 else 0) + idle_count l.
Proof. unfold idle_count. simpl. now destruct (is_idle a). Qed.

Lemma take_le_eq {A} (l l' : list A) k n :
  k <= n -> take n l' = take n l -> take k l' = take k l.
Proof.
  intros Hle H. rewrite <- (Nat.min_l k n Hle), <- !take_take, H. reflexivity.
Qed.

Lemma assign_loop_spec now m : forall k ex assigned,
  queue_ok (queue ex) -> k + m = length (agents ex) ->
  let n := idle_count (drop k (agents ex)) `min` size (queue ex) in
  exists ex',
    assign_loop (seq k m) ex assigned now = (Ok (assigned + n), ex')
    /\ size (queue ex') = size (queue ex) - n
    /\ queue_ok (queue ex')
    /\ length (agents ex') = length (agents ex)
    /\ take k (agents ex') = take k (agents ex)
    /\ idle_count (drop k (agents ex')) = idle_count (drop k (agents ex)) - n
    /\ (forall r, r ∈ heap (queue ex') -> r ∈ heap (queue ex))
    /\ blocked_tasks ex' = blocked_tasks ex
    /\ (forall i, assigned_at ex ex' now i).
Proof.
  induction m as [|m IH]; intros k ex assigned Hq Hlen; cbv zeta.
  - exists ex. rewrite drop_ge by lia. unfold idle_count. simpl.
    rewrite Nat.add_0_r, Nat.sub_0_r.
    split; [reflexivity|]. split; [reflexivity|]. split; [exact Hq|].
    split; [reflexivity|]. split; [reflexivity|]. split; [reflexivity|].
    split; [auto|]. split; [reflexivity|].
    intros i a a' Ha Ha'. left. congruence.
  - cbn [seq assign_loop].
    destruct (agents ex !! k) as [agent|] eqn:Hk.
    2:{ apply lookup_ge_None in Hk. lia. }
    rewrite (drop_S _ _ _ Hk), idle_count_cons.
    assert (is_idle agent = true \/ is_idle agent = false) as [Hidle|Hidle]
      by (destruct (is_idle agent); auto).
    2:{ rewrite Hidle.
        destruct (IH (S k) ex assigned Hq) as (ex' & Hrun & H1 & H2 & H3 & H4 & H5 & H6 & H7 & H8);
          [lia|].
        exists ex'. split.
        { unfold is_idle in Hidle. destruct (a_status agent); try exact Hrun. discriminate. }
        split; [exact H1|]. split; [exact H2|]. split; [exact H3|].
        split.
        { apply (take_le_eq _ _ k (S k)); [lia|exact H4]. }
        split; [|auto].
        assert (agents ex' !! k = Some agent) as Hk'.
        { rewrite <- (lookup_take_lt _ (S k)), H4 by lia.
          rewrite lookup_take_lt by lia. exact Hk. }
        rewrite (drop_S _ _ _ Hk'), idle_count_cons, Hidle. exact H5. }
    rewrite Hidle. unfold is_idle in Hidle.
    destruct (a_status agent) eqn:Hst; try discriminate. clear Hidle.
    destruct (decide (heap (queue ex) = [])) as [Hempty|Hne].
    + unfold is_empty. rewrite Hempty. cbn [length Nat.eqb negb].
      destruct (IH (S k) ex assigned Hq) as (ex' & Hrun & H1 & H2 & H3 & H4 & H5 & H6 & H7 & H8);
        [lia|].
      unfold size in *. rewrite Hempty in *. cbn [length] in *.
      rewrite !Nat.min_0_r in *. rewrite Nat.sub_0_r in *.
      exists ex'. split; [exact Hrun|]. split; [exact H1|]. split; [exact H2|].
      split; [exact H3|]. split.
      { apply (take_le_eq _ _ k (S k)); [lia|exact H4]. }
      split; [|auto].
      assert (agents ex' !! k = Some agent) as Hk'.
      { rewrite <- (lookup_take_lt _ (S k)), H4 by lia.
        rewrite lookup_take_lt by lia. exact Hk. }
      rewrite (drop_S _ _ _ Hk'), idle_count_cons. unfold is_idle. rewrite Hst.
      rewrite H5. reflexivity.
    + assert (is_empty (queue ex) = false) as ->.
      { unfold is_empty. destruct (heap (queue ex)); [congruence|reflexivity]. }
      cbn [negb].
      destruct (dequeue_spec (queue ex) Hq Hne) as (t & q' & -> & _ & Hmin & Hperm & Hq').
      set (ex1 := set_agents (set_queue ex q')
                    (<[k:=assign_task agent t now]> (agents (set_queue ex q')))).
      assert (agents ex1 = <[k:=assign_task agent t now]> (agents ex)) as Hag by reflexivity.
      destruct (IH (S k) ex1 (S assigned)) as (ex' & Hrun & H1 & H2 & H3 & H4 & H5 & H6 & H7 & H8).
      { exact Hq'. }
      { rewrite Hag, length_insert. lia. }
      assert (size q' = size (queue ex) - 1) as Hsize.
      { unfold size. rewrite <- Hperm. simpl. lia. }
      assert (0 < size (queue ex)) as Hpos.
      { unfold size. destruct (heap (queue ex)); [congruence|simpl; lia]. }
      assert (drop (S k) (agents ex1) = drop (S k) (agents ex)) as Hdrop.
      { rewrite Hag. apply drop_insert_lt. lia. }
      rewrite Hdrop in *. cbn [queue ex1 set_agents set_queue] in H1, H6.
      change (queue ex1) with q' in *.
      rewrite Hsize in *.
      exists ex'. split.
      { rewrite Hrun. f_equal. f_equal. lia. }
      split; [lia|]. split; [exact H2|].
      split; [rewrite H3, Hag, length_insert; reflexivity|].
      assert (agents ex' !! k = Some (assign_task agent t now)) as Hk'.
      { rewrite <- (lookup_take_lt _ (S k)), H4 by lia.
        rewrite lookup_take_lt by lia. rewrite Hag.
        apply list_lookup_insert_eq. eapply lookup_lt_Some; eauto. }
      split.
      { rewrite (take_le_eq _ _ k (S k) (Nat.le_succ_diag_r k) H4).
        rewrite Hag. apply take_insert_ge. lia. }
      split.
      { rewrite (drop_S _ _ _ Hk'), idle_count_cons. cbn [is_idle assign_task a_status].
        rewrite H5. lia. }
      split.
      { intros r Hr. rewrite <- Hperm. right. now apply H6. }
      split; [exact H7|].
      intros i a a' Ha Ha'.
      destruct (decide (i = k)) as [->|Hik].
      * right. rewrite Hk in Ha. injection Ha as <-. rewrite Hk' in Ha'. injection Ha' as <-.
        split; [exact Hst|]. exists t. split; [rewrite <- Hperm; left|].
        split; [reflexivity|]. intros r Hr. apply not_lt_served_before, Hmin.
        rewrite <- Hperm. right. now apply H6.
      * destruct (H8 i a a') as [->|(Hs & u & Hu & -> & Hserved)];
          [rewrite Hag, list_lookup_insert_ne by congruence; exact Ha|exact Ha'|now left|].
        right. split; [exact Hs|]. exists u. split; [rewrite <- Hperm; now right|].
        split; [reflexivity|exact Hserved].
Qed.

Lemma sample_executor_ok : queue_ok (queue sample_executor).
Proof.
  change (queue sample_executor) with sample_queue. apply sample_queue_ok.
Qed.

(** X7.  On a well-formed queue [assign_tasks] raises nothing and returns
    [min(idle agents, queued tasks)]; the queue shrinks and the idle
    agents drop by that number; and each agent is as before, or was idle
    and now holds a task of the queue that is served before every task
    left in it. *)
Theorem assign_tasks_fills_idle_agents ex now :
  queue_ok (queue ex) ->
  let n := idle_count (agents ex) `min` size (queue ex) in
  exists ex',
    assign_tasks ex now = (Ok n, ex')
    /\ size (queue ex') = size (queue ex) - n
    /\ idle_count (agents ex') = idle_count (agents ex) - n
    /\ queue_ok (queue ex')
    /\ length (agents ex') = length (agents ex)
    /\ forall i, assigned_at ex ex' now i.
Proof.
  intros Hq n. unfold assign_tasks.
  destruct (assign_loop_spec now (length (agents ex)) 0 ex 0 Hq)
    as (ex' & Hrun & H1 & H2 & H3 & H4 & H5 & H6 & H7 & H8); [reflexivity|].
  rewrite !drop_0 in *. exists ex'. simpl in Hrun. auto 10.
Qed.

Lemma assign_tasks_fills_idle_agents_witness :
  exists ex', assign_tasks sample_executor 7 = (Ok 2, ex')
              /\ size (queue ex') = 0 /\ idle_count (agents ex') = 0.
Proof.
  destruct (assign_tasks_fills_idle_agents sample_executor 7 sample_executor_ok)
    as (ex' & Hrun & Hsize & Hidle & _).
  exists ex'. split; [exact Hrun|]. split; [rewrite Hsize|rewrite Hidle]; reflexivity.
Defined.

End SchedulerSpec.

(* ===================================================================== *)
(** * agent_protocol.py: the history and the subscribers *)
(* ===================================================================== *)

Module MessageBusSpec.
Import Heapq HeapqSpec AgentProtocol DictSpec AgentProtocolSpec.

(** ** The history window *)

Lemma newest_all {A} k (l : list A) : length l <= k -> newest k l = l.
Proof. intros H. unfold newest. now replace (length l - k) with 0 by lia. Qed.

Lemma newest_snoc {A} k (l : list A) x :
  0 < k -> newest k (newest k l ++ [x]) = newest k (l ++ [x]).
Proof.
  intros Hk. unfold newest. rewrite !length_app, length_drop. cbn [length].
  destruct (Nat.le_gt_cases (length l) k) as [Hle|Hgt].
  - replace (length l - k) with 0 by lia. now rewrite drop_0, Nat.sub_0_r.
  - rewrite drop_app_le by (rewrite length_drop; lia).
    rewrite drop_app_le by lia. rewrite drop_drop. do 2 f_equal. lia.
Qed.

Lemma record_history_newest hist m :
  record_history hist m = newest max_history (hist ++ [m]).
Proof.
  unfold record_history, newest.
  destruct (Nat.ltb_spec max_history (length (hist ++ [m]))) as [Hlt|Hle];
    [reflexivity|].
  now replace (length (hist ++ [m]) - max_history) with 0 by lia.
Qed.

Lemma deliver_loop_history {W} fuel (st st' : DeliverState W) log :
  history (d_bus st) = newest max_history (log ++ d_popped st) ->
  deliver_loop fuel st = Some st' ->
  history (d_bus st') = newest max_history (log ++ d_popped st').
Proof.
  revert st. induction fuel as [|fuel IH]; intros st Hh; simpl; [discriminate|].
  destruct (queue (d_bus st)) as [|q0 qs]; [now intros [= <-]|].
  destruct (heappop Message_lt (q0 :: qs)) as [[m rest]|]; [|discriminate].
  apply IH. destruct (deliver_message_spec st m rest) as (_ & _ & _ & -> & ->).
  rewrite record_history_newest, Hh, app_assoc.
  apply newest_snoc. unfold max_history. lia.
Qed.

Lemma slice_from_newest {A} (l : list A) (k : nat) :
  0 < k -> slice_from l (- Z.of_nat k) = newest k l.
Proof.
  intros Hk. unfold slice_from, newest. cbv zeta.
  destruct (Z.ltb_spec (- Z.of_nat k) 0); [|lia].
  f_equal. lia.
Qed.

(** X8.  After [deliver()] the history holds the newest [max_history]
    messages of the old history followed by the messages popped in the
    call, in that order; and [get_history(limit)], for a limit between 1
    and [max_history], returns the newest [limit] of them. *)
Theorem history_keeps_the_newest_messages :
  forall W (bus : MessageBus W) (w : W) fuel st',
    length (history bus) <= max_history ->
    deliver fuel bus w = Some st' ->
    history (d_bus st') = newest max_history (history bus ++ d_popped st')
    /\ forall limit, 0 < limit <= max_history ->
         get_history (d_bus st') (Z.of_nat limit)
         = newest limit (history bus ++ d_popped st').
Proof.
  intros W bus w fuel st' Hlen Hrun.
  assert (history (d_bus st') = newest max_history (history bus ++ d_popped st')) as Hh.
  { eapply deliver_loop_history; [|exact Hrun]. simpl.
    rewrite app_nil_r. symmetry. now apply newest_all. }
  split; [exact Hh|]. intros limit [Hpos Hle].
  unfold get_history. rewrite slice_from_newest by exact Hpos. rewrite Hh.
  unfold newest. rewrite length_drop, drop_drop. f_equal. lia.
Qed.

Lemma history_keeps_the_newest_messages_witness :
  exists st',
    deliver 10 broadcast_bus [] = Some st'
    /\ history (d_bus st')
       = newest max_history (history broadcast_bus ++ d_popped st')
    /\ get_history (d_bus st') 1
       = newest 1 (history broadcast_bus ++ d_popped st').
Proof.
  destruct (deliver 10 broadcast_bus []) as [st'|] eqn:Hrun;
    [|vm_compute in Hrun; discriminate].
  exists st'. split; [reflexivity|].
  destruct (history_keeps_the_newest_messages _ broadcast_bus [] 10 st') as [H1 H2];
    [apply Nat.le_0_l|exact Hrun|].
  split; [exact H1|]. apply (H2 1). unfold max_history. lia.
Defined.

(** ** The history file *)







(** ** Unsubscribing *)

Lemma dict_keys_del {V} (d : list (string * V)) k k' :
  In k' (Dict.keys (Dict.del d k)) -> In k' (Dict.keys d).
Proof.
  unfold Dict.keys. induction d as [|[k0 v0] d IH]; simpl; [auto|].
  destruct (String.eqb k0 k); simpl; intuition.
Qed.

Lemma dict_keys_del_absent {V} (d : list (string * V)) k :
  NoDup (Dict.keys d) -> ~ In k (Dict.keys (Dict.del d k)).
Proof.
  unfold Dict.keys. induction d as [|[k0 v0] d IH]; simpl; intros Hnd; [auto|].
  apply NoDup_cons in Hnd as [Hk Hnd].
  destruct (String.eqb_spec k0 k) as [->|Hne]; simpl.
  - now rewrite list_elem_of_In in Hk.
  - intros [?|?]; [congruence|]. now apply IH.
Qed.

Lemma calls_of_callers {W} (bus : MessageBus W) m c :
  In c (calls_of bus m) -> In c.1 (Dict.keys (subscribers bus)).
Proof.
  unfold calls_of, targets. intros Hc. apply in_map_iff in Hc as (sub & <- & Hsub). simpl.
  destruct (String.eqb (recipient m) "*").
  - apply in_map_iff. now exists sub.
  - destruct (Dict.get (subscribers bus) (recipient m)) as [h|] eqn:Hget; [|destruct Hsub].
    destruct Hsub as [<-|[]]. simpl. eapply dict_get_keys; eauto.
Qed.

Lemma deliver_loop_callers {W} fuel (st st' : DeliverState W) (keys : list string) :
  (forall c, In c (d_calls st) -> In c.1 keys) ->
  Dict.keys (subscribers (d_bus st)) = keys ->
  deliver_loop fuel st = Some st' ->
  forall c, In c (d_calls st') -> In c.1 keys.
Proof.
  revert st. induction fuel as [|fuel IH]; intros st Hc Hk; simpl; [discriminate|].
  destruct (queue (d_bus st)) as [|q0 qs]; [now intros [= <-]|].
  destruct (heappop Message_lt (q0 :: qs)) as [[m rest]|]; [|discriminate].
  destruct (deliver_message_spec st m rest) as (_ & Hcalls & Hsubs & _ & _).
  apply IH.
  - intros c. rewrite Hcalls. intros [H|H]%in_app_or; [auto|].
    rewrite <- Hk. eapply calls_of_callers; eauto.
  - now rewrite Hsubs.
Qed.

(** X10.  After [unsubscribe(agent_id)], no handler call of a
    [deliver()] goes to that agent, be the message addressed to it or to
    everyone. *)
Theorem unsubscribed_agent_is_not_called :
  forall W (bus : MessageBus W) (agent_id : string) (w : W) fuel st',
    NoDup (Dict.keys (subscribers bus)) ->
    deliver fuel (unsubscribe bus agent_id) w = Some st' ->
    forall c, In c (d_calls st') -> c.1 <> agent_id.
Proof.
  intros W bus a w fuel st' Hnd Hrun c Hc Heq.
  assert (In c.1 (Dict.keys (subscribers (unsubscribe bus a)))) as Hin.
  { eapply (deliver_loop_callers fuel (mkDeliver (unsubscribe bus a) w 0 [] [] []));
      [intros c0 []|reflexivity|exact Hrun|exact Hc]. }
  rewrite Heq in Hin. unfold unsubscribe in Hin.
  destruct (Dict.mem (subscribers bus) a) eqn:Hmem; cbn [subscribers] in Hin.
  - now apply (dict_keys_del_absent _ a Hnd).
  - unfold Dict.mem in Hmem. destruct (dict_get_Some _ _ Hin) as [h Hget].
    now rewrite Hget in Hmem.
Qed.

Lemma unsubscribed_agent_is_not_called_witness :
  exists st',
    deliver 10 (unsubscribe broadcast_bus "agent-2") [] = Some st'
    /\ forall c, In c (d_calls st') -> c.1 <> "agent-2".
Proof.
  destruct (deliver 10 (unsubscribe broadcast_bus "agent-2") []) as [st'|] eqn:Hrun;
    [|vm_compute in Hrun; discriminate].
  exists st'. split; [reflexivity|].
  apply (unsubscribed_agent_is_not_called _ broadcast_bus "agent-2" [] 10 st');
    [|exact Hrun].
  apply NoDup_cons. split; [|apply NoDup_singleton].
  intros H. apply list_elem_of_In in H. simpl in H. intuition discriminate.
Defined.

End MessageBusSpec.

(* ===================================================================== *)
(** * self_optimizer.py: clamping, persistence and the steps *)
(* ===================================================================== *)

Module OptimizerSpec.
Import SelfOptimizer DictSpec SelfOptimizerSpec.

(** ** Clamping *)

Lemma py_min_le_r a b : (py_min a b <= b)%Q.
Proof.
  unfold py_min. destruct (Qltb b a) eqn:H; [apply Qle_refl|now apply Qltb_ge].
Qed.

Lemma py_min_le_l a b : (py_min a b <= a)%Q.
Proof.
  unfold py_min. destruct (Qltb b a) eqn:H; [|apply Qle_refl].
  apply Qltb_lt in H. now apply Qlt_le_weak.
Qed.

Lemma py_max_ge_r a b : (b <= py_max a b)%Q.
Proof.
  unfold py_max. destruct (Qltb a b) eqn:H; [apply Qle_refl|now apply Qltb_ge].
Qed.

(** X12.  [clamp] and [is_valid] agree on a range that is not empty:
    the clamped value is valid, and a valid value is left as it is.  On
    an inverted range (maximum below minimum) nothing is valid and
    [clamp] returns the minimum, whatever the value. *)
Theorem clamp_and_is_valid_agree r v :
  ((min_value r <= max_value r)%Q -> is_valid r (clamp r v) = true)
  /\ (is_valid r v = true -> (clamp r v == v)%Q)
  /\ ((max_value r < min_value r)%Q ->
        clamp r v = min_value r /\ is_valid r v = false).
Proof.
  split; [|split].
  - intros Hr. destruct (clamp_in_range r v Hr) as [H1 H2].
    unfold is_valid. apply andb_true_iff. now rewrite !Qle_bool_iff.
  - unfold is_valid. intros H. apply andb_true_iff in H as [H1 H2].
    apply Qle_bool_iff in H1, H2. unfold clamp, py_max, py_min.
    destruct (Qltb v (max_value r)) eqn:Hv.
    + destruct (Qltb (min_value r) v) eqn:Hm; [reflexivity|].
      apply Qltb_ge in Hm. now apply Qle_antisym.
    + apply Qltb_ge in Hv.
      assert (v == max_value r)%Q as Heq by now apply Qle_antisym.
      destruct (Qltb (min_value r) (max_value r)) eqn:Hm; [now symmetry|].
      apply Qltb_ge in Hm. apply Qle_antisym; [exact H1|now rewrite Heq].
  - intros Hr. split.
    + unfold clamp. unfold py_max at 1.
      destruct (Qltb (min_value r) (py_min (max_value r) v)) eqn:H; [|reflexivity].
      apply Qltb_lt in H. exfalso. apply (Qlt_irrefl (min_value r)).
      eapply Qlt_le_trans; [exact H|]. eapply Qle_trans; [apply py_min_le_l|].
      now apply Qlt_le_weak.
    + unfold is_valid. apply andb_false_iff.
      destruct (Qle_bool (min_value r) v) eqn:H1; [right|now left].
      apply Qle_bool_iff in H1. apply not_true_is_false. intros H2.
      apply Qle_bool_iff in H2. apply (Qlt_irrefl (min_value r)).
      eapply Qle_lt_trans; [exact H1|]. eapply Qle_lt_trans; [exact H2|exact Hr].
Qed.

Lemma clamp_and_is_valid_agree_witness :
  is_valid (mkRange 10 120 10) (clamp (mkRange 10 120 10) 1000) = true
  /\ (clamp (mkRange 10 120 10) 30 == 30)%Q
  /\ clamp (mkRange 120 10 10) 30 = 120%Q.
Proof.
  split; [|split].
  - apply (clamp_and_is_valid_agree (mkRange 10 120 10) 1000). discriminate.
  - apply (clamp_and_is_valid_agree (mkRange 10 120 10) 30). reflexivity.
  - apply (clamp_and_is_valid_agree (mkRange 120 10 10) 30). reflexivity.
Defined.

(** ** Save and load *)










(** ** The recommendations *)

(** X14.  Every recommendation is for a registered parameter.  An
    "increase" suggests at most the parameter's maximum; a "decrease"
    suggests at least its minimum and is only made for a name containing
    "iteration".  With no outcome recorded only "decrease" is
    recommended. *)
Theorem recommendations_respect_the_range opt name r :
  In (name, r) (get_recommendations opt) ->
  exists p, In (name, p) (parameters opt)
    /\ ((action r = "increase" /\ (suggested_value r <= max_value (range p))%Q)
        \/ (action r = "decrease" /\ (min_value (range p) <= suggested_value r)%Q
            /\ contains "iteration" (lower name) = true))
    /\ (outcomes opt = [] -> action r = "decrease").
Proof.
  unfold get_recommendations. cbv zeta. intros Hin.
  apply list_elem_of_In, list_elem_of_omap in Hin as ([k p] & Hkp & Hrec).
  apply list_elem_of_In in Hkp. cbn [fst snd] in Hrec.
  set (recent := if 20 <? length (outcomes opt) then _ else _) in *.
  destruct (recommend recent _ k p) as [r'|] eqn:Hr; [|discriminate].
  injection Hrec as -> ->. exists p. split; [exact Hkp|].
  unfold recommend in Hr. cbv zeta in Hr.
  destruct (contains "timeout" (lower name) && _) eqn:H1.
  { injection Hr as <-. split.
    - left. split; [reflexivity|apply py_min_le_r].
    - intros Hnil. exfalso. subst recent. rewrite Hnil in H1. simpl in H1.
      apply andb_true_iff in H1 as [_ H1]. now vm_compute in H1. }
  destruct (contains "retry" (lower name) && _) eqn:H2.
  { injection Hr as <-. split.
    - left. split; [reflexivity|apply py_min_le_r].
    - intros Hnil. exfalso. subst recent. rewrite Hnil in H2. simpl in H2.
      apply andb_true_iff in H2 as [_ H2]. now vm_compute in H2. }
  destruct (Qltb (9 # 10) _ && contains "iteration" (lower name)) eqn:H3; [|discriminate].
  injection Hr as <-. apply andb_true_iff in H3 as [_ H3]. split; [|reflexivity].
  right. split; [reflexivity|]. split; [apply py_max_ge_r|exact H3].
Qed.

Lemma recommendations_respect_the_range_witness :
  exists r p,
    In ("timeout", r) (get_recommendations sample_optimizer)
    /\ In ("timeout", p) (parameters sample_optimizer)
    /\ action r = "increase"
    /\ (suggested_value r <= max_value (range p))%Q.
Proof.
  destruct (get_recommendations sample_optimizer) as [|[name r] l] eqn:E;
    [vm_compute in E; discriminate|].
  assert (name = "timeout") as -> by (vm_compute in E; now injection E).
  destruct (recommendations_respect_the_range sample_optimizer "timeout" r)
    as (p & Hp & Hcase & _); [rewrite E; now left|].
  exists r, p. split; [now left|]. split; [exact Hp|].
  destruct Hcase as [[Ha Hs]|[Ha _]]; [auto|].
  vm_compute in E. injection E as <- _. discriminate.
Defined.


(** ** What every step keeps *)

Section Kept.
Variable P : string * TuningParameter -> Prop.
Hypothesis P_adjust : forall k p v now, P (k, p) -> P (k, adjust p v now).

Lemma dict_set_kept ps k p :
  Forall P ps -> P (k, p) -> Forall P (Dict.set ps k p).
Proof.
  intros Hps Hp. induction Hps as [|[k' p'] ps Hx Hps IH]; simpl.
  - repeat constructor. exact Hp.
  - destruct (String.eqb k' k); constructor; auto.
Qed.

Lemma dict_get_kept ps k p :
  Forall P ps -> Dict.get ps k = Some p -> P (k, p).
Proof.
  intros Hps. induction Hps as [|[k' p'] ps Hx Hps IH]; simpl; [discriminate|].
  destruct (String.eqb_spec k' k) as [->|_]; [|assumption]. now intros [= <-].
Qed.

Lemma adjust_at_kept ps name v w :
  Forall P ps -> Forall P (adjust_at ps name v w).1.
Proof.
  intros Hps. unfold adjust_at.
  destruct (Dict.get ps name) as [p|] eqn:Hget; [|assumption].
  simpl. apply dict_set_kept; [assumption|].
  apply P_adjust. now apply (dict_get_kept ps).
Qed.

Lemma hill_step_kept rate acc rec :
  Forall P acc.1 -> Forall P (hill_step rate acc rec).1.
Proof.
  destruct acc as [ps w]. simpl. intros Hps.
  destruct (Dict.get ps rec.1); [|assumption]. now apply adjust_at_kept.
Qed.

Lemma random_step_kept acc name :
  Forall P acc.1 -> Forall P (random_step acc name).1.
Proof.
  destruct acc as [ps w]. simpl. intros Hps.
  destruct (Dict.get ps name); [|assumption].
  destruct (Qltb _ _); [|assumption]. now apply adjust_at_kept.
Qed.

Lemma annealing_step_kept rate temperature acc rec :
  Forall P acc.1 -> Forall P (annealing_step rate temperature acc rec).1.
Proof.
  destruct acc as [ps w]. simpl. intros Hps.
  destruct (Dict.get ps rec.1); [|assumption].
  destruct (_ || _); [|assumption]. now apply adjust_at_kept.
Qed.

Lemma foldl_kept {B} (f : list (string * TuningParameter) * Oracle -> B ->
                          list (string * TuningParameter) * Oracle) l acc :
  (forall acc b, Forall P acc.1 -> Forall P (f acc b).1) ->
  Forall P acc.1 -> Forall P (foldl f acc l).1.
Proof.
  intros Hf. revert acc. induction l as [|b l IH]; intros acc Hacc; simpl; auto.
Qed.

Lemma optimize_step_kept opt w :
  Forall P (parameters opt) -> Forall P (parameters (optimize_step opt w).1).
Proof.
  unfold optimize_step. intros Hopt.
  destruct (strategy opt).
  - pose proof (foldl_kept (hill_step (learning_rate opt)) (get_recommendations opt)
                  (parameters opt, w) (hill_step_kept _) Hopt) as H.
    destruct (foldl _ _ _). exact H.
  - pose proof (foldl_kept (annealing_step (learning_rate opt)
                            (py_max (1 # 10) (1 - Qnat (length (outcomes opt)) / 100)%Q))
                  (get_recommendations opt) (parameters opt, w)
                  (annealing_step_kept _ _) Hopt) as H.
    destruct (foldl _ _ _). exact H.
  - pose proof (foldl_kept random_step (Dict.keys (parameters opt))
                  (parameters opt, w) random_step_kept Hopt) as H.
    destruct (foldl _ _ _). exact H.
  - exact Hopt.
Qed.
End Kept.

Lemma well_kept_adjust k p v now : well_kept (k, p) -> well_kept (k, adjust p v now).
Proof.
  intros [Hname _]. split; [exact Hname|]. unfold tracked, adjust. simpl.
  eexists. split; [apply last_snoc|reflexivity].
Qed.

Lemma run_call_kept st c :
  is_load c = false ->
  Forall well_kept (parameters st.1) -> Forall well_kept (parameters (run_call st c).1).
Proof.
  destruct st as [opt w]. destruct c; simpl; intros Hc Hopt; try exact Hopt.
  - apply dict_set_kept; [assumption|]. split; [reflexivity|].
    eexists. split; reflexivity.
  - unfold adjust_parameter, get_parameter.
    destruct (Dict.get (parameters opt) name) as [p|] eqn:Hget; [|assumption].
    simpl. apply dict_set_kept; [assumption|].
    apply well_kept_adjust. eapply dict_get_kept; eauto.
  - now apply (optimize_step_kept well_kept well_kept_adjust).
  - discriminate.
Qed.

(** X13.  Whatever is called on a new optimizer ([register_parameter],
    [adjust], [record_outcome], [optimize_step], the setters), every
    parameter is stored under its own name and its history is never
    empty: the last entry is the current value. *)
Theorem history_ends_with_the_current_value rate strategy w calls :
  Forall (fun c => is_load c = false) calls ->
  Forall well_kept
    (parameters (foldl run_call (new_optimizer rate strategy, w) calls).1).
Proof.
  assert (forall st, Forall (fun c => is_load c = false) calls ->
            Forall well_kept (parameters st.1) ->
            Forall well_kept (parameters (foldl run_call st calls).1)) as H.
  { induction calls as [|c calls IH]; intros st Hcalls Hst; simpl; [exact Hst|].
    apply Forall_cons in Hcalls as [Hc Hcalls].
    apply IH; [exact Hcalls|]. now apply run_call_kept. }
  intros Hcalls. apply H; [exact Hcalls|constructor].
Qed.

Lemma history_ends_with_the_current_value_witness :
  Forall well_kept
    (parameters (foldl run_call (new_optimizer (1 # 10) HILL_CLIMBING, sample_oracle)
                       sample_calls).1).
Proof.
  apply history_ends_with_the_current_value. repeat constructor.
Defined.

(** ** What [optimize_step] leaves alone *)

Lemma extends_refl p : extends p p.
Proof. split; [reflexivity|]. split; reflexivity. Qed.

Lemma extends_trans p1 p2 p3 : extends p1 p2 -> extends p2 p3 -> extends p1 p3.
Proof.
  intros (H1 & H2 & H3) (H4 & H5 & H6).
  split; [congruence|]. split; [congruence|]. now transitivity (history p2).
Qed.

Lemma extends_adjust p v now : extends p (adjust p v now).
Proof. split; [reflexivity|]. split; [reflexivity|]. now apply prefix_app_r. Qed.

Lemma later_refl ps : later ps ps.
Proof.
  induction ps; constructor; [|assumption]. split; [reflexivity|apply extends_refl].
Qed.

Lemma later_trans ps1 ps2 ps3 : later ps1 ps2 -> later ps2 ps3 -> later ps1 ps3.
Proof.
  apply Forall2_trans. intros x y z [H1 H2] [H3 H4].
  split; [congruence|]. eapply extends_trans; eauto.
Qed.

Lemma later_set ps k p p' :
  Dict.get ps k = Some p -> extends p p' -> later ps (Dict.set ps k p').
Proof.
  intros Hget Hext. induction ps as [|[k0 p0] ps IH]; simpl in *; [discriminate|].
  destruct (String.eqb_spec k0 k) as [->|_].
  - injection Hget as ->. constructor; [now split|apply later_refl].
  - constructor; [split; [reflexivity|apply extends_refl]|now apply IH].
Qed.

Lemma adjust_at_later ps0 ps name v w :
  later ps0 ps -> later ps0 (adjust_at ps name v w).1.
Proof.
  intros H. unfold adjust_at.
  destruct (Dict.get ps name) as [p|] eqn:Hget; [|assumption]. simpl.
  eapply later_trans; [exact H|]. eapply later_set; [exact Hget|apply extends_adjust].
Qed.

Lemma foldl_later {B} ps0 (f : list (string * TuningParameter) * Oracle -> B ->
                        list (string * TuningParameter) * Oracle) l acc :
  (forall acc b, later ps0 acc.1 -> later ps0 (f acc b).1) ->
  later ps0 acc.1 -> later ps0 (foldl f acc l).1.
Proof.
  intros Hf. revert acc. induction l as [|b l IH]; intros acc Hacc; simpl; auto.
Qed.

(** X16.  [optimize_step] counts the step and leaves the outcomes, the
    learning rate and the strategy alone.  It adds and removes no
    parameter; each parameter keeps its name and range and its history
    only grows at the end.  Under GRADIENT_DESCENT the parameters do not
    change at all. *)
Theorem optimize_step_only_adjusts opt w :
  optimization_steps (optimize_step opt w).1 = S (optimization_steps opt)
  /\ outcomes (optimize_step opt w).1 = outcomes opt
  /\ learning_rate (optimize_step opt w).1 = learning_rate opt
  /\ strategy (optimize_step opt w).1 = strategy opt
  /\ later (parameters opt) (parameters (optimize_step opt w).1)
  /\ (strategy opt = GRADIENT_DESCENT ->
      parameters (optimize_step opt w).1 = parameters opt).
Proof.
  unfold optimize_step.
  set (r := match strategy opt with
            | HILL_CLIMBING => _ | SIMULATED_ANNEALING => _
            | RANDOM_SEARCH => _ | GRADIENT_DESCENT => _ end).
  assert (later (parameters opt) r.1) as Hlater.
  { subst r. destruct (strategy opt).
    - apply foldl_later; [|apply later_refl].
      intros [ps w'] rec H. simpl.
      destruct (Dict.get ps rec.1); [|assumption]. now apply adjust_at_later.
    - apply foldl_later; [|apply later_refl].
      intros [ps w'] rec H. simpl.
      destruct (Dict.get ps rec.1); [|assumption].
      destruct (_ || _); [|assumption]. now apply adjust_at_later.
    - apply foldl_later; [|apply later_refl].
      intros [ps w'] name H. simpl.
      destruct (Dict.get ps name); [|assumption].
      destruct (Qltb _ _); [|assumption]. now apply adjust_at_later.
    - apply later_refl. }
  assert (strategy opt = GRADIENT_DESCENT -> r.1 = parameters opt) as Hgd.
  { intros H. subst r. now rewrite H. }
  destruct r as [ps w']. simpl in *. auto 10.
Qed.

(** ** Correlations *)

Lemma length_slice_from {A} (l : list A) (k : nat) :
  0 < k -> length (slice_from l (- Z.of_nat k)) <= k.
Proof.
  intros Hk. unfold slice_from. cbv zeta. rewrite length_drop.
  destruct (Z.ltb_spec (- Z.of_nat k) 0); lia.
Qed.

Lemma count_type_le t l : count_type t l <= length l.
Proof.
  unfold count_type. induction l as [|o l IH]; simpl; [lia|].
  destruct (outcome_type_eqb _ _); simpl; lia.
Qed.

(** X15.  Every correlation [get_correlations] reports lies between -1
    and 1, and is reported for a registered parameter with at least two
    history entries, when at least two outcomes are recorded. *)
Theorem correlations_are_bounded opt name c :
  In (name, c) (get_correlations opt) ->
  (-1 <= c <= 1)%Q
  /\ exists p, In (name, p) (parameters opt)
               /\ 2 <= length (history p) /\ 2 <= length (outcomes opt).
Proof.
  unfold get_correlations. intros Hin.
  apply list_elem_of_In, list_elem_of_omap in Hin as ([k p] & Hkp & Hc).
  apply list_elem_of_In in Hkp. cbn [fst snd] in Hc.
  destruct (correlation (outcomes opt) p) as [c'|] eqn:Hcorr; [|discriminate].
  injection Hc as -> ->. unfold correlation in Hcorr.
  destruct (Nat.leb_spec 2 (length (history p))) as [Hh|]; [|discriminate].
  destruct (Nat.leb_spec 2 (length (outcomes opt))) as [Ho|]; [|discriminate].
  cbn [andb] in Hcorr.
  destruct (last (history p)) as [newest|]; [|discriminate].
  destruct (head (history p)) as [oldest|]; [|discriminate].
  cbv zeta in Hcorr.
  destruct (negb _); [|discriminate].
  set (n := count_type SUCCESS (slice_from (outcomes opt) (-5))) in *.
  assert (n <= 5) as Hn.
  { subst n. etransitivity; [apply count_type_le|]. apply (length_slice_from _ 5). lia. }
  assert (0 <= Qnat n <= 5)%Q as [H0 H5].
  { unfold Qnat. split.
    - change 0%Q with (inject_Z 0). rewrite <- Zle_Qle. lia.
    - change 5%Q with (inject_Z 5). rewrite <- Zle_Qle. lia. }
  split; [|eauto].
  destruct (Qltb 0 _); injection Hcorr as <-.
  - split.
    + apply Qle_trans with 0%Q; [discriminate|]. apply Qle_shift_div_l; [reflexivity|].
      now rewrite Qmult_0_l.
    + apply Qle_shift_div_r; [reflexivity|]. now rewrite Qmult_1_l.
  - split.
    + apply Qle_shift_div_l; [reflexivity|].
      apply Qle_trans with (- (5))%Q; [discriminate|now apply Qopp_le_compat].
    + apply Qle_trans with 0%Q; [|discriminate]. apply Qle_shift_div_r; [reflexivity|].
      apply Qle_trans with (- 0)%Q; [now apply Qopp_le_compat|discriminate].
Qed.

Lemma correlations_are_bounded_witness :
  exists c, In ("timeout", c) (get_correlations tuned_optimizer)
            /\ (-1 <= c <= 1)%Q.
Proof.
  destruct (get_correlations tuned_optimizer) as [|[name c] l] eqn:E;
    [vm_compute in E; discriminate|].
  assert (name = "timeout") as -> by (vm_compute in E; now injection E).
  exists c. split; [now left|].
  apply (correlations_are_bounded tuned_optimizer "timeout" c). rewrite E. now left.
Defined.

End OptimizerSpec.

(* ===================================================================== *)
(** * loop_control.py: complexity, limits and the controller *)
(* ===================================================================== *)

Module LoopControllerSpec.
Import LoopControl LoopControlSpec.

(** ** Complexity *)

Lemma file_score_mono a b : (a <= b)%Z -> (file_score a <= file_score b)%Z.
Proof.
  unfold file_score. intros H.
  repeat match goal with |- context [(?x <=? ?y)%Z] => destruct (Z.leb_spec x y) end; lia.
Qed.

Lemma test_score_mono a b : (a <= b)%Z -> (test_score a <= test_score b)%Z.
Proof.
  unfold test_score. intros H.
  repeat match goal with
         | |- context [(?x <=? ?y)%Z] => destruct (Z.leb_spec x y)
         | |- context [(?x <? ?y)%Z] => destruct (Z.ltb_spec x y)
         end; lia.
Qed.

Lemma depth_score_mono a b : (a <= b)%Z -> (depth_score a <= depth_score b)%Z.
Proof.
  unfold depth_score. intros H.
  repeat match goal with |- context [(?x <=? ?y)%Z] => destruct (Z.leb_spec x y) end; lia.
Qed.

(** X17.  [from_metrics] is monotone: with no fewer files, tests and
    dependency levels the complexity is not lower. *)
Theorem from_metrics_is_monotone f f' t t' d d' :
  (f <= f')%Z -> (t <= t')%Z -> (d <= d')%Z ->
  (complexity_value (from_metrics f t d)
   <= complexity_value (from_metrics f' t' d'))%Z.
Proof.
  intros Hf Ht Hd. unfold from_metrics. cbv zeta.
  pose proof (file_score_mono f f' Hf). pose proof (test_score_mono t t' Ht).
  pose proof (depth_score_mono d d' Hd).
  repeat match goal with |- context [(?x <=? ?y)%Z] => destruct (Z.leb_spec x y) end;
    simpl; lia.
Qed.

Lemma from_metrics_is_monotone_witness :
  (complexity_value (from_metrics 1 0 0) <= complexity_value (from_metrics 21 10 5))%Z.
Proof. apply from_metrics_is_monotone; lia. Defined.

(** ** The iteration limit *)


(** ** What the calls keep *)

Section Hash.
Variable py_hash : string -> Z.



Lemma record_error_again s e :
  last_error_hash s = Some (str_int (py_hash e)) ->
  consecutive_same_error (record_error py_hash s e) = S (consecutive_same_error s).
Proof.
  intros H. rewrite record_error_counter, H. now rewrite String.eqb_refl.
Qed.

Lemma record_error_fields s e :
  stuck_threshold (record_error py_hash s e) = stuck_threshold s
  /\ 1 <= consecutive_same_error (record_error py_hash s e).
Proof.
  split; [reflexivity|]. rewrite record_error_counter.
  destruct (last_error_hash s); [|lia]. destruct (String.eqb _ _); lia.
Qed.

Lemma repeated_error s e k :
  let s' := Nat.iter (S k) (fun s => record_error py_hash s e) s in
  S k <= consecutive_same_error s'
  /\ last_error_hash s' = Some (str_int (py_hash e))
  /\ stuck_threshold s' = stuck_threshold s.
Proof.
  induction k as [|k IH]; cbv zeta.
  - simpl. split; [apply record_error_fields|].
    split; [apply record_error_latch|reflexivity].
  - destruct IH as (H1 & H2 & H3). rewrite Nat.iter_succ.
    split; [|split; [apply record_error_latch|now rewrite <- H3]].
    rewrite record_error_again by exact H2. lia.
Qed.

Lemma sorted_snoc (l : list nat) n :
  StronglySorted lt l -> Forall (fun x => x < n) l -> StronglySorted lt (l ++ [n]).
Proof.
  intros Hs Hall. apply StronglySorted_app_2; [|exact Hs|repeat constructor].
  intros x y Hx Hy. apply list_elem_of_singleton in Hy as ->.
  rewrite Forall_forall in Hall. now apply Hall.
Qed.

Lemma amend_last_spec hist it f hist' :
  (forall r, r_iteration (f r) = r_iteration r) ->
  amend_last hist it f = Some hist' ->
  map r_iteration hist' = map r_iteration hist.
Proof.
  intros Hf. unfold amend_last.
  destruct (last hist) as [r|] eqn:Hlast; [|discriminate].
  destruct (r_iteration r =? it); [|discriminate]. intros [= <-].
  apply last_Some in Hlast as [front ->].
  rewrite length_app. simpl. replace (length front + 1 - 1) with (length front) by lia.
  rewrite take_app_length, !map_app. simpl. now rewrite Hf.
Qed.

Lemma amend_last_none hist it f :
  amend_last hist it f = None ->
  Forall (fun r => r_iteration r <= it) hist -> StronglySorted lt (map r_iteration hist) ->
  Forall (fun x => x < it) (map r_iteration hist).
Proof.
  unfold amend_last. intros Hnone Hle Hs.
  destruct (last hist) as [r|] eqn:Hlast.
  2:{ apply last_None in Hlast as ->. constructor. }
  apply last_Some in Hlast as [front ->].
  destruct (Nat.eqb_spec (r_iteration r) it) as [|Hne]; [discriminate|].
  apply Forall_app in Hle as [_ Hr]. apply Forall_cons in Hr as [Hr _].
  rewrite map_app in *. simpl in *.
  assert (r_iteration r < it) as Hlt by lia.
  apply Forall_app. split; [|repeat constructor; exact Hlt].
  apply Forall_forall. intros x Hx.
  assert (x < r_iteration r); [|lia].
  eapply StronglySorted_app_1_elem_of; [exact Hs|exact Hx|left].
Qed.

Lemma Forall_map_iteration (P : nat -> Prop) hist hist' :
  map r_iteration hist' = map r_iteration hist ->
  Forall (fun r => P (r_iteration r)) hist -> Forall (fun r => P (r_iteration r)) hist'.
Proof.
  revert hist. induction hist' as [|r' hist' IH]; intros [|r hist] Hmap H;
    try discriminate; [constructor|].
  injection Hmap as Hr Hmap. apply Forall_cons in H as [H1 H2].
  constructor; [now rewrite Hr|eauto].
Qed.

Lemma history_ok_step c call :
  history_ok (state c) -> history_ok (state (controller_step py_hash c call)).
Proof.
  intros [Hs Hle]. destruct call; simpl.
  - split; simpl.
    + rewrite map_app. simpl. apply sorted_snoc; [exact Hs|].
      apply Forall_fmap. eapply Forall_impl; [exact Hle|]. simpl. lia.
    + apply Forall_app. split; [|repeat constructor].
      eapply Forall_impl; [exact Hle|]. simpl. lia.
  - unfold record_error, history_ok. cbv zeta. simpl.
    destruct (amend_last _ _ _) as [hist|] eqn:Ha; [|split; assumption].
    apply amend_last_spec in Ha; [|reflexivity].
    split; [now rewrite Ha|].
    now apply (Forall_map_iteration (fun x => x <= iteration (state c)) (history (state c))).
  - unfold record_progress, history_ok. cbv zeta. simpl.
    destruct (amend_last _ _ _) as [hist|] eqn:Ha.
    + apply amend_last_spec in Ha; [|reflexivity].
      split; [now rewrite Ha|].
      now apply (Forall_map_iteration (fun x => x <= iteration (state c)) (history (state c))).
    + split.
      * rewrite map_app. simpl. apply sorted_snoc; [exact Hs|].
        eapply amend_last_none; eauto.
      * apply Forall_app. split; [exact Hle|repeat constructor].
  - unfold should_stop.
    destruct (_ <=? _)%Z; [split; assumption|].
    destruct (is_stuck _); [split; assumption|].
    destruct (has_no_progress _); split; assumption.
Qed.

End Hash.

(** ** Stopping *)



(** ** Stuck detection *)

(** X19.  After [k] calls of [record_error] in a row with the same
    message, the count of consecutive errors is at least [k]; once [k]
    reaches the stuck threshold, [is_stuck] holds and [should_stop]
    returns true. *)
Theorem repeated_error_is_detected py_hash s e k :
  0 < k ->
  let s' := Nat.iter k (fun s => record_error py_hash s e) s in
  k <= consecutive_same_error s'
  /\ (stuck_threshold s <= k ->
      is_stuck s' = true
      /\ forall c, state c = s' -> (should_stop c).1 = true).
Proof.
  intros Hk. destruct k as [|k]; [lia|]. cbv zeta.
  destruct (repeated_error py_hash s e k) as (H1 & _ & H3).
  split; [exact H1|]. intros Hth.
  assert (is_stuck (Nat.iter (S k) (fun s => record_error py_hash s e) s) = true) as Hstuck.
  { unfold is_stuck. apply Nat.leb_le. rewrite H3. lia. }
  split; [exact Hstuck|]. intros c Hc. unfold should_stop.
  destruct (_ <=? _)%Z; [reflexivity|]. now rewrite Hc, Hstuck.
Qed.

Lemma repeated_error_is_detected_witness :
  is_stuck (Nat.iter 5 (fun s => record_error digits_hash s "boom") new_state) = true.
Proof.
  apply (repeated_error_is_detected digits_hash new_state "boom" 5); simpl; lia.
Defined.

(** X20.  [record_progress] with a changed file or a passed test resets
    both counters, so the next [record_error] counts 1 even when it
    repeats the error recorded before the progress. *)
Theorem progress_resets_the_error_count py_hash s files_changed tests_passed now e :
  (0 < files_changed)%Z \/ (0 < tests_passed)%Z ->
  let s1 := record_progress s files_changed tests_passed now in
  consecutive_same_error s1 = 0 /\ consecutive_no_progress s1 = 0
  /\ consecutive_same_error (record_error py_hash s1 e) = 1.
Proof.
  intros Hp. cbv zeta.
  assert ((0 <? files_changed)%Z || (0 <? tests_passed)%Z = true) as Hb.
  { apply orb_true_iff. destruct Hp; [left|right]; now apply Z.ltb_lt. }
  rewrite record_error_counter. unfold record_progress. cbv zeta. simpl.
  rewrite Hb. auto.
Qed.

Lemma progress_resets_the_error_count_witness :
  consecutive_same_error
    (record_error digits_hash
       (record_progress (record_error digits_hash new_state "boom") 1 0 7) "boom") = 1.
Proof.
  apply (progress_resets_the_error_count digits_hash
           (record_error digits_hash new_state "boom") 1 0 7 "boom"). left. lia.
Defined.

(** ** The history *)

(** X21.  Whatever is called on a new controller, its history holds at
    most one record per iteration, in increasing order of iteration, and
    none for an iteration after the current one. *)
Theorem one_record_per_iteration py_hash cfg cx b calls :
  let c := foldl (controller_step py_hash) (new_controller cfg cx b) calls in
  StronglySorted lt (map r_iteration (get_history c))
  /\ Forall (fun r => r_iteration r <= iteration (state c)) (get_history c).
Proof.
  cbv zeta.
  assert (forall c, history_ok (state c) ->
            history_ok (state (foldl (controller_step py_hash) c calls))) as H.
  { induction calls as [|call calls IH]; intros c Hc; simpl; [exact Hc|].
    apply IH. now apply history_ok_step. }
  apply H. split; constructor.
Qed.

End LoopControllerSpec.

(* ===================================================================== *)
(** * dependency_graph.py: ready features and the graph under construction *)
(* ===================================================================== *)

Module DependencyGraphPlan.
Import DependencyGraph DictSpec DependencyGraphSearch DependencyGraphBuild.

(** ** Sorting by a key *)

Lemma insert_key_perm {A} (key : A -> Z) x l : insert_key key x l ≡ₚ x :: l.
Proof.
  induction l as [|y l IH]; simpl; [reflexivity|].
  destruct (key x <? key y)%Z; [reflexivity|]. rewrite IH. apply perm_swap.
Qed.

Lemma sort_key_perm {A} (key : A -> Z) l : sort_key key l ≡ₚ l.
Proof.
  unfold sort_key.
  assert (forall acc, foldl (fun acc x => insert_key key x acc) acc l ≡ₚ acc ++ l) as H.
  { induction l as [|x l IH]; intros acc; simpl; [now rewrite app_nil_r|].
    rewrite IH, insert_key_perm. simpl. apply Permutation_middle. }
  apply (H []).
Qed.

Lemma insert_key_sorted {A} (key : A -> Z) x l :
  StronglySorted (key_le key) l -> StronglySorted (key_le key) (insert_key key x l).
Proof.
  induction 1 as [|y l Hs IH Hall]; simpl; [repeat constructor|].
  destruct (Z.ltb_spec (key x) (key y)) as [Hlt|Hge].
  - constructor; [now constructor|]. constructor; [unfold key_le; lia|].
    eapply Forall_impl; [exact Hall|]. unfold key_le. intros; lia.
  - constructor; [exact IH|]. rewrite insert_key_perm. now constructor.
Qed.

Lemma sort_key_sorted {A} (key : A -> Z) l : StronglySorted (key_le key) (sort_key key l).
Proof.
  unfold sort_key.
  assert (forall acc, StronglySorted (key_le key) acc ->
            StronglySorted (key_le key) (foldl (fun acc x => insert_key key x acc) acc l)) as H.
  { induction l as [|x l IH]; intros acc Hacc; simpl; [exact Hacc|].
    apply IH. now apply insert_key_sorted. }
  apply H. constructor.
Qed.

Lemma sort_key_In {A} (key : A -> Z) l x : In x (sort_key key l) <-> In x l.
Proof. rewrite <- !list_elem_of_In. now rewrite sort_key_perm. Qed.

(** ** Ready and blocked *)

(** X22.  No feature is both in [get_ready_features] and in
    [get_blocked_features]; every stored feature whose status is PENDING
    or BLOCKED is in one of them (a feature of status BLOCKED whose
    dependencies are complete is listed as ready); both list only stored
    features that are not COMPLETE; and the ready list is in order of
    priority. *)
Theorem ready_and_blocked_split_the_open_features g :
  (forall f, In f (get_ready_features g) -> ~ In f (get_blocked_features g))
  /\ (forall f, In f (Dict.values (features g)) ->
                status f = PENDING \/ status f = BLOCKED ->
                In f (get_ready_features g) \/ In f (get_blocked_features g))
  /\ (forall f, In f (get_ready_features g) \/ In f (get_blocked_features g) ->
                In f (Dict.values (features g)) /\ status f <> COMPLETE)
  /\ StronglySorted (key_le priority) (get_ready_features g).
Proof.
  unfold get_ready_features, get_blocked_features.
  split; [|split; [|split]].
  - intros f Hr Hb. apply sort_key_In, filter_In in Hr as [_ Hr].
    apply filter_In in Hb as [_ Hb].
    destruct (deps_complete g f); simpl in *.
    + now rewrite andb_false_r in Hb.
    + now rewrite andb_false_r in Hr.
  - intros f Hf Hs. rewrite sort_key_In, !filter_In.
    unfold is_complete, is_in_progress.
    destruct (deps_complete g f); [left|right]; (split; [exact Hf|]);
      destruct Hs as [-> | ->]; reflexivity.
  - intros f [Hr|Hb].
    + apply sort_key_In, filter_In in Hr as [Hf Hr]. split; [exact Hf|].
      unfold is_complete in Hr. intros Hc. now rewrite Hc in Hr.
    + apply filter_In in Hb as [Hf Hb]. split; [exact Hf|].
      unfold is_complete in Hb. intros Hc. now rewrite Hc in Hb.
  - apply sort_key_sorted.
Qed.

Lemma ready_and_blocked_split_the_open_features_witness :
  In (sample_feature "F1" 9 []) (get_ready_features diamond)
  \/ In (sample_feature "F1" 9 []) (get_blocked_features diamond).
Proof.
  destruct (ready_and_blocked_split_the_open_features diamond) as (_ & H & _).
  apply H; [|now left]. vm_compute. auto.
Defined.

(** ** No deadlock *)

Lemma key_of_feature g k f : wf g -> In (k, f) (features g) -> Dict.get (features g) k = Some f.
Proof.
  intros Hwf Hin. pose proof (wf_keys g Hwf) as Hnd.
  unfold Dict.keys in Hnd.
  induction (features g) as [|[k0 f0] d IH]; simpl in *; [contradiction|].
  apply NoDup_cons in Hnd as [Hk Hnd].
  destruct Hin as [[= -> ->]|Hin]; [now rewrite String.eqb_refl|].
  destruct (String.eqb_spec k0 k) as [->|_]; [|auto].
  exfalso. apply Hk, list_elem_of_In, in_map_iff. now exists (k, f).
Qed.

Lemma open_feature_has_open_root g :
  wf g -> closed g ->
  forall x, safe g x ->
  forall f, Dict.get (features g) x = Some f -> is_complete f = false ->
  exists f', In f' (Dict.values (features g)) /\ is_complete f' = false
             /\ deps_complete g f' = true.
Proof.
  intros Hwf Hclosed x Hsafe.
  induction Hsafe as [x _ IH]. intros f Hget Hopen.
  destruct (deps_complete g f) eqn:Hdeps.
  { exists f. split; [eapply dict_get_values; eauto|auto]. }
  unfold deps_complete in Hdeps.
  apply not_true_iff_false in Hdeps. rewrite forallb_forall in Hdeps.
  destruct (existsb (fun dep_id => negb match Dict.get (features g) dep_id with
                                        | Some dep => is_complete dep
                                        | None => false
                                        end) (dependencies f)) eqn:Hex.
  2:{ exfalso. apply Hdeps. intros d Hd.
      rewrite <- not_true_iff_false, existsb_exists in Hex.
      destruct (match Dict.get (features g) d with
                | Some dep => is_complete dep | None => false end) eqn:E; [reflexivity|].
      exfalso. apply Hex. exists d. rewrite E. auto. }
  apply existsb_exists in Hex as (d & Hd & Hopen_d).
  assert (In d (get_dependencies g x)) as Hedge.
  { eapply wf_declared; eauto. now apply dict_get_In. }
  destruct (dict_get_Some (features g) d (Hclosed x d Hedge)) as [fd Hfd].
  rewrite Hfd in Hopen_d. apply negb_true_iff in Hopen_d.
  eapply IH; eauto.
Qed.

Lemma closed_diamond : closed diamond.
Proof.
  intros x d Hd.
  assert (mem d (Dict.keys (features diamond)) = true) as Hm; [|now apply mem_In].
  assert (forallb (fun x => forallb (fun d => mem d (Dict.keys (features diamond)))
                                    (get_dependencies diamond x))
                  (Dict.keys (edges diamond)) = true) as Hall by reflexivity.
  rewrite forallb_forall in Hall.
  unfold get_dependencies in Hd.
  destruct (Dict.get (edges diamond) x) as [ds|] eqn:Hget; [|contradiction].
  specialize (Hall x (dict_get_keys _ _ _ Hget)).
  rewrite forallb_forall in Hall. apply Hall.
  unfold get_dependencies. now rewrite Hget.
Qed.

(** X23.  In a graph without a cycle whose dependencies are all stored
    features, as long as some feature is not COMPLETE, either
    [get_ready_features] returns a feature or some feature is
    IN_PROGRESS: the plan is never stuck. *)
Theorem acyclic_plan_is_never_stuck g :
  wf g -> closed g -> has_cycle g = Some false ->
  (exists f, In f (Dict.values (features g)) /\ status f <> COMPLETE) ->
  get_ready_features g <> []
  \/ exists f, In f (Dict.values (features g)) /\ status f = IN_PROGRESS.
Proof.
  intros Hwf Hclosed Hacyclic (f & Hf & Hopen).
  apply in_map_iff in Hf as ([k f0] & Heq & Hin). simpl in Heq. subst f0.
  destruct (open_feature_has_open_root g Hwf Hclosed k) with (f := f)
    as (f' & Hf' & Hopen' & Hdeps).
  - apply (has_cycle_false_safe g Hacyclic). apply in_map_iff. now exists (k, f).
  - now apply key_of_feature.
  - unfold is_complete. destruct (status f); congruence.
  - destruct (is_in_progress f') eqn:Hip.
    + right. exists f'. split; [exact Hf'|].
      unfold is_in_progress in Hip. destruct (status f'); congruence.
    + left. intros Hnil.
      assert (In f' (get_ready_features g)) as Hr.
      { unfold get_ready_features. apply sort_key_In, filter_In. split; [exact Hf'|].
        now rewrite Hopen', Hip, Hdeps. }
      rewrite Hnil in Hr. destruct Hr.
Qed.

Lemma acyclic_plan_is_never_stuck_witness :
  get_ready_features diamond <> []
  \/ exists f, In f (Dict.values (features diamond)) /\ status f = IN_PROGRESS.
Proof.
  apply (acyclic_plan_is_never_stuck diamond (wf_built _) closed_diamond);
    [reflexivity|].
  exists (sample_feature "F1" 9 []). split; [vm_compute; auto|discriminate].
Defined.

(** ** Adding and looking up *)

(** X24.  After [add_feature(f)], [get_feature] returns [f] for its id
    and what it returned before for every other id; [get_dependencies]
    and [get_dependents] return what they returned before plus the edges
    of [f] (adding a feature again removes no edge of the replaced one);
    and [node_count] grows by one exactly when the id is new. *)
Theorem add_feature_stores_and_only_adds_edges g f :
  get_feature (add_feature g f) (id f) = Some f
  /\ (forall x, x <> id f -> get_feature (add_feature g f) x = get_feature g x)
  /\ (forall x d, In d (get_dependencies (add_feature g f) x)
                  <-> In d (get_dependencies g x) \/ (x = id f /\ In d (dependencies f)))
  /\ (forall x d, In x (get_dependents (add_feature g f) d)
                  <-> In x (get_dependents g d) \/ (x = id f /\ In d (dependencies f)))
  /\ node_count (add_feature g f)
     = if Dict.mem (features g) (id f) then node_count g else S (node_count g).
Proof.
  unfold add_feature, get_feature, get_dependencies, get_dependents, node_count.
  destruct (add_edges_spec (id f) (dependencies f) (edges g) (reverse_edges g))
    as (He & Hr & _ & _).
  destruct (foldl (add_edge (id f)) (edges g, reverse_edges g) (dependencies f))
    as [e r]. cbn [fst snd features edges reverse_edges] in *. unfold lookup_set in *.
  split; [rewrite dict_get_set; now rewrite String.eqb_refl|].
  split.
  { intros x Hx. rewrite dict_get_set.
    destruct (String.eqb_spec (id f) x); [congruence|reflexivity]. }
  split; [exact He|]. split; [exact Hr|].
  unfold Dict.mem. induction (features g) as [|[k0 f0] d IH]; simpl; [reflexivity|].
  destruct (String.eqb_spec k0 (id f)); simpl; [reflexivity|].
  rewrite IH. now destruct (Dict.get d (id f)).
Qed.

End DependencyGraphPlan.

(* ===================================================================== *)
(** * dependency_graph.py: the cycle that find_cycles reports *)
(* ===================================================================== *)

Module DependencyGraphCycles.
Import DependencyGraph DictSpec DependencyGraphSearch DependencyGraphBuild.

Section Cycles.
Variable g : Graph.

Lemma chain_snoc l x y :
  chain g l -> last l = Some x -> In y (get_dependencies g x) -> chain g (l ++ [y]).
Proof.
  induction l as [|a [|b l] IH]; simpl; intros Hc Hl Hy; [discriminate| |].
  - injection Hl as ->. auto.
  - destruct Hc as [Hab Hc]. split; [exact Hab|]. now apply IH.
Qed.

Lemma chain_single_snoc y : chain g ([] ++ [y]).
Proof. exact I. Qed.

Lemma chain_app_r l1 l2 : chain g (l1 ++ l2) -> chain g l2.
Proof.
  induction l1 as [|a l1 IH]; simpl; [auto|].
  destruct (l1 ++ l2) eqn:E; [destruct l1, l2; try discriminate; auto|].
  intros [_ H]. auto.
Qed.

Lemma chain_app_l l1 l2 : chain g (l1 ++ l2) -> chain g l1.
Proof.
  induction l1 as [|a [|b l1] IH]; simpl; auto.
  intros [H1 H2]. split; [exact H1|]. now apply IH.
Qed.

Lemma index_of_split x l :
  In x l -> exists pre post, l = pre ++ x :: post /\ drop (index_of x l) l = x :: post.
Proof.
  induction l as [|y l IH]; simpl; [intros []|].
  destruct (String.eqb_spec y x) as [->|Hne].
  - intros _. exists [], l. auto.
  - intros [?|Hin]; [congruence|].
    destruct (IH Hin) as (pre & post & -> & Hd). exists (y :: pre), post. auto.
Qed.

(** The back-edge branch reports a closed walk. *)
Lemma found_cycle_genuine st node neighbor :
  path_ok g st -> last (path st) = Some node ->
  In neighbor (get_dependencies g node) -> neighbor ∈ rec_stack st ->
  genuine_cycle g (drop (index_of neighbor (path st)) (path st) ++ [neighbor]).
Proof.
  intros (Hchain & _ & Hstack & _) Hlast Hedge Hin.
  apply Hstack in Hin.
  destruct (index_of_split neighbor (path st) Hin) as (pre & post & Hp & ->).
  split; [|now exists neighbor, post].
  apply (chain_snoc _ node); [|rewrite Hp in Hlast|exact Hedge].
  - rewrite Hp in Hchain. now apply chain_app_r in Hchain.
  - rewrite last_app in Hlast. simpl in Hlast.
    destruct (last (neighbor :: post)) eqn:E; [exact Hlast|].
    now apply last_None in E.
Qed.

Lemma visit_neighbors_genuine rec node :
  (forall n st r st',
      rec n st = Some (r, st') ->
      path_ok g st -> cycles st = [] -> n ∉ visited st ->
      last (path st) = Some node -> In n (get_dependencies g node) ->
      result_ok g st r st' (path st) (rec_stack st)) ->
  forall neighbors st r st',
    visit_neighbors rec node neighbors st = Some (r, st') ->
    path_ok g st -> cycles st = [] -> last (path st) = Some node ->
    (forall n, In n neighbors -> In n (get_dependencies g node)) ->
    result_ok g st r st' (take (length (path st) - 1) (path st))
              (rec_stack st ∖ {[node]}).
Proof.
  intros Hrec. induction neighbors as [|n neighbors IH];
    intros st r st' Hrun Hok Hcycles Hlast Hsub; simpl in Hrun.
  - injection Hrun as <- <-. left. simpl. destruct Hok as (_ & _ & _ & Hrv).
    repeat split; auto. set_solver.
  - destruct (decide (n ∈ visited st)) as [Hv|Hv].
    + rewrite bool_decide_eq_true_2 in Hrun by exact Hv. simpl in Hrun.
      destruct (decide (n ∈ rec_stack st)) as [Hs|Hs].
      * rewrite bool_decide_eq_true_2 in Hrun by exact Hs.
        injection Hrun as <- <-. right. split; [reflexivity|].
        eexists. unfold found_cycle. simpl. rewrite Hcycles. split; [reflexivity|].
        eapply found_cycle_genuine; eauto. apply Hsub. now left.
      * rewrite bool_decide_eq_false_2 in Hrun by exact Hs.
        eapply IH; eauto. intros; apply Hsub; now right.
    + rewrite bool_decide_eq_false_2 in Hrun by exact Hv. simpl in Hrun.
      destruct (rec n st) as [[[|] st1]|] eqn:Hn; [| |discriminate].
      * injection Hrun as <- <-.
        destruct (Hrec n st true st1 Hn Hok Hcycles Hv Hlast) as [(? & _)|(_ & Hc)];
          [apply Hsub; now left|discriminate|].
        right. auto.
      * destruct (Hrec n st false st1 Hn Hok Hcycles Hv Hlast)
          as [(_ & Hc1 & Hp1 & Hs1 & Hv1 & Hrv1)|(? & _)];
          [apply Hsub; now left| |discriminate].
        assert (path_ok g st1) as Hok1.
        { destruct Hok as (H1 & H2 & H3 & H4). unfold path_ok.
          rewrite Hp1, Hs1. repeat split; auto; try apply H3. now rewrite <- Hs1. }
        destruct (IH st1 r st' Hrun Hok1 Hc1) as [(-> & H1 & H2 & H3 & H4 & H5)|Hfound].
        -- now rewrite Hp1.
        -- intros; apply Hsub; now right.
        -- left. rewrite Hp1, Hs1 in *. repeat split; auto. set_solver.
        -- now right.
Qed.

Lemma enter_ok node st :
  path_ok g st -> node ∉ visited st ->
  match last (path st) with
  | Some l => In node (get_dependencies g l)
  | None => True
  end ->
  path_ok g (enter node st) /\ last (path (enter node st)) = Some node.
Proof.
  intros (Hchain & Hnd & Hstack & Hrv) Hv Hedge. unfold enter, path_ok. simpl.
  split; [|apply last_snoc].
  assert (~ In node (path st)) as Hfresh.
  { intros Hin. apply Hstack in Hin. set_solver. }
  split.
  { destruct (last (path st)) as [l|] eqn:Hl.
    - now apply (chain_snoc _ l).
    - apply last_None in Hl. rewrite Hl. exact I. }
  split.
  { apply NoDup_app. split; [exact Hnd|]. split; [|apply NoDup_singleton].
    intros x Hx Hx'. apply list_elem_of_singleton in Hx' as ->.
    now apply list_elem_of_In in Hx. }
  split; [|set_solver].
  intros x. rewrite in_app_iff. simpl. rewrite <- Hstack. set_solver.
Qed.

Lemma dfs_genuine fuel : forall node st r st',
  dfs fuel g node st = Some (r, st') ->
  path_ok g st -> cycles st = [] -> node ∉ visited st ->
  match last (path st) with
  | Some l => In node (get_dependencies g l)
  | None => True
  end ->
  result_ok g st r st' (path st) (rec_stack st).
Proof.
  induction fuel as [|fuel IH]; intros node st r st' Hrun Hok Hcycles Hv Hedge;
    [discriminate|].
  cbn [dfs] in Hrun.
  destruct (enter_ok node st Hok Hv Hedge) as [Hok1 Hlast1].
  destruct (visit_neighbors_genuine (dfs fuel g) node) with
    (neighbors := get_dependencies g node) (st := enter node st) (r := r) (st' := st')
    as [(-> & H1 & H2 & H3 & H4 & H5)|Hfound]; auto.
  - intros n st0 r0 st0' Hn Hok0 Hc0 Hv0 Hl0 He0.
    apply (IH n st0 r0 st0' Hn Hok0 Hc0 Hv0). now rewrite Hl0.
  - left. simpl in *. rewrite length_app in H2. simpl in H2.
    replace (length (path st) + 1 - 1) with (length (path st)) in H2 by lia.
    rewrite take_app_length in H2.
    destruct Hok as (_ & _ & Hstack & Hrv).
    assert (node ∉ rec_stack st) by set_solver.
    repeat split; auto; set_solver.
  - now right.
Qed.

(** A cycle that was found stays the first of the list. *)
Lemma visit_neighbors_keeps rec node c :
  (forall n st r st', rec n st = Some (r, st') ->
                      head (cycles st) = Some c -> head (cycles st') = Some c) ->
  forall neighbors st r st',
    visit_neighbors rec node neighbors st = Some (r, st') ->
    head (cycles st) = Some c -> head (cycles st') = Some c.
Proof.
  intros Hrec. induction neighbors as [|n neighbors IH]; intros st r st' Hrun Hc;
    simpl in Hrun.
  - now injection Hrun as <- <-.
  - destruct (negb _).
    + destruct (rec n st) as [[[|] st1]|] eqn:Hn; [| |discriminate].
      * injection Hrun as <- <-. eauto.
      * eapply IH; eauto.
    + destruct (bool_decide _).
      * injection Hrun as <- <-. simpl. destruct (cycles st); [discriminate|exact Hc].
      * eapply IH; eauto.
Qed.

Lemma dfs_keeps fuel c : forall node st r st',
  dfs fuel g node st = Some (r, st') ->
  head (cycles st) = Some c -> head (cycles st') = Some c.
Proof.
  induction fuel as [|fuel IH]; intros node st r st' Hrun Hc; [discriminate|].
  cbn [dfs] in Hrun.
  eapply (visit_neighbors_keeps (dfs fuel g)); eauto.
Qed.

Lemma search_from_genuine fuel nodes : forall st st',
  search_from fuel g nodes st = Some st' ->
  (cycles st = [] /\ path st = [] /\ rec_stack st = ∅)
  \/ (exists c, head (cycles st) = Some c /\ genuine_cycle g c) ->
  cycles st' = [] \/ exists c, head (cycles st') = Some c /\ genuine_cycle g c.
Proof.
  induction nodes as [|node nodes IH]; intros st st' Hrun Hst; cbn [search_from] in Hrun.
  - injection Hrun as <-. destruct Hst as [(? & _)|?]; auto.
  - destruct (decide (node ∈ visited st)) as [Hv|Hv].
    + rewrite bool_decide_eq_true_2 in Hrun by exact Hv. simpl in Hrun. eauto.
    + rewrite bool_decide_eq_false_2 in Hrun by exact Hv. simpl in Hrun.
      destruct (dfs fuel g node st) as [[r st1]|] eqn:Hd; [|discriminate].
      apply (IH st1 st' Hrun).
      destruct Hst as [(Hc & Hp & Hs)|(c & Hc & Hgen)].
      * destruct (dfs_genuine fuel node st r st1 Hd) as [(_ & H1 & H2 & H3 & _)|(_ & c & Hc1 & Hg)];
          auto.
        -- unfold path_ok. rewrite Hp, Hs. repeat split; simpl; auto;
             try constructor; set_solver.
        -- now rewrite Hp.
        -- left. rewrite H2, H3. auto.
        -- right. exists c. rewrite Hc1. auto.
      * right. exists c. split; [|exact Hgen]. eapply dfs_keeps; eauto.
Qed.
End Cycles.

(** X25.  The first cycle [find_cycles] reports is a closed walk of the
    graph: it has at least two entries, it ends at the node it starts
    from, and each entry lists the next one among its dependencies. *)
Theorem first_cycle_found_is_a_cycle g c rest :
  find_cycles g = Some (c :: rest) -> genuine_cycle g c.
Proof.
  unfold find_cycles.
  destruct (search_from _ g _ _) as [st'|] eqn:Hrun; [|discriminate].
  intros [= Hc].
  destruct (search_from_genuine g _ _ _ _ Hrun) as [Hnil|(c' & Hhead & Hgen)].
  - left. auto.
  - rewrite Hc in Hnil. discriminate.
  - rewrite Hc in Hhead. now injection Hhead as <-.
Qed.

Lemma first_cycle_found_is_a_cycle_witness :
  exists c rest, find_cycles triangle = Some (c :: rest) /\ genuine_cycle triangle c.
Proof.
  destruct (find_cycles triangle) as [[|c rest]|] eqn:E;
    [vm_compute in E; discriminate| |vm_compute in E; discriminate].
  exists c, rest. split; [reflexivity|].
  now apply (first_cycle_found_is_a_cycle triangle c rest).
Defined.

End DependencyGraphCycles.

(* ===================================================================== *)
(** * dependency_graph.py: the parallel plan *)
(* ===================================================================== *)

Module ExecutionPlannerSpec.
Import DependencyGraph DictSpec DependencyGraphSearch DependencyGraphBuild
       DependencyGraphSpec DependencyGraphPlan.

Lemma subset_of_spec deps completed :
  subset_of deps completed = true <-> forall d, In d deps -> d ∈ completed.
Proof.
  unfold subset_of. rewrite forallb_forall. split; intros H d Hd.
  - specialize (H d Hd). now apply bool_decide_eq_true in H.
  - apply bool_decide_eq_true. now apply H.
Qed.

Lemma plan_inv_init g : plan_inv g (list_to_set (Dict.keys (features g))) ∅ [].
Proof.
  split; simpl.
  - intros x. rewrite elem_of_list_to_set, list_elem_of_In. set_solver.
  - set_solver.
  - set_solver.
  - constructor.
  - intros f [].
  - intros i wave f d Hi. now rewrite lookup_nil in Hi.
  - constructor.
Qed.

Section Plan.
Variable iter : nat -> gset string -> list string.
Hypothesis iter_perm : forall k s, iter k s ≡ₚ elements s.
Variable g : Graph.
Hypothesis Hwf : wf g.

Lemma scan_features completed ids : forall remaining acc,
  (forall k, In k ids -> In k (Dict.keys (features g))) ->
  foldl (scan g completed) (remaining, acc) ids
  = (remaining, acc ++ wave_of g completed ids).
Proof.
  induction ids as [|k ids IH]; intros remaining acc Hids; simpl.
  - now rewrite app_nil_r.
  - unfold scan at 2. unfold get_feature.
    destruct (dict_get_Some (features g) k) as [f Hf]; [apply Hids; now left|].
    unfold get_feature. rewrite Hf. cbn [fst snd].
    destruct (subset_of _ _).
    + rewrite IH by (intros; apply Hids; now right).
      now rewrite <- app_assoc.
    + rewrite IH by (intros; apply Hids; now right). reflexivity.
Qed.

Lemma mark_all wave : forall completed remaining,
  foldl mark (completed, remaining) wave
  = (list_to_set (map id wave) ∪ completed, remaining ∖ list_to_set (map id wave)).
Proof.
  induction wave as [|f wave IH]; intros completed remaining; simpl.
  - f_equal; set_solver.
  - change (mark (completed, remaining) f)
      with ({[id f]} ∪ completed, remaining ∖ {[id f]}).
    rewrite IH. f_equal; set_solver.
Qed.

Lemma wave_of_In completed ids f :
  In f (wave_of g completed ids) ->
  In (id f) ids /\ Dict.get (features g) (id f) = Some f
  /\ forall d, In d (get_dependencies g (id f)) -> d ∈ completed.
Proof.
  unfold wave_of. intros Hf.
  apply list_elem_of_In, list_elem_of_omap in Hf as (k & Hk & Hsome).
  unfold get_feature in Hsome.
  destruct (Dict.get (features g) k) as [f'|] eqn:Hget; [|discriminate].
  destruct (subset_of _ _) eqn:Hsub; [|discriminate]. injection Hsome as ->.
  assert (id f = k) as -> by (eapply wf_ids; eauto using dict_get_In).
  split; [now apply list_elem_of_In|]. split; [exact Hget|].
  now apply subset_of_spec.
Qed.

Lemma wave_of_ids completed ids :
  NoDup ids -> NoDup (map id (wave_of g completed ids)).
Proof.
  induction 1 as [|k ids Hk Hnd IH]; simpl; [constructor|].
  unfold get_feature.
  destruct (Dict.get (features g) k) as [f|] eqn:Hget; [|exact IH].
  destruct (subset_of _ _); [|exact IH]. simpl.
  assert (id f = k) as -> by (eapply wf_ids; eauto using dict_get_In).
  apply NoDup_cons. split; [|exact IH].
  intros Hin. apply Hk. apply list_elem_of_In, in_map_iff in Hin as (f' & Hid & Hf').
  apply wave_of_In in Hf' as (Hin' & _). rewrite Hid in Hin'.
  now apply list_elem_of_In.
Qed.

Lemma wave_of_complete completed ids k f :
  In k ids -> Dict.get (features g) k = Some f ->
  (forall d, In d (get_dependencies g k) -> d ∈ completed) ->
  In f (wave_of g completed ids).
Proof.
  intros Hk Hget Hdeps. unfold wave_of.
  apply list_elem_of_In, list_elem_of_omap. exists k.
  split; [now apply list_elem_of_In|]. unfold get_feature. rewrite Hget.
  now rewrite (proj2 (subset_of_spec _ _) Hdeps).
Qed.

Lemma plan_inv_step round remaining completed waves :
  plan_inv g remaining completed waves ->
  let wave := sort_key priority (wave_of g completed (iter round remaining)) in
  wave <> [] ->
  plan_inv g (remaining ∖ list_to_set (map id wave))
           (list_to_set (map id wave) ∪ completed) (waves ++ [wave])
  /\ size (remaining ∖ list_to_set (map id wave)) < size remaining.
Proof.
  intros [Hpart Hdisj Hdone Hnd Hstored Horder Hwaves] wave Hne.
  assert (forall f, In f wave ->
            id f ∈ remaining /\ Dict.get (features g) (id f) = Some f
            /\ forall d, In d (get_dependencies g (id f)) -> d ∈ completed) as Hwave.
  { intros f Hf. apply sort_key_In, wave_of_In in Hf as (H1 & H2 & H3).
    split; [|auto]. apply list_elem_of_In in H1.
    rewrite iter_perm in H1. now apply elem_of_elements in H1. }
  assert (NoDup (map id wave)) as Hwnd.
  { subst wave. rewrite sort_key_perm. apply wave_of_ids.
    rewrite iter_perm. apply NoDup_elements. }
  assert (forall x, x ∈ (list_to_set (map id wave) : gset string) -> x ∈ remaining) as Hsub.
  { intros x Hx. apply elem_of_list_to_set, list_elem_of_In, in_map_iff in Hx
      as (f & <- & Hf). now apply Hwave. }
  split.
  - split.
    + intros x. rewrite Hpart.
      destruct (decide (x ∈ (list_to_set (map id wave) : gset string))); set_solver.
    + intros x Hx. apply elem_of_difference in Hx as [Hx Hw].
      apply not_elem_of_union. split; [exact Hw|now apply Hdisj].
    + intros x. rewrite concat_app, map_app, in_app_iff. simpl.
      rewrite app_nil_r, elem_of_union, Hdone, elem_of_list_to_set, list_elem_of_In.
      tauto.
    + rewrite concat_app, map_app. simpl. rewrite app_nil_r.
      apply NoDup_app. split; [exact Hnd|]. split; [|exact Hwnd].
      intros x Hx Hx'. apply list_elem_of_In, Hdone in Hx.
      apply (Hdisj x); [|exact Hx]. apply Hsub. now apply elem_of_list_to_set.
    + intros f. rewrite concat_app, in_app_iff. simpl. rewrite app_nil_r.
      intros [Hf|Hf]; [auto|]. now apply Hwave.
    + intros i w f d Hi Hf Hd.
      destruct (Nat.lt_ge_cases i (length waves)) as [Hlt|Hge].
      * rewrite lookup_app_l in Hi by exact Hlt.
        destruct (Horder i w f d Hi Hf Hd) as (j & w' & fd & Hj & Hw' & Hfd & Hid).
        exists j, w', fd. split; [exact Hj|]. split; [|auto].
        rewrite lookup_app_l by lia. exact Hw'.
      * rewrite lookup_app_r in Hi by exact Hge.
        destruct (i - length waves) as [|n] eqn:En; [|discriminate].
        injection Hi as <-.
        destruct (Hwave f Hf) as (_ & _ & Hdeps).
        apply Hdeps, Hdone, in_map_iff in Hd as (fd & Hid & Hfd).
        apply in_concat in Hfd as (w' & Hw' & Hfd).
        apply list_elem_of_In, list_elem_of_lookup in Hw' as [j Hj].
        exists j, w', fd. split; [apply lookup_lt_Some in Hj; lia|].
        split; [rewrite lookup_app_l by (eapply lookup_lt_Some; eauto); exact Hj|auto].
    + apply Forall_app. split; [exact Hwaves|]. repeat constructor; [exact Hne|].
      apply sort_key_sorted.
  - destruct wave as [|f wave'] eqn:Ew; [congruence|].
    assert (id f ∈ remaining) as Hf by (apply Hwave; now left).
    apply subset_size. split.
    + set_solver.
    + intros Hsub'. specialize (Hsub' (id f) Hf). simpl in Hsub'. set_solver.
Qed.

Hypothesis Hclosed : closed g.
Hypothesis Hsafe : forall x, In x (Dict.keys (features g)) -> safe g x.

Lemma some_feature_is_free remaining completed waves :
  plan_inv g remaining completed waves ->
  forall x, safe g x -> x ∈ remaining ->
  exists y, y ∈ remaining /\ forall d, In d (get_dependencies g y) -> d ∈ completed.
Proof.
  intros Hinv x Hx. induction Hx as [x _ IH]. intros Hrem.
  destruct (subset_of (get_dependencies g x) completed) eqn:Hsub.
  - exists x. split; [exact Hrem|]. now apply subset_of_spec.
  - unfold subset_of in Hsub. apply not_true_iff_false in Hsub.
    rewrite forallb_forall in Hsub.
    destruct (existsb (fun d => negb (bool_decide (d ∈ completed)))
                      (get_dependencies g x)) eqn:Hex.
    + apply existsb_exists in Hex as (d & Hd & Hnot).
      apply negb_true_iff, bool_decide_eq_false in Hnot.
      apply (IH d Hd).
      pose proof (proj1 (p_part _ _ _ _ Hinv d) (Hclosed x d Hd)). tauto.
    + exfalso. apply Hsub. intros d Hd.
      rewrite <- not_true_iff_false, existsb_exists in Hex.
      destruct (bool_decide (d ∈ completed)) eqn:E; [reflexivity|].
      exfalso. apply Hex. exists d. rewrite E. auto.
Qed.

Lemma wave_not_empty round remaining completed waves :
  plan_inv g remaining completed waves -> remaining <> ∅ ->
  wave_of g completed (iter round remaining) <> [].
Proof.
  intros Hinv Hne.
  destruct (set_choose_L remaining Hne) as [x Hx].
  assert (In x (Dict.keys (features g))) as Hkey
    by (apply (p_part _ _ _ _ Hinv); now left).
  destruct (some_feature_is_free _ _ _ Hinv x (Hsafe x Hkey) Hx) as (y & Hy & Hdeps).
  assert (In y (Dict.keys (features g))) as Hykey
    by (apply (p_part _ _ _ _ Hinv); now left).
  destruct (dict_get_Some _ _ Hykey) as [f Hf].
  intros Hnil.
  assert (In f (wave_of g completed (iter round remaining))) as Hin.
  { eapply wave_of_complete; eauto.
    apply list_elem_of_In. rewrite iter_perm. now apply elem_of_elements. }
  rewrite Hnil in Hin. destruct Hin.
Qed.

Lemma plan_runs fuel : forall round remaining completed waves,
  plan_inv g remaining completed waves -> size remaining < fuel ->
  exists waves' completed',
    plan_loop iter fuel g round remaining completed waves = Some waves'
    /\ plan_inv g ∅ completed' waves'.
Proof.
  induction fuel as [|fuel IH]; intros round remaining completed waves Hinv Hfuel;
    [lia|].
  cbn [plan_loop].
  destruct (decide (remaining = ∅)) as [->|Hne]; [eauto|].
  rewrite scan_features.
  2:{ intros k Hk. apply (p_part _ _ _ _ Hinv). left.
      apply list_elem_of_In in Hk. rewrite iter_perm in Hk.
      now apply elem_of_elements in Hk. }
  simpl.
  pose proof (wave_not_empty round _ _ _ Hinv Hne) as Hwave.
  destruct (plan_inv_step round _ _ _ Hinv) as [Hinv' Hsize].
  { intros Hnil. apply Hwave. apply Permutation_nil_r. rewrite <- Hnil.
    symmetry. apply sort_key_perm. }
  destruct (wave_of g completed (iter round remaining)) as [|f wave] eqn:Ew;
    [congruence|].
  rewrite mark_all.
  apply IH; [exact Hinv'|lia].
Qed.
End Plan.

(** X26.  On a graph without a cycle whose dependencies are all stored
    features, [create_parallel_plan] terminates, in whatever order the
    set of remaining ids is iterated.  Its waves hold every stored
    feature exactly once; every dependency of a feature is in an earlier
    wave; and no wave is empty and each is in order of priority. *)
Theorem parallel_plan_respects_dependencies iter g :
  (forall k s, iter k s ≡ₚ elements s) ->
  wf g -> closed g -> has_cycle g = Some false ->
  exists waves,
    create_parallel_plan iter g = Some waves
    /\ concat waves ≡ₚ Dict.values (features g)
    /\ NoDup (map id (concat waves))
    /\ waves_ordered g waves
    /\ Forall (fun wave => wave <> [] /\ StronglySorted (key_le priority) wave) waves.
Proof.
  intros Hiter Hwf Hclosed Hacyclic. unfold create_parallel_plan. rewrite Hacyclic.
  destruct (plan_runs iter Hiter g Hwf Hclosed (has_cycle_false_safe g Hacyclic)
              (S (length (features g))) 0 _ _ _ (plan_inv_init g))
    as (waves & completed & Hrun & Hinv).
  { rewrite size_list_to_set by apply (wf_keys g Hwf).
    unfold Dict.keys. rewrite length_map. lia. }
  exists waves. split; [exact Hrun|].
  destruct Hinv as [Hpart Hdisj Hdone Hnd Hstored Horder Hwaves].
  split; [|auto].
  assert (map id (concat waves) ≡ₚ Dict.keys (features g)) as Hperm.
  { apply NoDup_Permutation; [exact Hnd|apply (wf_keys g Hwf)|].
    intros x. rewrite !list_elem_of_In, Hpart, <- Hdone. set_solver. }
  rewrite (values_of_keys g Hwf), <- Hperm, map_map.
  rewrite <- (map_id (concat waves)) at 1.
  erewrite map_ext_in; [reflexivity|].
  intros f Hf. simpl. now rewrite (Hstored f Hf).
Qed.

Lemma parallel_plan_respects_dependencies_witness :
  exists waves,
    create_parallel_plan (fun _ s => elements s) diamond = Some waves
    /\ concat waves ≡ₚ Dict.values (features diamond)
    /\ waves_ordered diamond waves.
Proof.
  destruct (parallel_plan_respects_dependencies (fun _ s => elements s) diamond)
    as (waves & Hrun & Hperm & _ & Hord & _);
    [reflexivity|apply wf_built|apply closed_diamond|reflexivity|].
  exists waves. auto.
Defined.

End ExecutionPlannerSpec.

(* ===================================================================== *)
(** * flaky_detector.py: quarantine, recording and ranking *)
(* ===================================================================== *)

Module QuarantineSpec.
Import FlakyDetector Detector DictSpec FlakyDetectorSpec.

Lemma dict_get_del_same {V} (d : list (string * V)) k :
  NoDup (Dict.keys d) -> Dict.get (Dict.del d k) k = None.
Proof.
  unfold Dict.keys. induction d as [|[k0 v0] d IH]; simpl; intros Hnd; [reflexivity|].
  apply NoDup_cons in Hnd as [Hk Hnd].
  destruct (String.eqb_spec k0 k) as [->|Hne].
  - destruct (Dict.get d k) eqn:Hget; [|reflexivity].
    exfalso. apply Hk, list_elem_of_In. eapply dict_get_keys; eauto.
  - simpl. destruct (String.eqb_spec k0 k); [congruence|auto].
Qed.

Lemma dict_get_del_other {V} (d : list (string * V)) k k' :
  k <> k' -> Dict.get (Dict.del d k) k' = Dict.get d k'.
Proof.
  intros Hne. induction d as [|[k0 v0] d IH]; simpl; [reflexivity|].
  destruct (String.eqb_spec k0 k) as [->|Hk].
  - destruct (String.eqb_spec k k'); [congruence|reflexivity].
  - simpl. now rewrite IH.
Qed.

Lemma dict_get_unique {V} (d : list (string * V)) k v :
  NoDup (Dict.keys d) -> In (k, v) d -> Dict.get d k = Some v.
Proof.
  unfold Dict.keys. induction d as [|[k0 v0] d IH]; simpl; intros Hnd; [intros []|].
  apply NoDup_cons in Hnd as [Hk Hnd].
  intros [[= -> ->]|Hin]; [now rewrite String.eqb_refl|].
  destruct (String.eqb_spec k0 k) as [->|_]; [|auto].
  exfalso. apply Hk, list_elem_of_In, in_map_iff. now exists (k, v).
Qed.

(** X27.  [get_quarantined_tests] lists exactly the tests for which
    [is_quarantined] holds.  [quarantine_test] makes it hold for its
    test; [set_probation] ends it and gives the status PROBATION;
    [unquarantine_test] gives back the status ACTIVE; and none of the
    three changes the status of another test. *)
Theorem quarantine_bookkeeping d name :
  NoDup (Dict.keys (quarantine d)) ->
  (forall n, In n (get_quarantined_tests d) <-> is_quarantined d n = true)
  /\ (forall reason now,
        is_quarantined (quarantine_test d name reason now) name = true)
  /\ (forall now stamp,
        is_quarantined (set_probation d name now stamp) name = false
        /\ get_status (set_probation d name now stamp) name = PROBATION)
  /\ get_status (unquarantine_test d name) name = ACTIVE
  /\ (forall other reason now stamp, other <> name ->
        get_status (quarantine_test d name reason now) other = get_status d other
        /\ get_status (set_probation d name now stamp) other = get_status d other
        /\ get_status (unquarantine_test d name) other = get_status d other).
Proof.
  intros Hnd. split; [|split; [|split; [|split]]].
  - intros n. unfold get_quarantined_tests, is_quarantined.
    rewrite <- list_elem_of_In, list_elem_of_omap. split.
    + intros ([k e] & Hin & Hsome). simpl in Hsome.
      destruct (is_quarantined_status (q_status e)) eqn:Hs; [|discriminate].
      injection Hsome as ->. apply list_elem_of_In in Hin.
      now rewrite (dict_get_unique _ _ _ Hnd Hin).
    + destruct (Dict.get (quarantine d) n) as [e|] eqn:Hget; [|discriminate].
      intros Hs. exists (n, e). split; [|simpl; now rewrite Hs].
      now apply list_elem_of_In, dict_get_In.
  - intros reason now. unfold is_quarantined, quarantine_test. simpl.
    rewrite dict_get_set. now rewrite String.eqb_refl.
  - intros now stamp. unfold is_quarantined, get_status, set_probation.
    destruct (Dict.get (quarantine d) name); simpl;
      rewrite dict_get_set, String.eqb_refl; auto.
  - unfold get_status, unquarantine_test.
    destruct (Dict.mem (quarantine d) name) eqn:Hmem; simpl.
    + now rewrite dict_get_del_same.
    + unfold Dict.mem in Hmem. now destruct (Dict.get (quarantine d) name).
  - intros other reason now stamp Hne. unfold get_status.
    split; [|split].
    + unfold quarantine_test. simpl. rewrite dict_get_set.
      destruct (String.eqb_spec name other); [congruence|reflexivity].
    + unfold set_probation.
      destruct (Dict.get (quarantine d) name); simpl; rewrite dict_get_set;
        destruct (String.eqb_spec name other); congruence.
    + unfold unquarantine_test.
      destruct (Dict.mem (quarantine d) name); simpl; [|reflexivity].
      rewrite dict_get_del_other; [reflexivity|congruence].
Qed.

Lemma quarantine_bookkeeping_witness :
  In "test_a" (get_quarantined_tests sample_detector)
  /\ get_status (unquarantine_test sample_detector "test_a") "test_a" = ACTIVE.
Proof.
  destruct (quarantine_bookkeeping sample_detector "test_a") as (Hlist & _ & _ & Hun & _).
  - apply NoDup_singleton.
  - split; [apply Hlist; reflexivity|exact Hun].
Defined.

(** ** Recording a run *)

Lemma get_history_spec d name :
  (get_history d name).1 = history_of d name
  /\ Dict.get (histories (get_history d name).2) name = Some (history_of d name)
  /\ (forall other, other <> name ->
        Dict.get (histories (get_history d name).2) other = Dict.get (histories d) other)
  /\ quarantine (get_history d name).2 = quarantine d
  /\ min_runs (get_history d name).2 = min_runs d
  /\ flakiness_threshold (get_history d name).2 = flakiness_threshold d
  /\ auto_quarantine (get_history d name).2 = auto_quarantine d.
Proof.
  unfold get_history, history_of.
  destruct (Dict.get (histories d) name) as [h|] eqn:Hget; simpl.
  - repeat split; auto.
  - rewrite dict_get_set, String.eqb_refl. repeat split; auto.
    intros other Hne. rewrite dict_get_set.
    destruct (String.eqb_spec name other); congruence.
Qed.

(** X28.  [record_run] adds the run to the history of its test and
    touches no other history.  With [auto_quarantine] off the quarantine
    is left alone; with it on, the test is quarantined after the call as
    soon as its history has [min_runs] runs and a flakiness score of at
    least the threshold. *)
Theorem record_run_quarantines_flaky_tests
    d name passed duration_ms error_message now stamp :
  let d' := record_run d name passed duration_ms error_message now stamp in
  let h' := add_run (history_of d name)
                    (mkTestRun name passed now duration_ms error_message) in
  Dict.get (histories d') name = Some h'
  /\ (forall other, other <> name ->
        Dict.get (histories d') other = Dict.get (histories d) other)
  /\ (auto_quarantine d = false -> quarantine d' = quarantine d)
  /\ (auto_quarantine d = true ->
      (min_runs d <= Z.of_nat (length (runs h')))%Z ->
      (flakiness_threshold d <= flakiness_score h')%Q ->
      is_quarantined d' name = true).
Proof.
  cbv zeta. unfold record_run.
  destruct (get_history_spec d name) as (H1 & H2 & H3 & H4 & H5 & H6 & H7).
  destruct (get_history d name) as [h d1]. cbn [fst snd] in *. subst h.
  set (h' := add_run (history_of d name) _).
  set (d2 := set_histories d1 (Dict.set (histories d1) name h')).
  assert (Dict.get (histories d2) name = Some h') as Hget2.
  { subst d2. simpl. now rewrite dict_get_set, String.eqb_refl. }
  assert (forall other, other <> name ->
            Dict.get (histories d2) other = Dict.get (histories d) other) as Hother2.
  { intros other Hne. subst d2. simpl. rewrite dict_get_set.
    destruct (String.eqb_spec name other); [congruence|]. now apply H3. }
  change (auto_quarantine d2) with (auto_quarantine d1). rewrite H7.
  destruct (auto_quarantine d) eqn:Hauto.
  - unfold check_auto_quarantine, get_history. rewrite Hget2.
    change (min_runs d2) with (min_runs d1). rewrite H5.
    change (flakiness_threshold d2) with (flakiness_threshold d1). rewrite H6.
    destruct (Z.ltb_spec (Z.of_nat (length (runs h'))) (min_runs d)) as [Hlt|Hge].
    + split; [exact Hget2|]. split; [exact Hother2|]. split; [discriminate|].
      intros _ Hmin. lia.
    + destruct (Qle_bool (flakiness_threshold d) (flakiness_score h')) eqn:Hscore.
      * destruct (is_quarantined d2 name) eqn:Hq; simpl.
        -- split; [exact Hget2|]. split; [exact Hother2|]. split; [discriminate|auto].
        -- split; [exact Hget2|]. split; [exact Hother2|]. split; [discriminate|].
           intros _ _ _. unfold is_quarantined, quarantine_test. simpl.
           now rewrite dict_get_set, String.eqb_refl.
      * simpl. split; [exact Hget2|]. split; [exact Hother2|]. split; [discriminate|].
        intros _ _ Hle. apply Qle_bool_iff in Hle. congruence.
  - split; [exact Hget2|]. split; [exact Hother2|]. split; [|discriminate].
    intros _. subst d2. simpl. exact H4.
Qed.

Lemma record_run_quarantines_flaky_tests_witness :
  is_quarantined sample_detector "test_a" = true.
Proof.
  change sample_detector
    with (record_run (foldl (fun d p => record_run d "test_a" p None None 1 2)
                            (new_detector (3 # 10) 5 true 30)
                            [true; false; true; false])
                     "test_a" true None None 1 2).
  apply record_run_quarantines_flaky_tests; [reflexivity|simpl; lia|].
  vm_compute. discriminate.
Defined.

(** ** The most flaky tests *)

Lemma insert_candidate_perm c l : insert_candidate c l ≡ₚ c :: l.
Proof.
  induction l as [|y l IH]; simpl; [reflexivity|].
  destruct (Qltb _ _); [reflexivity|]. rewrite IH. apply perm_swap.
Qed.

Lemma sort_candidates_perm l : sort_candidates l ≡ₚ l.
Proof.
  unfold sort_candidates.
  assert (forall acc, foldl (fun acc c => insert_candidate c acc) acc l ≡ₚ acc ++ l) as H.
  { induction l as [|x l IH]; intros acc; simpl; [now rewrite app_nil_r|].
    rewrite IH, insert_candidate_perm. simpl. apply Permutation_middle. }
  apply (H []).
Qed.

Lemma insert_candidate_sorted c l :
  StronglySorted score_ge l -> StronglySorted score_ge (insert_candidate c l).
Proof.
  induction 1 as [|y l Hs IH Hall]; simpl; [repeat constructor|].
  destruct (Qltb (c_flakiness_score y) (c_flakiness_score c)) eqn:Hlt.
  - apply Qltb_lt in Hlt. constructor; [now constructor|]. constructor.
    + unfold score_ge. now apply Qlt_le_weak.
    + eapply Forall_impl; [exact Hall|]. unfold score_ge. intros x Hx.
      eapply Qle_trans; [exact Hx|]. now apply Qlt_le_weak.
  - apply Qltb_ge in Hlt. constructor; [exact IH|].
    rewrite insert_candidate_perm. now constructor.
Qed.

Lemma sort_candidates_sorted l : StronglySorted score_ge (sort_candidates l).
Proof.
  unfold sort_candidates.
  assert (forall acc, StronglySorted score_ge acc ->
            StronglySorted score_ge (foldl (fun acc c => insert_candidate c acc) acc l)) as H.
  { induction l as [|x l IH]; intros acc Hacc; simpl; [exact Hacc|].
    apply IH. now apply insert_candidate_sorted. }
  apply H. constructor.
Qed.

Lemma StronglySorted_take {A} (R : relation A) n l :
  StronglySorted R l -> StronglySorted R (take n l).
Proof.
  intros H. rewrite <- (take_drop n l) in H. now apply StronglySorted_app_1_l in H.
Qed.

(** X29.  [get_most_flaky(limit)], for a limit that is not negative,
    returns at most [limit] candidates, the highest flakiness score
    first; each is built from a stored history with at least [min_runs]
    runs and a score above zero. *)
Theorem most_flaky_first d limit :
  (0 <= limit)%Z ->
  StronglySorted score_ge (get_most_flaky d limit)
  /\ (Z.of_nat (length (get_most_flaky d limit)) <= limit)%Z
  /\ forall c, In c (get_most_flaky d limit) ->
       exists h, In (c_test_name c, h) (histories d) /\ c = candidate (c_test_name c) h
                 /\ (0 < c_flakiness_score c)%Q
                 /\ (min_runs d <= Z.of_nat (c_run_count c))%Z.
Proof.
  intros Hlimit. unfold get_most_flaky. cbv zeta.
  set (cands := omap _ (histories d)).
  unfold slice_to. cbv zeta.
  destruct (Z.ltb_spec limit 0) as [|_]; [lia|].
  split; [apply StronglySorted_take, sort_candidates_sorted|].
  split; [rewrite length_take; lia|].
  intros c Hc. apply list_elem_of_In, elem_of_take in Hc as (i & Hi & _).
  apply list_elem_of_lookup_2 in Hi. rewrite sort_candidates_perm in Hi.
  subst cands. apply list_elem_of_omap in Hi as ([k h] & Hin & Hsome).
  cbn [fst snd] in Hsome.
  destruct (Z.ltb_spec (Z.of_nat (length (runs h))) (min_runs d)) as [|Hmin];
    [discriminate|].
  destruct (Qltb 0 (flakiness_score h)) eqn:Hpos; [|discriminate].
  injection Hsome as <-. simpl. exists h.
  split; [now apply list_elem_of_In|]. split; [reflexivity|].
  split; [now apply Qltb_lt|exact Hmin].
Qed.

Lemma most_flaky_first_witness :
  StronglySorted score_ge (get_most_flaky sample_detector 3)
  /\ (Z.of_nat (length (get_most_flaky sample_detector 3)) <= 3)%Z.
Proof.
  destruct (most_flaky_first sample_detector 3) as (H1 & H2 & _); [lia|]. auto.
Defined.

(** ** Cleaning up *)

(** X30.  [cleanup_old_runs] keeps, in every history, exactly the runs
    whose timestamp is not before the cutoff ([retention_days] days
    before now), in their order; it removes no history, even an emptied
    one, leaves the quarantine alone, and a second clean-up at the same
    time changes nothing. *)
Theorem cleanup_keeps_recent_runs d now :
  let cutoff := (now - inject_Z (retention_days d * 24 * 60 * 60))%Q in
  let d' := cleanup_old_runs d now in
  Dict.keys (histories d') = Dict.keys (histories d)
  /\ quarantine d' = quarantine d
  /\ (forall name h, Dict.get (histories d) name = Some h ->
        exists h', Dict.get (histories d') name = Some h'
                   /\ h_test_name h' = h_test_name h
                   /\ runs h' = List.filter (fun r => Qle_bool cutoff (timestamp r)) (runs h))
  /\ cleanup_old_runs d' now = d'.
Proof.
  cbv zeta. unfold cleanup_old_runs. cbv zeta. simpl.
  set (cutoff := (now - inject_Z (retention_days d * 24 * 60 * 60))%Q).
  split; [|split; [reflexivity|split]].
  - unfold Dict.keys. rewrite map_map. reflexivity.
  - intros name h. induction (histories d) as [|[k h0] l IH]; simpl; [discriminate|].
    destruct (String.eqb k name); [|exact IH].
    intros [= ->]. eexists. split; [reflexivity|]. split; reflexivity.
  - unfold set_histories. simpl. f_equal. rewrite map_map. apply map_ext.
    intros [k h]. simpl. f_equal. f_equal.
    induction (runs h) as [|r rs IH]; simpl; [reflexivity|].
    destruct (Qle_bool cutoff (timestamp r)) eqn:E; simpl; [|exact IH].
    now rewrite E, IH.
Qed.

End QuarantineSpec.
